(** * A shallow embedding of [src/utils/tokenizer.ts] (class [CustomTokenizer])

    Strings are sequences of UTF-16 code units, as in the source language.
    The vocabulary is a plain object used as a string-keyed map: it is
    modelled by its own properties, kept in the order in which
    [Object.keys] and [Object.entries] enumerate them, together with the
    property names that every plain object inherits from
    [Object.prototype], which the operator [in] and a property read see
    as well.  Identifiers are integers.  The component [App] that uses
    the tokenizer is embedded as a state machine over the events of its
    user interface and of its timers. *)

From Stdlib Require Import ZArith NArith String Ascii.
From stdpp Require Import list gmap sorting.

Local Open Scope Z_scope.

(** ** Strings *)

Abbreviation jschar := N (only parsing).
Abbreviation jsstring := (list N) (only parsing).

(** A literal of the source, written as an ASCII string. *)
Definition js (s : string) : jsstring :=
  N_of_ascii <$> list_ascii_of_string s.
Arguments js s%_string.

Definition SPACE : jschar := 32%N.
Definition EN_DASH : jschar := 8211%N.
Definition EM_DASH : jschar := 8212%N.

(** [\s] of a regular expression, which is also what [trim] strips:
    WhiteSpace and LineTerminator code points. *)
Definition is_whitespace (c : jschar) : bool :=
  bool_decide (c ∈ [9; 10; 11; 12; 13; 32; 160; 5760; 8232; 8233; 8239; 8287;
                    12288; 65279]%N)
  || ((8192 <=? c)%N && (c <=? 8202)%N).

(** The punctuation class of [splitTextTokens]: full stop, exclamation
    mark, question mark, semicolon, colon, both parentheses, apostrophe,
    double quote (34), en dash and em dash. *)
Definition split_punctuation : list jschar :=
  js ".!?;:()'" ++ [34%N; EN_DASH; EM_DASH].

(** The punctuation class of [decode]: the marks above with the comma,
    the backquote (96) and the hyphen (45). *)
Definition decode_punctuation : list jschar :=
  js ".,!?;:()'" ++ [34%N; 96%N; EN_DASH; EM_DASH; 45%N].

(** Global replacement of every code unit of the class [cs] by itself
    between two spaces. *)
Definition replace_spaced (cs : list jschar) (s : jsstring) : jsstring :=
  c ← s; if bool_decide (c ∈ cs) then [SPACE; c; SPACE] else [c].

(** Global replacement of every run of whitespace by one space; [in_run]
    tells that the previous code unit was whitespace, so that the run has
    already been replaced. *)
Fixpoint collapse_from (in_run : bool) (s : jsstring) : jsstring :=
  match s with
  | [] => []
  | c :: r =>
      if is_whitespace c
      then (if in_run then collapse_from true r else SPACE :: collapse_from true r)
      else c :: collapse_from false r
  end.
Definition collapse_whitespace : jsstring → jsstring := collapse_from false.

Fixpoint trimStart (s : jsstring) : jsstring :=
  match s with
  | c :: r => if is_whitespace c then trimStart r else s
  | [] => []
  end.
Definition trimEnd (s : jsstring) : jsstring := reverse (trimStart (reverse s)).
Definition trim (s : jsstring) : jsstring := trimEnd (trimStart s).

(** Splitting at every space; the empty string splits into one empty
    piece. *)
Fixpoint split_space (s : jsstring) : list jsstring :=
  match s with
  | [] => [[]]
  | c :: r =>
      if bool_decide (c = SPACE) then [] :: split_space r
      else match split_space r with
           | piece :: pieces => (c :: piece) :: pieces
           | [] => [[c]]
           end
  end.

(** Joining with one space, used to state what [decode] assembles. *)
Fixpoint join_space (pieces : list jsstring) : jsstring :=
  match pieces with
  | [] => []
  | [p] => p
  | p :: rest => p ++ SPACE :: join_space rest
  end.

(** ** Objects used as maps

    Own properties in enumeration order: array-index keys in ascending
    numeric order first, then the other keys in order of creation. *)

Definition is_digit (c : jschar) : bool := (48 <=? c)%N && (c <=? 57)%N.

Definition digits_value (s : jsstring) : N :=
  fold_left (λ acc c, (10 * acc + (c - 48))%N) s 0%N.

(** The index a key denotes when it is a canonical numeric string below
    [2^32 - 1]. *)
Definition array_index (k : jsstring) : option N :=
  match k with
  | [] => None
  | c :: r =>
      if forallb is_digit k && (negb (c =? 48)%N || bool_decide (r = []))
         && (digits_value k <? 4294967295)%N
      then Some (digits_value k) else None
  end.

Definition obj (V : Type) : Type := list (jsstring * V).

(** The property names that a plain object inherits from
    [Object.prototype]. *)
Definition Object_prototype : list jsstring :=
  [js "constructor"; js "__defineGetter__"; js "__defineSetter__";
   js "hasOwnProperty"; js "__lookupGetter__"; js "__lookupSetter__";
   js "isPrototypeOf"; js "propertyIsEnumerable"; js "toString";
   js "valueOf"; js "__proto__"; js "toLocaleString"].

Definition inherited (k : jsstring) : bool :=
  bool_decide (k ∈ Object_prototype).

Section Obj.
Context {V : Type}.

(** The value of the own property [k], if there is one. *)
Fixpoint obj_get (o : obj V) (k : jsstring) : option V :=
  match o with
  | [] => None
  | (k', v) :: r => if bool_decide (k' = k) then Some v else obj_get r k
  end.

(** [o] has an own property [k]. *)
Definition obj_has (o : obj V) (k : jsstring) : bool :=
  match obj_get o k with Some _ => true | None => false end.

(** [k in o]: an own or an inherited property. *)
Definition obj_in (o : obj V) (k : jsstring) : bool :=
  obj_has o k || inherited k.

Fixpoint obj_overwrite (o : obj V) (k : jsstring) (v : V) : obj V :=
  match o with
  | [] => []
  | (k', v') :: r =>
      if bool_decide (k' = k) then (k', v) :: r
      else (k', v') :: obj_overwrite r k v
  end.

Fixpoint obj_add_index (o : obj V) (i : N) (k : jsstring) (v : V) : obj V :=
  match o with
  | [] => [(k, v)]
  | (k', v') :: r =>
      match array_index k' with
      | Some j =>
          if (i <? j)%N then (k, v) :: o
          else (k', v') :: obj_add_index r i k v
      | None => (k, v) :: o
      end
  end.

(** Defining or updating the own property [k]. *)
Definition obj_set (o : obj V) (k : jsstring) (v : V) : obj V :=
  if obj_has o k then obj_overwrite o k v
  else match array_index k with
       | Some i => obj_add_index o i k v
       | None => o ++ [(k, v)]
       end.

(** The assignment [o[k] = v] of a primitive value: the inherited
    [__proto__] is an accessor whose setter ignores such a value; every
    other assignment defines or updates an own property. *)
Definition obj_assign (o : obj V) (k : jsstring) (v : V) : obj V :=
  if negb (obj_has o k) && bool_decide (k = js "__proto__") then o
  else obj_set o k v.

(** [Object.entries(o)] and [Object.keys(o)] *)
Definition obj_entries (o : obj V) : list (jsstring * V) := o.
Definition obj_keys (o : obj V) : list jsstring := o.*1.

(** The spread [{ ...o }]: a fresh object on which the own properties of
    [o] are defined in enumeration order. *)
Definition obj_spread (o : obj V) : obj V :=
  fold_left (λ acc e, obj_set acc e.1 e.2) (obj_entries o) [].

(** A [Map] keeps its keys in insertion order, whatever they look like. *)
Definition Map_get (m : list (jsstring * V)) (k : jsstring) : option V :=
  obj_get m k.
Definition Map_set (m : list (jsstring * V)) (k : jsstring) (v : V)
  : list (jsstring * V) :=
  if obj_has m k then obj_overwrite m k v else m ++ [(k, v)].
End Obj.

(** What reading a property of the vocabulary yields when it is not
    [undefined]: a number, or the member of [Object.prototype] of that
    name. *)
Inductive jsvalue :=
  | Number (n : Z)
  | Member (name : jsstring).

(** [v[k]], with [None] for [undefined]. *)
Definition vocab_read (v : obj Z) (k : jsstring) : option jsvalue :=
  match obj_get v k with
  | Some n => Some (Number n)
  | None => if inherited k then Some (Member k) else None
  end.

(** [new Set(tokens)], as the list of its elements in iteration order. *)
Definition Set_add (s : list jsstring) (t : jsstring) : list jsstring :=
  if bool_decide (t ∈ s) then s else s ++ [t].
Definition Set_from (tokens : list jsstring) : list jsstring :=
  fold_left Set_add tokens [].

(** [Array.prototype.sort] with a comparator: the sort is stable, an element
    goes before another one when the comparator is negative and stays behind
    an earlier one when it is zero. *)
Fixpoint sort_insert {A} (cmp : A → A → Z) (x : A) (l : list A) : list A :=
  match l with
  | [] => [x]
  | y :: r => if cmp x y <=? 0 then x :: l else y :: sort_insert cmp x r
  end.
Definition Array_sort {A} (cmp : A → A → Z) (l : list A) : list A :=
  foldr (sort_insert cmp) [] l.

(** ** The tokenizer *)

Record TokenizerOptions := {
  opt_specialTokens : option (list jsstring);
  opt_caseSensitive : option bool;
  opt_maxVocabSize : option Z
}.

Record CustomTokenizer := {
  vocab : obj Z;
  reverseVocab : gmap Z (list N);
  specialTokens : list jsstring;
  caseSensitive : bool;
  maxVocabSize : option Z
}.

Definition set_vocab (tk : CustomTokenizer) (v : obj Z) : CustomTokenizer :=
  {| vocab := v; reverseVocab := reverseVocab tk;
     specialTokens := specialTokens tk; caseSensitive := caseSensitive tk;
     maxVocabSize := maxVocabSize tk |}.

Definition set_reverseVocab (tk : CustomTokenizer) (r : gmap Z (list N))
  : CustomTokenizer :=
  {| vocab := vocab tk; reverseVocab := r;
     specialTokens := specialTokens tk; caseSensitive := caseSensitive tk;
     maxVocabSize := maxVocabSize tk |}.

Definition vocabSize (tk : CustomTokenizer) : Z :=
  Z.of_nat (length (obj_keys (vocab tk))).

Definition vocabulary (tk : CustomTokenizer) : obj Z := obj_spread (vocab tk).

(** The object that [buildReverseVocabFromVocab] fills: every entry of
    the vocabulary is written under its identifier, a later entry over an
    earlier one. *)
Definition reverse_of (v : obj Z) : gmap Z (list N) :=
  fold_left (λ rev e, <[e.2 := e.1]> rev) (obj_entries v) ∅.

Definition buildReverseVocabFromVocab (tk : CustomTokenizer) : CustomTokenizer :=
  set_reverseVocab tk (reverse_of (vocab tk)).

(** The [forEach] of [initializeSpecialTokens], from position [index] on. *)
Fixpoint set_each_index (tokens : list jsstring) (index : Z) (v : obj Z) : obj Z :=
  match tokens with
  | [] => v
  | token :: rest => set_each_index rest (index + 1) (obj_assign v token index)
  end.

Definition initializeSpecialTokens (tk : CustomTokenizer) : CustomTokenizer :=
  buildReverseVocabFromVocab
    (set_vocab tk (set_each_index (specialTokens tk) 0 [])).

Definition default_specialTokens : list jsstring :=
  [js "<PAD>"; js "<UNK>"; js "<CLS>"; js "<SEP>"].

Definition constructor (options : TokenizerOptions) : CustomTokenizer :=
  initializeSpecialTokens
    {| vocab := []; reverseVocab := ∅;
       specialTokens := default default_specialTokens (opt_specialTokens options);
       caseSensitive := default false (opt_caseSensitive options);
       maxVocabSize := opt_maxVocabSize options |}.

(** [this.maxVocabSize && this.vocabSize >= this.maxVocabSize]: an absent
    and a zero maximum are both falsy. *)
Definition limit_reached (tk : CustomTokenizer) : bool :=
  match maxVocabSize tk with
  | Some k => negb (k =? 0) && (k <=? vocabSize tk)
  | None => false
  end.

(** The assignment loop of both builders; the boolean tells whether the
    loop was left by [break]. *)
Fixpoint assign_ids (tokens : list jsstring) (tk : CustomTokenizer)
  : CustomTokenizer * bool :=
  match tokens with
  | [] => (tk, false)
  | token :: rest =>
      if limit_reached tk then (tk, true)
      else assign_ids rest
             (if obj_in (vocab tk) token then tk
              else set_vocab tk (obj_assign (vocab tk) token (vocabSize tk)))
  end.

(** What [console.warn] receives: the notice that the limit, the value of
    [this.maxVocabSize], was reached. *)
Inductive warning := LimitReached (limit : option Z).

Inductive outcome (A : Type) :=
  | Returns (a : A)
  | Throws (message : string).
Arguments Returns {A} a.
Arguments Throws {A} message%_string.

(** [tokens.map(...)] of [encode]: the first token that is neither in the
    vocabulary nor replaceable by the unknown token throws. *)
Fixpoint encode_tokens (v : obj Z) (tokens : list jsstring)
  : outcome (list jsvalue) :=
  match tokens with
  | [] => Returns []
  | token :: rest =>
      let tokenId :=
        match vocab_read v token with
        | Some tokenId => Returns tokenId
        | None =>
            match vocab_read v (js "<UNK>") with
            | Some unkId => Returns unkId
            | None => Throws "UNK token not found in vocabulary"
            end
        end in
      match tokenId with
      | Throws m => Throws m
      | Returns tokenId =>
          match encode_tokens v rest with
          | Throws m => Throws m
          | Returns tokenIds => Returns (tokenId :: tokenIds)
          end
      end
  end.

(** String conversion of a decoded token: a missing one reads [undefined]. *)
Definition to_String (token : option (list N)) : jsstring :=
  default (js "undefined") token.

(** The test of [decode]: the whole string is one code unit of the class. *)
Definition is_punctuation (token : option (list N)) : bool :=
  match to_String token with
  | [c] => bool_decide (c ∈ decode_punctuation)
  | _ => false
  end.

(** [specialTokens.includes(token)]; [undefined] is no element of a list of
    strings. *)
Definition includes (l : list jsstring) (token : option (list N)) : bool :=
  match token with
  | Some t => bool_decide (t ∈ l)
  | None => false
  end.

(** The loop of [decode] over the tokens that remain from position [i] on. *)
Fixpoint merge_tokens (filteredTokens : list (option (list N))) (result : jsstring)
  : jsstring :=
  match filteredTokens with
  | [] => result
  | token :: rest =>
      let result1 :=
        if is_punctuation token then trimEnd result ++ to_String token
        else result ++ to_String token in
      merge_tokens rest
        (match rest with [] => result1 | _ :: _ => result1 ++ [SPACE] end)
  end.

Definition decode (tk : CustomTokenizer) (encodedTokens : list Z) : jsstring :=
  let decodedTokens := (λ tokenId, reverseVocab tk !! tokenId) <$> encodedTokens in
  let filteredTokens :=
    filter (λ token, includes (specialTokens tk) token = false) decodedTokens in
  trim (merge_tokens filteredTokens []).

Definition getTokenId (tk : CustomTokenizer) (token : jsstring)
  : option jsvalue :=
  vocab_read (vocab tk) token.
Definition getToken (tk : CustomTokenizer) (id : Z) : option (list N) :=
  reverseVocab tk !! id.
Definition hasToken (tk : CustomTokenizer) (token : jsstring) : bool :=
  obj_in (vocab tk) token.

Record TokenizerJSON := {
  json_vocab : obj Z;
  json_specialTokens : list jsstring;
  json_caseSensitive : bool
}.

Definition toJSON (tk : CustomTokenizer) : TokenizerJSON :=
  {| json_vocab := vocab tk;
     json_specialTokens := specialTokens tk;
     json_caseSensitive := caseSensitive tk |}.

Definition fromJSON (data : TokenizerJSON) : CustomTokenizer :=
  let tokenizer :=
    constructor {| opt_specialTokens := Some (json_specialTokens data);
                   opt_caseSensitive := Some (json_caseSensitive data);
                   opt_maxVocabSize := None |} in
  buildReverseVocabFromVocab (set_vocab tokenizer (obj_spread (json_vocab data))).

(** The operations that read text depend on the case mapping of the host,
    [String.prototype.toLowerCase], a table of the Unicode standard. *)
Section WithCaseMapping.
Variable toLowerCase : jsstring → jsstring.

Definition splitTextTokens (tk : CustomTokenizer) (text : jsstring)
  : list jsstring :=
  let processedText := if caseSensitive tk then text else toLowerCase text in
  filter (λ token : list N, (0 < length token)%nat)
    (split_space
       (trim
          (collapse_whitespace
             (replace_spaced [44%N]
                (replace_spaced split_punctuation processedText))))).

Definition buildVocabFromInputText (tk : CustomTokenizer) (text : jsstring)
  : CustomTokenizer * list warning :=
  let tk := initializeSpecialTokens tk in
  let tokens := splitTextTokens tk text in
  let uniqueTokens := Set_from tokens in
  let '(tk, stopped) := assign_ids uniqueTokens tk in
  (buildReverseVocabFromVocab tk,
   if stopped then [LimitReached (maxVocabSize tk)] else []).

(** The counting loop of [buildVocabFromCorpus] over the tokens of one text. *)
Definition count_tokens (tokens : list jsstring)
    (tokenCounts : list (jsstring * Z)) : list (jsstring * Z) :=
  fold_left
    (λ counts token, Map_set counts token (default 0 (Map_get counts token) + 1))
    tokens tokenCounts.

(** The map [tokenCounts] once every text is counted. *)
Definition corpus_counts (tk : CustomTokenizer) (texts : list jsstring)
  : list (jsstring * Z) :=
  fold_left (λ counts text, count_tokens (splitTextTokens tk text) counts)
    texts [].

(** The entries sorted by descending frequency, then mapped to their keys. *)
Definition by_frequency (tokenCounts : list (jsstring * Z)) : list jsstring :=
  (Array_sort (λ a b : jsstring * Z, b.2 - a.2) tokenCounts).*1.

Definition buildVocabFromCorpus (tk : CustomTokenizer) (texts : list jsstring)
  : CustomTokenizer :=
  let tk := initializeSpecialTokens tk in
  let tokenCounts := corpus_counts tk texts in
  let sortedTokens := by_frequency tokenCounts in
  buildReverseVocabFromVocab (assign_ids sortedTokens tk).1.

Definition encode (tk : CustomTokenizer) (text : jsstring)
  : outcome (list jsvalue) :=
  let tokens := splitTextTokens tk text in
  match encode_tokens (vocab tk) tokens with
  | Throws m => Throws m
  | Returns tokenIds =>
      match vocab_read (vocab tk) (js "<CLS>"),
            vocab_read (vocab tk) (js "<SEP>") with
      | Some clsId, Some sepId => Returns (clsId :: tokenIds ++ [sepId])
      | _, _ => Throws "Required special tokens (CLS, SEP) not found in vocabulary"
      end
  end.
End WithCaseMapping.

(** The case mapping on ASCII text: the letters A to Z move to a to z. *)
Definition ascii_toLowerCase (s : jsstring) : jsstring :=
  (λ c, if (65 <=? c)%N && (c <=? 90)%N then (c + 32)%N else c) <$> s.

(** ** The component [App] of the demo, listed after the text of [README.md]

    The component keeps the text of the input field, the options, the
    record [state] and, memoized on the options, a tokenizer.  An event is
    handled at once up to the first [await] of its handler; what follows
    the [await] runs when the timer fires, with the values that the
    handler closed over when the event came: the text, the encoded
    identifiers and the tokenizer object, which may no longer be the
    memoized one.  Tokenizer objects are kept in a store and named by
    their positions; the memoized one is the last.  The four action
    buttons are disabled while [isProcessing] holds. *)

Definition SAMPLE_TEXTS : list jsstring :=
  [js "Hello world! How are you today?";
   js "The quick brown fox jumps over the lazy dog.";
   js "Learning Generative AI with Hitesh and Piyush Sir!";
   js "Machine learning, deep learning, and AI are transformative technologies."].

Record TokenizerState := {
  state_vocab : obj Z;
  encoded : list jsvalue;
  decoded : jsstring;
  error : option string;
  isProcessing : bool
}.

(** The object that [useState] keeps for the options. *)
Record AppOptions := {
  options_caseSensitive : bool;
  options_maxVocabSize : Z
}.

(** What a handler leaves for the time after its [await]. *)
Inductive Continuation :=
  | buildVocab_resumes (tokenizer : nat) (inputText : jsstring)
  | buildVocabFromCorpus_resumes (tokenizer : nat) (inputText : jsstring)
  | encodeInputText_resumes (tokenizer : nat) (inputText : jsstring)
  | decodeEncodedTokens_resumes (tokenizer : nat) (encoded : list jsvalue).

Record App := {
  inputText : jsstring;
  tokenizerOptions : AppOptions;
  state : TokenizerState;
  tokenizers : list CustomTokenizer;
  waiting : list Continuation;
  console : list warning
}.

(** The updates [setState(prev => ({ ...prev, ... }))] of the handlers. *)
Definition set_error (message : option string) (prev : TokenizerState)
  : TokenizerState :=
  {| state_vocab := state_vocab prev; encoded := encoded prev;
     decoded := decoded prev; error := message;
     isProcessing := isProcessing prev |}.

Definition set_processing (prev : TokenizerState) : TokenizerState :=
  {| state_vocab := state_vocab prev; encoded := encoded prev;
     decoded := decoded prev; error := None; isProcessing := true |}.

Definition set_new_vocab (newVocab : obj Z) (prev : TokenizerState)
  : TokenizerState :=
  {| state_vocab := newVocab; encoded := []; decoded := [];
     error := error prev; isProcessing := false |}.

Definition set_encoded (encodedTokens : list jsvalue) (prev : TokenizerState)
  : TokenizerState :=
  {| state_vocab := state_vocab prev; encoded := encodedTokens; decoded := [];
     error := error prev; isProcessing := false |}.

Definition set_decoded (decodedString : jsstring) (prev : TokenizerState)
  : TokenizerState :=
  {| state_vocab := state_vocab prev; encoded := encoded prev;
     decoded := decodedString; error := error prev; isProcessing := false |}.

(** [handleError] on an [Error] with the given message. *)
Definition handleError (message : string) (prev : TokenizerState)
  : TokenizerState :=
  {| state_vocab := state_vocab prev; encoded := encoded prev;
     decoded := decoded prev; error := Some message; isProcessing := false |}.

Definition with_state (app : App) (s : TokenizerState) : App :=
  {| inputText := inputText app; tokenizerOptions := tokenizerOptions app;
     state := s; tokenizers := tokenizers app; waiting := waiting app;
     console := console app |}.

Definition with_inputText (app : App) (value : jsstring) : App :=
  {| inputText := value; tokenizerOptions := tokenizerOptions app;
     state := state app; tokenizers := tokenizers app; waiting := waiting app;
     console := console app |}.

(** The handler goes on after its timer: the state shows the processing,
    and the continuation waits. *)
Definition await (c : Continuation) (app : App) : App :=
  {| inputText := inputText app; tokenizerOptions := tokenizerOptions app;
     state := set_processing (state app); tokenizers := tokenizers app;
     waiting := waiting app ++ [c]; console := console app |}.

(** [new CustomTokenizer({ caseSensitive, maxVocabSize })] *)
Definition new_CustomTokenizer (o : AppOptions) : CustomTokenizer :=
  constructor {| opt_specialTokens := None;
                 opt_caseSensitive := Some (options_caseSensitive o);
                 opt_maxVocabSize := Some (options_maxVocabSize o) |}.

(** [setTokenizerOptions]: the options object is a new one, so that
    [useMemo] makes a new tokenizer. *)
Definition setTokenizerOptions (o : AppOptions) (app : App) : App :=
  {| inputText := inputText app; tokenizerOptions := o;
     state := state app;
     tokenizers := tokenizers app ++ [new_CustomTokenizer o];
     waiting := waiting app; console := console app |}.

(** The memoized tokenizer. *)
Definition tokenizer (app : App) : nat := pred (length (tokenizers app)).

(** A string is truthy unless it is empty; [null] is falsy. *)
Definition truthy (message : option string) : bool :=
  match message with
  | Some EmptyString | None => false
  | Some (String _ _) => true
  end.

(** [!inputText.trim()] *)
Definition is_blank (text : jsstring) : bool := bool_decide (trim text = []).

Definition handleInputChange (value : jsstring) (app : App) : App :=
  let app' := with_inputText app value in
  if truthy (error (state app)) then with_state app' (set_error None (state app'))
  else app'.

Definition loadSampleText (text : jsstring) (app : App) : App :=
  let app' := with_inputText app text in
  if truthy (error (state app)) then with_state app' (set_error None (state app'))
  else app'.

Definition buildVocab (app : App) : App :=
  if is_blank (inputText app)
  then with_state app (set_error (Some "Please enter some text first"%string) (state app))
  else await (buildVocab_resumes (tokenizer app) (inputText app)) app.

(** The handler [buildVocabFromCorpus] of the component. *)
Definition App_buildVocabFromCorpus (app : App) : App :=
  await (buildVocabFromCorpus_resumes (tokenizer app) (inputText app)) app.

Definition encodeInputText (app : App) : App :=
  if is_blank (inputText app)
  then with_state app
         (set_error (Some "Please enter some text to encode"%string) (state app))
  else if bool_decide (length (obj_keys (state_vocab (state app))) = 0%nat)
  then with_state app
         (set_error (Some "Please build vocabulary first"%string) (state app))
  else await (encodeInputText_resumes (tokenizer app) (inputText app)) app.

Definition decodeEncodedTokens (app : App) : App :=
  if bool_decide (length (encoded (state app)) = 0%nat)
  then with_state app
         (set_error (Some "Please encode some text first"%string) (state app))
  else await (decodeEncodedTokens_resumes (tokenizer app) (encoded (state app)))
         app.

Definition clearAll (app : App) : App :=
  {| inputText := []; tokenizerOptions := tokenizerOptions app;
     state := {| state_vocab := []; encoded := []; decoded := [];
                 error := None; isProcessing := false |};
     tokenizers := tokenizers app; waiting := waiting app;
     console := console app |}.

(** [decode] on what [encode] returned: a member of [Object.prototype]
    converts to a property key that is neither an identifier nor the name
    of such a member, so that reading it yields [undefined]. *)
Definition decode_values (tk : CustomTokenizer) (encodedTokens : list jsvalue)
  : jsstring :=
  let decodedTokens :=
    (λ tokenId, match tokenId with
                | Number id => reverseVocab tk !! id
                | Member _ => None
                end) <$> encodedTokens in
  let filteredTokens :=
    filter (λ token, includes (specialTokens tk) token = false) decodedTokens in
  trim (merge_tokens filteredTokens []).

(** [parseInt(e.target.value) || 1000], with [None] for [NaN]. *)
Definition parsed_or_1000 (parsed : option Z) : Z :=
  match parsed with
  | Some n => if n =? 0 then 1000 else n
  | None => 1000
  end.

Inductive Event :=
  | InputChanged (value : jsstring)
  | SampleSelected (value : jsstring)
  | CaseSensitiveChecked (checked : bool)
  | MaxVocabSizeEntered (parsed : option Z)
  | BuildVocabularyClicked
  | BuildFromCorpusClicked
  | EncodeTextClicked
  | DecodeTokensClicked
  | ClearAllClicked
  | TimerFired (i : nat).

Definition set_tokenizer (app : App) (r : nat) (tk : CustomTokenizer)
    (ws : list warning) (s : TokenizerState) : App :=
  {| inputText := inputText app; tokenizerOptions := tokenizerOptions app;
     state := s; tokenizers := <[r := tk]> (tokenizers app);
     waiting := waiting app; console := console app ++ ws |}.

Definition initial_App : App :=
  let o := {| options_caseSensitive := false; options_maxVocabSize := 1000 |} in
  {| inputText := []; tokenizerOptions := o;
     state := {| state_vocab := []; encoded := []; decoded := [];
                 error := None; isProcessing := false |};
     tokenizers := [new_CustomTokenizer o]; waiting := []; console := [] |}.

Section AppSteps.
Variable toLowerCase : jsstring → jsstring.

(** What follows the [await] of a handler. *)
Definition resume (c : Continuation) (app : App) : App :=
  match c with
  | buildVocab_resumes r text =>
      match tokenizers app !! r with
      | Some tk =>
          let '(tk', ws) := buildVocabFromInputText toLowerCase tk text in
          set_tokenizer app r tk' ws (set_new_vocab (vocabulary tk') (state app))
      | None => app
      end
  | buildVocabFromCorpus_resumes r text =>
      match tokenizers app !! r with
      | Some tk =>
          let corpus :=
            if is_blank text then SAMPLE_TEXTS else SAMPLE_TEXTS ++ [text] in
          let tk' := buildVocabFromCorpus toLowerCase tk corpus in
          set_tokenizer app r tk' [] (set_new_vocab (vocabulary tk') (state app))
      | None => app
      end
  | encodeInputText_resumes r text =>
      match tokenizers app !! r with
      | Some tk =>
          match encode toLowerCase tk text with
          | Returns encodedTokens =>
              with_state app (set_encoded encodedTokens (state app))
          | Throws message => with_state app (handleError message (state app))
          end
      | None => app
      end
  | decodeEncodedTokens_resumes r encodedTokens =>
      match tokenizers app !! r with
      | Some tk =>
          with_state app (set_decoded (decode_values tk encodedTokens) (state app))
      | None => app
      end
  end.

Definition without_waiting (app : App) (i : nat) : App :=
  {| inputText := inputText app; tokenizerOptions := tokenizerOptions app;
     state := state app; tokenizers := tokenizers app;
     waiting := delete i (waiting app); console := console app |}.

(** One event.  A disabled button gives no event, and neither does the
    empty entry of the sample list.  [TimerFired i] resumes the handler at
    position [i] among those that wait: the order in which the timers fire
    is left open. *)
Definition handle (app : App) (e : Event) : App :=
  match e with
  | InputChanged value => handleInputChange value app
  | SampleSelected value =>
      if bool_decide (value = []) then app else loadSampleText value app
  | CaseSensitiveChecked checked =>
      setTokenizerOptions
        {| options_caseSensitive := checked;
           options_maxVocabSize := options_maxVocabSize (tokenizerOptions app) |}
        app
  | MaxVocabSizeEntered parsed =>
      setTokenizerOptions
        {| options_caseSensitive := options_caseSensitive (tokenizerOptions app);
           options_maxVocabSize := parsed_or_1000 parsed |}
        app
  | BuildVocabularyClicked =>
      if isProcessing (state app) then app else buildVocab app
  | BuildFromCorpusClicked =>
      if isProcessing (state app) then app else App_buildVocabFromCorpus app
  | EncodeTextClicked =>
      if isProcessing (state app) then app else encodeInputText app
  | DecodeTokensClicked =>
      if isProcessing (state app) then app else decodeEncodedTokens app
  | ClearAllClicked => clearAll app
  | TimerFired i =>
      match waiting app !! i with
      | Some c => resume c (without_waiting app i)
      | None => app
      end
  end.

Definition run (events : list Event) (app : App) : App :=
  fold_left handle events app.
End AppSteps.

(** ** Configurations used in examples *)

Definition options (specials : option (list jsstring)) (sensitive : option bool)
    (limit : option Z) : TokenizerOptions :=
  {| opt_specialTokens := specials; opt_caseSensitive := sensitive;
     opt_maxVocabSize := limit |}.

Definition default_options : TokenizerOptions := options None None None.

Definition limited_options (limit : Z) : TokenizerOptions :=
  options None None (Some limit).

Definition repeated_options : TokenizerOptions :=
  options (Some [js "a"; js "a"]) None None.

Definition bracket_options : TokenizerOptions :=
  options (Some [js "[PAD]"; js "[UNK]"; js "[CLS]"; js "[SEP]"]) None None.

(** A tokenizer with the default options whose vocabulary is built from
    the text [Hello world!]. *)
Definition hello_world : CustomTokenizer :=
  (buildVocabFromInputText ascii_toLowerCase (constructor default_options)
     (js "Hello world!")).1.

(** Serialized data whose vocabulary has no entry for [<UNK>]. *)
Definition data_without_unknown : TokenizerJSON :=
  {| json_vocab := [(js "<CLS>", 0); (js "<SEP>", 1); (js "a", 2)];
     json_specialTokens := default_specialTokens;
     json_caseSensitive := false |}.

(** ** Vocabulary of the statements *)

(** Numbering the tokens of [l] one after the other with the current size
    of the object: what the builders do with the tokens they accept. *)
Definition number_tokens (v : obj Z) (l : list jsstring) : obj Z :=
  fold_left (λ v t, obj_set v t (Z.of_nat (length (obj_keys v)))) l v.

(** How many more tokens the configured maximum lets in; [None] when no
    maximum applies. *)
Definition room (tk : CustomTokenizer) : option nat :=
  match maxVocabSize tk with
  | Some k => if k =? 0 then None else Some (Z.to_nat (k - vocabSize tk))
  | None => None
  end.

Definition take_room {A} (r : option nat) (l : list A) : list A :=
  match r with Some n => take n l | None => l end.

(** The tokens that a builder can number: no special tokens, and no names
    that the vocabulary object inherits. *)
Definition candidates (tk : CustomTokenizer) (tokens : list jsstring)
  : list jsstring :=
  filter (λ t, (t ∉ specialTokens tk) ∧ inherited t = false) tokens.

(** The tokens of [l] that a maximum lets in when [used] identifiers are
    taken already: all of them without a maximum (absent or zero). *)
Definition within_limit {A} (maxVocabSize : option Z) (used : nat) (l : list A)
  : list A :=
  match maxVocabSize with
  | Some k => if k =? 0 then l else take (Z.to_nat (k - Z.of_nat used)) l
  | None => l
  end.

(** The vocabulary of [tk] is the list [l] numbered from zero: the tokens
    of [l] are pairwise distinct and the token at position [n] has the
    identifier [n], and nothing else has one. *)
Definition numbered_as (tk : CustomTokenizer) (l : list jsstring) : Prop :=
  NoDup l ∧ vocabSize tk = Z.of_nat (length l) ∧
  ∀ t id, getTokenId tk t = Some (Number id) ↔
          ∃ n : nat, id = Z.of_nat n ∧ l !! n = Some t.

(** The reverse vocabulary is the inverse of the vocabulary. *)
Definition inverse_vocabularies (tk : CustomTokenizer) : Prop :=
  ∀ t id, getTokenId tk t = Some (Number id) ↔ getToken tk id = Some t.

(** The vocabulary after [buildVocabFromInputText] holds the special
    tokens and then all unique tokens of the text, numbered in this order. *)
Definition all_tokens_numbered (toLowerCase : jsstring → jsstring)
    (tk : CustomTokenizer) (text : jsstring) : Prop :=
  numbered_as (buildVocabFromInputText toLowerCase tk text).1
    (specialTokens tk ++
     filter (λ t, t ∉ specialTokens tk)
       (Set_from (splitTextTokens toLowerCase tk text))).

(** Every special token has its position as identifier. *)
Definition specials_in_place (tk : CustomTokenizer) : Prop :=
  ∀ (i : nat) t,
    specialTokens tk !! i = Some t → getTokenId tk t = Some (Number (Z.of_nat i)).

(** Whitespace occurs in [s] as single spaces only; [after_space] tells
    that a space stands right before [s]. *)
Fixpoint single_spaced (after_space : bool) (s : jsstring) : Prop :=
  match s with
  | [] => True
  | c :: r =>
      if is_whitespace c
      then c = SPACE ∧ after_space = false ∧ single_spaced true r
      else single_spaced false r
  end.

(** Whitespace normalization: runs of whitespace become one space, and
    the whitespace at both ends goes. *)
Definition normalize_whitespace (s : jsstring) : jsstring :=
  trim (collapse_whitespace s).

(** No code unit of [s] is a mark that [splitTextTokens] sets apart. *)
Definition no_split_punctuation (s : jsstring) : Prop :=
  Forall (λ c, (c ∉ split_punctuation) ∧ (c ≠ 44)%N) s.

(** Enumeration order of keys: an array index comes after array indices
    that are not greater only, any other key comes after any key. *)
Definition key_le (a b : jsstring) : Prop :=
  match array_index b with
  | Some j => match array_index a with Some i => (i ≤ j)%N | None => False end
  | None => True
  end.

(** The lists that are objects: distinct keys in enumeration order. *)
Definition obj_wf {V} (o : obj V) : Prop :=
  StronglySorted key_le (obj_keys o) ∧ NoDup (obj_keys o).

(** What an identifier contributes to the decoded text: its token, nothing
    when that token is a special token, and the word [undefined] when the
    reverse vocabulary has no entry for it. *)
Definition contribution (tk : CustomTokenizer) (tokenId : Z) : option (list N) :=
  match reverseVocab tk !! tokenId with
  | Some token =>
      if bool_decide (token ∈ specialTokens tk) then None else Some token
  | None => Some (js "undefined")
  end.

(** A word: not empty, free of whitespace, and no punctuation mark of
    [decode]. *)
Definition is_word (w : jsstring) : bool :=
  negb (bool_decide (w = [])) && forallb (λ c, negb (is_whitespace c)) w
  && negb (is_punctuation (Some w)).

Section States.
Variable toLowerCase : jsstring → jsstring.

(** The text that [splitTextTokens] splits: lower-cased unless the
    tokenizer is case-sensitive. *)
Definition processedText (tk : CustomTokenizer) (text : jsstring) : jsstring :=
  if caseSensitive tk then text else toLowerCase text.

(** The tokens of all texts, in reading order. *)
Definition corpus_tokens (tk : CustomTokenizer) (texts : list jsstring)
  : list jsstring :=
  texts ≫= splitTextTokens toLowerCase tk.

(** The states right after the constructor or one of the two builders,
    run on any tokenizer. *)
Inductive after_build : CustomTokenizer → Prop :=
  | after_constructor options : after_build (constructor options)
  | after_buildVocabFromInputText tk text :
      after_build (buildVocabFromInputText toLowerCase tk text).1
  | after_buildVocabFromCorpus tk texts :
      after_build (buildVocabFromCorpus toLowerCase tk texts).

(** The states a tokenizer can be in: its fields change in the
    constructor, the builders and [fromJSON] only. *)
Inductive reachable : CustomTokenizer → Prop :=
  | reachable_built tk : after_build tk → reachable tk
  | reachable_fromJSON data : reachable (fromJSON data).
End States.

(** The position of the first occurrence of [t] in [l], the length of [l]
    when there is none. *)
Fixpoint first_index (t : jsstring) (l : list jsstring) : nat :=
  match l with
  | [] => 0
  | x :: r => if bool_decide (x = t) then 0 else S (first_index t r)
  end.

(** How often [t] occurs in [l]. *)
Definition occurrences (t : jsstring) (l : list jsstring) : nat :=
  length (filter (λ x, x = t) l).

(** [a] is ranked before [b] by the corpus builder: it occurs more often
    among the tokens [l], or as often and earlier for the first time. *)
Definition ranked_before (l : list jsstring) (a b : jsstring) : Prop :=
  (occurrences b l < occurrences a l)%nat ∨
  occurrences a l = occurrences b l ∧ (first_index a l < first_index b l)%nat.

(** The marks that [splitTextTokens] sets apart: its punctuation class and
    the comma. *)
Definition is_split_mark (c : jschar) : bool :=
  bool_decide (c ∈ split_punctuation) || bool_decide (c = 44%N).

(** Every mark of the splitter between two spaces: what the two
    replacements of [splitTextTokens] make of a text. *)
Definition marks_spaced (s : jsstring) : jsstring :=
  c ← s; if is_split_mark c then [SPACE; c; SPACE] else [c].

(** Splitting at every code unit of the class [sep], the way [split]
    does at every space. *)
Fixpoint runs (sep : jschar → bool) (s : jsstring) : list jsstring :=
  match s with
  | [] => [[]]
  | c :: r =>
      if sep c then [] :: runs sep r
      else match runs sep r with
           | piece :: pieces => (c :: piece) :: pieces
           | [] => [[c]]
           end
  end.

(** The words of a text: its maximal runs of code units that are no
    whitespace. *)
Definition words (s : jsstring) : list jsstring :=
  filter (λ w : list N, (0 < length w)%nat) (runs is_whitespace s).

(** Not empty and free of whitespace, as the tokens of the splitter are. *)
Definition is_token (t : jsstring) : Prop :=
  t ≠ [] ∧ Forall (λ c, is_whitespace c = false) t.

(** A token is one mark of the splitter, or holds none. *)
Definition mark_or_markless (t : jsstring) : Prop :=
  (∃ c, t = [c] ∧ is_split_mark c = true) ∨
  Forall (λ c, is_split_mark c = false) t.

(** What [decode] appends for a token after the first one: a punctuation
    mark goes right behind the text, any other token behind one space. *)
Definition attached (token : jsstring) : jsstring :=
  if is_punctuation (Some token) then token else SPACE :: token.

(** The text that [decode] assembles from tokens that are not empty and
    hold no whitespace. *)
Definition format_tokens (tokens : list jsstring) : jsstring :=
  match tokens with
  | [] => []
  | token :: rest => token ++ (rest ≫= attached)
  end.

(** A token that the splitter isolates and [decode] attaches alike: not
    empty, free of whitespace, one mark of the splitter or free of such
    marks, and neither a lone hyphen nor a lone backquote, which only
    [decode] takes for punctuation. *)
Definition is_stable_token (t : jsstring) : Prop :=
  is_token t ∧ mark_or_markless t ∧ t ≠ js "-" ∧ t ≠ js "`".

(** The maximum size, if one is in force, admits the special tokens and
    every candidate among [tokens]. *)
Definition limit_admits (tk : CustomTokenizer) (tokens : list jsstring) : Prop :=
  match maxVocabSize tk with
  | Some k =>
      k = 0 ∨
      vocabSize (initializeSpecialTokens tk) +
        Z.of_nat (length (candidates tk tokens)) ≤ k
  | None => True
  end.

(** The text [s] is empty or starts with whitespace: a word that stands
    before it ends there. *)
Definition at_word_end (s : jsstring) : Prop :=
  s = [] ∨ ∃ w s', s = w :: s' ∧ is_whitespace w = true.

(** The tokens of one word: its marks of the splitter, and what stands
    between them. *)
Definition word_tokens (w : jsstring) : list jsstring := words (marks_spaced w).

(** The tokens of a word stand where [decode] puts them: every token
    after the first is a punctuation mark of [decode], and the first is
    none unless the word is the first one of the text. *)
Definition tokens_in_place (first : bool) (w : jsstring) : Prop :=
  match word_tokens w with
  | [] => True
  | token :: rest =>
      (first = false → is_punctuation (Some token) = false) ∧
      Forall (λ t, is_punctuation (Some t) = true) rest
  end.

(** The tokens of every word of a text stand where [decode] puts them. *)
Definition words_in_place (ws : list jsstring) : Prop :=
  match ws with
  | [] => True
  | w :: rest => tokens_in_place true w ∧ Forall (tokens_in_place false) rest
  end.

(** Both conditions are decidable. *)
#[global] Instance tokens_in_place_dec first w : Decision (tokens_in_place first w).
Proof. unfold tokens_in_place. destruct (word_tokens w); apply _. Defined.

#[global] Instance words_in_place_dec ws : Decision (words_in_place ws).
Proof. unfold words_in_place. destruct ws; apply _. Defined.

(** *** The component *)

(** What the guards of the handlers report, and [null]. *)
Definition guard_errors : list (option string) :=
  [None;
   Some "Please enter some text first"%string;
   Some "Please enter some text to encode"%string;
   Some "Please build vocabulary first"%string;
   Some "Please encode some text first"%string].

(** The tokenizer that a continuation closed over. *)
Definition closed_over (c : Continuation) : nat :=
  match c with
  | buildVocab_resumes r _ | buildVocabFromCorpus_resumes r _
  | encodeInputText_resumes r _ | decodeEncodedTokens_resumes r _ => r
  end.

(** A tokenizer of the component: in the state right after the constructor
    or a build, with the default special tokens. *)
Definition App_tokenizer (toLowerCase : jsstring → jsstring)
    (tk : CustomTokenizer) : Prop :=
  after_build toLowerCase tk ∧ specialTokens tk = default_specialTokens.

(** What holds of the component after any events. *)
Definition App_invariant (toLowerCase : jsstring → jsstring) (app : App)
  : Prop :=
  error (state app) ∈ guard_errors ∧
  Forall (App_tokenizer toLowerCase) (tokenizers app) ∧
  (∃ tk, tokenizers app !! tokenizer app = Some tk ∧
         caseSensitive tk = options_caseSensitive (tokenizerOptions app) ∧
         maxVocabSize tk = Some (options_maxVocabSize (tokenizerOptions app))) ∧
  Forall (λ c, (closed_over c < length (tokenizers app))%nat) (waiting app) ∧
  (isProcessing (state app) = true → waiting app ≠ []).

(** The events that set the options. *)
Definition sets_options (e : Event) : bool :=
  match e with
  | CaseSensitiveChecked _ | MaxVocabSizeEntered _ => true
  | _ => false
  end.

(** * Properties *)

(** ** Objects *)

Section ObjFacts.
Context {V : Type}.
Implicit Types (o : obj V) (k : jsstring) (v : V).

Lemma obj_has_true o k : obj_has o k = true ↔ k ∈ obj_keys o.
Proof.
  unfold obj_has, obj_keys. induction o as [|[k' v'] o IH]; simpl.
  - split; [done | by intros ?%elem_of_nil].
  - case_bool_decide; subst.
    + split; [intros _; left | done].
    + rewrite IH. split; [by right | intros [?|?]%elem_of_cons; done].
Qed.

Lemma obj_has_false o k : obj_has o k = false ↔ k ∉ obj_keys o.
Proof. rewrite <- obj_has_true. by destruct (obj_has o k). Qed.

Lemma obj_get_None o k : obj_get o k = None ↔ k ∉ obj_keys o.
Proof.
  rewrite <- obj_has_false. unfold obj_has.
  by destruct (obj_get o k).
Qed.

Lemma obj_get_elem_of o k v : obj_get o k = Some v → (k, v) ∈ o.
Proof.
  induction o as [|[k' v'] o IH]; simpl; [done|].
  case_bool_decide; subst.
  - intros [= ->]. left.
  - intros ?. right. auto.
Qed.

Lemma obj_elem_of_get o k v :
  NoDup (obj_keys o) → (k, v) ∈ o → obj_get o k = Some v.
Proof.
  unfold obj_keys. induction o as [|[k' v'] o IH]; simpl.
  - by intros _ ?%elem_of_nil.
  - intros [Hk Ho]%NoDup_cons [[= -> ->]|Hin]%elem_of_cons.
    + by rewrite bool_decide_eq_true_2.
    + case_bool_decide; subst; [|auto].
      destruct Hk. by apply (list_elem_of_fmap_2 fst _ (k, v)).
Qed.

Lemma obj_get_overwrite o k v k' :
  obj_get (obj_overwrite o k v) k' =
    if bool_decide (k = k') then (λ _, v) <$> obj_get o k else obj_get o k'.
Proof.
  induction o as [|[k0 v0] o IH]; simpl.
  - by case_bool_decide.
  - destruct (decide (k0 = k)) as [->|Hne].
    + rewrite bool_decide_eq_true_2 by done. simpl. by case_bool_decide.
    + rewrite (bool_decide_eq_false_2 (k0 = k)) by done. simpl. rewrite IH.
      destruct (decide (k0 = k')) as [->|Hne'].
      * rewrite bool_decide_eq_true_2 by done.
        by rewrite bool_decide_eq_false_2 by congruence.
      * by rewrite (bool_decide_eq_false_2 (k0 = k')) by done.
Qed.

Lemma obj_keys_overwrite o k v : obj_keys (obj_overwrite o k v) = obj_keys o.
Proof.
  unfold obj_keys. induction o as [|[k0 v0] o IH]; simpl; [done|].
  case_bool_decide; csimpl; by f_equal.
Qed.

Lemma obj_add_index_perm o i k v : obj_add_index o i k v ≡ₚ (k, v) :: o.
Proof.
  induction o as [|[k0 v0] o IH]; simpl; [done|].
  destruct (array_index k0); [|done].
  destruct (i <? _)%N; [done|]. rewrite IH. apply Permutation_swap.
Qed.

Lemma obj_get_add_index o i k v k' :
  k ∉ obj_keys o →
  obj_get (obj_add_index o i k v) k' =
    if bool_decide (k = k') then Some v else obj_get o k'.
Proof.
  unfold obj_keys. induction o as [|[k0 v0] o IH]; simpl; [done|].
  intros [Hne Hk]%not_elem_of_cons.
  destruct (array_index k0); [destruct (i <? _)%N|]; simpl; try done.
  rewrite IH by done.
  repeat (case_bool_decide; subst); done.
Qed.

Lemma obj_get_snoc o k v k' :
  obj_get (o ++ [(k, v)]) k' =
    match obj_get o k' with
    | Some w => Some w
    | None => if bool_decide (k = k') then Some v else None
    end.
Proof.
  induction o as [|[k0 v0] o IH]; simpl; [done|].
  destruct (bool_decide (k0 = k')); [done | apply IH].
Qed.

Lemma obj_get_set o k v k' :
  obj_get (obj_set o k v) k' =
    if bool_decide (k = k') then Some v else obj_get o k'.
Proof.
  unfold obj_set. destruct (obj_has o k) eqn:Hk.
  - rewrite obj_get_overwrite. case_bool_decide; [|done].
    unfold obj_has in Hk. by destruct (obj_get o k).
  - apply obj_has_false in Hk. destruct (array_index k).
    + by apply obj_get_add_index.
    + rewrite obj_get_snoc. case_bool_decide; subst.
      * by apply obj_get_None in Hk as ->.
      * by destruct (obj_get o k').
Qed.

Lemma obj_has_set o k v k' :
  obj_has (obj_set o k v) k' = bool_decide (k = k') || obj_has o k'.
Proof. unfold obj_has. rewrite obj_get_set. by case_bool_decide. Qed.

Lemma obj_set_old o k v :
  obj_has o k = true → obj_keys (obj_set o k v) = obj_keys o.
Proof. intros Hk. unfold obj_set. rewrite Hk. apply obj_keys_overwrite. Qed.

Lemma obj_set_new o k v : obj_has o k = false → obj_set o k v ≡ₚ (k, v) :: o.
Proof.
  intros Hk. unfold obj_set. rewrite Hk. destruct (array_index k).
  - apply obj_add_index_perm.
  - by rewrite Permutation_app_comm.
Qed.

Lemma obj_keys_set_new o k v :
  obj_has o k = false → obj_keys (obj_set o k v) ≡ₚ k :: obj_keys o.
Proof. intros Hk. unfold obj_keys. by rewrite obj_set_new. Qed.

Lemma obj_length_set o k v :
  length (obj_keys (obj_set o k v)) =
    if obj_has o k then length (obj_keys o) else S (length (obj_keys o)).
Proof.
  destruct (obj_has o k) eqn:Hk.
  - by rewrite obj_set_old.
  - by rewrite obj_keys_set_new.
Qed.

Lemma obj_keys_NoDup_set o k v :
  NoDup (obj_keys o) → NoDup (obj_keys (obj_set o k v)).
Proof.
  intros Ho. destruct (obj_has o k) eqn:Hk.
  - by rewrite obj_set_old.
  - rewrite obj_keys_set_new by done. apply NoDup_cons.
    by apply obj_has_false in Hk.
Qed.

Lemma obj_in_false o k :
  obj_in o k = false ↔ (k ∉ obj_keys o) ∧ inherited k = false.
Proof. unfold obj_in. by rewrite orb_false_iff, obj_has_false. Qed.

Lemma inherited_false_proto k : inherited k = false → k ≠ js "__proto__".
Proof. by intros Hk ->. Qed.

Lemma obj_assign_set o k v : k ≠ js "__proto__" → obj_assign o k v = obj_set o k v.
Proof.
  intros Hk. unfold obj_assign.
  by rewrite (bool_decide_eq_false_2 (k = js "__proto__")), andb_false_r.
Qed.

Lemma obj_assign_new o k v : obj_in o k = false → obj_assign o k v = obj_set o k v.
Proof.
  intros [_ Hk]%obj_in_false. by apply obj_assign_set, inherited_false_proto.
Qed.

Lemma obj_assign_cases o k v :
  obj_assign o k v = obj_set o k v ∨
  obj_assign o k v = o ∧ obj_has o k = false ∧ k = js "__proto__".
Proof.
  unfold obj_assign. destruct (obj_has o k); simpl; [by left|].
  case_bool_decide; [by right|by left].
Qed.
End ObjFacts.

Lemma vocab_read_Number v t id :
  vocab_read v t = Some (Number id) ↔ obj_get v t = Some id.
Proof.
  unfold vocab_read. destruct (obj_get v t); [|by destruct (inherited t)].
  split; by intros [= ->].
Qed.

Lemma vocab_read_None v t :
  vocab_read v t = None ↔ obj_get v t = None ∧ inherited t = false.
Proof.
  unfold vocab_read. destruct (obj_get v t); [by split; [|intros []]|].
  destruct (inherited t); by split; [|intros []].
Qed.

Lemma getTokenId_Number tk t id :
  getTokenId tk t = Some (Number id) ↔ obj_get (vocab tk) t = Some id.
Proof. apply vocab_read_Number. Qed.

(** ** Lists *)

Lemma filter_ext_elem_of {A} (P Q : A → Prop)
    `{!∀ x, Decision (P x), !∀ x, Decision (Q x)} (l : list A) :
  (∀ x, x ∈ l → P x ↔ Q x) → filter P l = filter Q l.
Proof.
  induction l as [|x l IH]; intros HPQ; [done|].
  rewrite !filter_cons. rewrite IH by (intros; apply HPQ; by right).
  destruct (decide (P x)) as [HP|HP], (decide (Q x)) as [HQ|HQ]; try done;
    destruct (HPQ x); try left; tauto.
Qed.

(** ** Numbering tokens *)

Lemma number_tokens_app v l1 l2 :
  number_tokens v (l1 ++ l2) = number_tokens (number_tokens v l1) l2.
Proof. apply fold_left_app. Qed.

Lemma number_tokens_get_old v l t :
  t ∉ l → obj_get (number_tokens v l) t = obj_get v t.
Proof.
  revert v. induction l as [|x l IH]; intros v Ht; simpl; [done|].
  apply not_elem_of_cons in Ht as [Hne Ht].
  rewrite IH by done. rewrite obj_get_set.
  by rewrite bool_decide_eq_false_2 by congruence.
Qed.

Lemma number_tokens_keys v l :
  NoDup l → (∀ t, t ∈ l → t ∉ obj_keys v) →
  obj_keys (number_tokens v l) ≡ₚ obj_keys v ++ l.
Proof.
  revert v. induction l as [|x l IH]; intros v Hl Hfresh; simpl.
  - by rewrite app_nil_r.
  - apply NoDup_cons in Hl as [Hx Hl].
    assert (obj_has v x = false) as Hv.
    { apply obj_has_false, Hfresh. left. }
    rewrite IH; [|done|].
    + rewrite obj_keys_set_new by done. apply Permutation_middle.
    + intros t Ht. rewrite obj_keys_set_new by done.
      apply not_elem_of_cons. split; [by intros ->|].
      apply Hfresh. by right.
Qed.

Lemma number_tokens_length v l :
  NoDup l → (∀ t, t ∈ l → t ∉ obj_keys v) →
  length (obj_keys (number_tokens v l)) = (length (obj_keys v) + length l)%nat.
Proof. intros. by rewrite number_tokens_keys, length_app. Qed.

Lemma number_tokens_get_new v l n t :
  NoDup l → (∀ t, t ∈ l → t ∉ obj_keys v) → l !! n = Some t →
  obj_get (number_tokens v l) t = Some (Z.of_nat (length (obj_keys v) + n)).
Proof.
  revert v n. induction l as [|x l IH]; intros v n Hl Hfresh Hn; [done|].
  apply NoDup_cons in Hl as [Hx Hl].
  assert (obj_has v x = false) as Hv.
  { apply obj_has_false, Hfresh. left. }
  simpl. destruct n as [|n]; simplify_eq/=.
  - rewrite number_tokens_get_old by done. rewrite obj_get_set.
    rewrite bool_decide_eq_true_2 by done. do 2 f_equal. lia.
  - erewrite IH; [|done| |done].
    + rewrite obj_length_set, Hv. do 2 f_equal. lia.
    + intros t' Ht'. rewrite obj_keys_set_new by done.
      apply not_elem_of_cons. split; [by intros ->|].
      apply Hfresh. by right.
Qed.

(** ** The assignment loop *)

Lemma assign_ids_fields tokens tk :
  let tk' := (assign_ids tokens tk).1 in
  reverseVocab tk' = reverseVocab tk ∧ specialTokens tk' = specialTokens tk ∧
  caseSensitive tk' = caseSensitive tk ∧ maxVocabSize tk' = maxVocabSize tk.
Proof.
  revert tk. induction tokens as [|t tokens IH]; intros tk; simpl; [done|].
  destruct (limit_reached tk); [done|].
  destruct (obj_in (vocab tk) t); [apply IH|].
  destruct (IH (set_vocab tk (obj_assign (vocab tk) t (vocabSize tk))))
    as (?&?&?&?).
  done.
Qed.

Lemma limit_reached_room tk :
  limit_reached tk = true ↔ room tk = Some 0%nat.
Proof.
  unfold limit_reached, room. destruct (maxVocabSize tk) as [k|]; [|done].
  destruct (Z.eqb_spec k 0); simpl; [done|].
  rewrite Z.leb_le. split; [intros; f_equal; lia | intros [= ?]; lia].
Qed.

Lemma room_set_vocab tk t :
  limit_reached tk = false → obj_has (vocab tk) t = false →
  room tk = S <$> room (set_vocab tk (obj_set (vocab tk) t (vocabSize tk))).
Proof.
  intros Hlim Ht. unfold limit_reached, room, vocabSize in *. simpl.
  rewrite obj_length_set, Ht.
  destruct (maxVocabSize tk) as [k|]; [|done].
  destruct (Z.eqb_spec k 0); simpl in *; [done|].
  apply Z.leb_gt in Hlim. f_equal. lia.
Qed.

(** The loop numbers the tokens that are no property of the vocabulary,
    own or inherited, as far as there is room. *)
Lemma assign_ids_vocab tokens tk :
  NoDup tokens →
  vocab (assign_ids tokens tk).1 =
    number_tokens (vocab tk)
      (take_room (room tk)
         (filter (λ t, obj_in (vocab tk) t = false) tokens)).
Proof.
  revert tk. induction tokens as [|t tokens IH]; intros tk Hnd; simpl.
  - rewrite filter_nil. destruct (room tk); simpl; by rewrite ?take_nil.
  - apply NoDup_cons in Hnd as [Ht Hnd].
    destruct (limit_reached tk) eqn:Hlim.
    { apply limit_reached_room in Hlim as ->. done. }
    destruct (obj_in (vocab tk) t) eqn:Hin.
    { rewrite IH by done. by rewrite filter_cons_False by (by rewrite Hin). }
    rewrite obj_assign_new by done.
    pose proof Hin as [Hfresh%obj_has_false _]%obj_in_false.
    rewrite IH by done. rewrite (room_set_vocab tk t) by done. simpl.
    rewrite filter_cons_True by done.
    assert (filter (λ t0, obj_in (obj_set (vocab tk) t (vocabSize tk)) t0 = false)
              tokens = filter (λ t0, obj_in (vocab tk) t0 = false) tokens) as ->.
    { apply filter_ext_elem_of. intros t' Ht'. unfold obj_in.
      rewrite obj_has_set.
      rewrite bool_decide_eq_false_2; [done|]. by intros ->. }
    by destruct (room (set_vocab _ _)).
Qed.

(** ** Special tokens *)

Lemma set_each_index_NoDup tokens index v :
  NoDup (obj_keys v) → NoDup (obj_keys (set_each_index tokens index v)).
Proof.
  revert index v. induction tokens as [|x tokens IH]; intros index v ?; simpl;
    [done|].
  apply IH. destruct (obj_assign_cases v x index) as [->|[-> _]]; [|done].
  by apply obj_keys_NoDup_set.
Qed.


(** Starting from the empty object, the keys are the tokens, without
    [__proto__]. *)
Lemma set_each_index_keys tokens index v t :
  t ∈ obj_keys (set_each_index tokens index v) ↔
    t ∈ obj_keys v ∨ t ∈ tokens ∧ t ≠ js "__proto__".
Proof.
  revert index v. induction tokens as [|x tokens IH]; intros index v; simpl.
  - split; [by left | by intros [?|[?%elem_of_nil _]]].
  - rewrite IH, elem_of_cons. unfold obj_assign.
    destruct (obj_has v x) eqn:Hx; simpl.
    + rewrite obj_set_old by done. apply obj_has_true in Hx.
      intuition congruence.
    + case_bool_decide as Hp.
      * intuition congruence.
      * rewrite <- !obj_has_true, obj_has_set, orb_true_iff, bool_decide_eq_true.
        intuition congruence.
Qed.

(** Pairwise distinct tokens are numbered by their positions. *)
Lemma set_each_index_number tokens v :
  NoDup tokens → js "__proto__" ∉ tokens →
  (∀ t, t ∈ tokens → t ∉ obj_keys v) →
  set_each_index tokens (Z.of_nat (length (obj_keys v))) v = number_tokens v tokens.
Proof.
  revert v. induction tokens as [|x tokens IH]; intros v Hnd Hp Hfresh; simpl;
    [done|].
  apply NoDup_cons in Hnd as [Hx Hnd]. apply not_elem_of_cons in Hp as [Hpx Hp].
  assert (obj_has v x = false) as Hv.
  { apply obj_has_false, Hfresh. left. }
  rewrite obj_assign_set by done. rewrite <- IH; [|done..|].
  - rewrite obj_length_set, Hv. do 2 f_equal. lia.
  - intros t Ht. rewrite obj_keys_set_new by done.
    apply not_elem_of_cons. split; [by intros ->|]. apply Hfresh. by right.
Qed.

(** ** Sets of tokens *)

Lemma Set_add_elem_of s t x : x ∈ Set_add s t ↔ x ∈ s ∨ x = t.
Proof.
  unfold Set_add. case_bool_decide.
  - split; [by left|]. by intros [?| ->].
  - rewrite elem_of_app, list_elem_of_singleton. done.
Qed.

Lemma Set_add_NoDup s t : NoDup s → NoDup (Set_add s t).
Proof.
  unfold Set_add. case_bool_decide; [done|]. intros.
  apply NoDup_app. split_and!; [done| |apply NoDup_singleton].
  intros x ? ->%list_elem_of_singleton. done.
Qed.

Lemma fold_Set_add_elem_of tokens s x :
  x ∈ fold_left Set_add tokens s ↔ x ∈ s ∨ x ∈ tokens.
Proof.
  revert s. induction tokens as [|t tokens IH]; intros s; simpl.
  - split; [by left | by intros [?|?%elem_of_nil]].
  - rewrite IH, Set_add_elem_of, elem_of_cons. tauto.
Qed.

Lemma fold_Set_add_NoDup tokens s : NoDup s → NoDup (fold_left Set_add tokens s).
Proof.
  revert s. induction tokens as [|t tokens IH]; intros s ?; simpl; [done|].
  by apply IH, Set_add_NoDup.
Qed.

Lemma Set_from_elem_of tokens x : x ∈ Set_from tokens ↔ x ∈ tokens.
Proof.
  unfold Set_from. rewrite fold_Set_add_elem_of.
  split; [by intros [?%elem_of_nil|?] | by right].
Qed.

Lemma Set_from_NoDup tokens : NoDup (Set_from tokens).
Proof. apply fold_Set_add_NoDup, NoDup_nil_2. Qed.

(** ** The reverse vocabulary *)

Lemma reverse_fold_absent (entries : list (jsstring * Z)) (rev : gmap Z (list N)) id :
  id ∉ entries.*2 →
  fold_left (λ rev e, <[e.2 := e.1]> rev) entries rev !! id = rev !! id.
Proof.
  revert rev. induction entries as [|[t i] entries IH]; intros rev Hid; [done|].
  csimpl in *. apply not_elem_of_cons in Hid as [? ?].
  rewrite IH by done. by rewrite lookup_insert_ne.
Qed.

Lemma reverse_fold_sound (entries : list (jsstring * Z)) (rev : gmap Z (list N)) id t :
  fold_left (λ rev e, <[e.2 := e.1]> rev) entries rev !! id = Some t →
  (t, id) ∈ entries ∨ rev !! id = Some t.
Proof.
  revert rev. induction entries as [|[t' i] entries IH]; intros rev; simpl;
    [by right|].
  intros [?|Hrev]%IH; [left; by right|].
  destruct (decide (i = id)) as [->|].
  - rewrite lookup_insert_eq in Hrev. simplify_eq. left. left.
  - rewrite lookup_insert_ne in Hrev by done. by right.
Qed.

Lemma reverse_fold_complete (entries : list (jsstring * Z)) (rev : gmap Z (list N)) id t :
  NoDup entries.*2 → (t, id) ∈ entries →
  fold_left (λ rev e, <[e.2 := e.1]> rev) entries rev !! id = Some t.
Proof.
  revert rev. induction entries as [|[t' i] entries IH]; intros rev Hnd Hin.
  - by apply elem_of_nil in Hin.
  - csimpl in *. apply NoDup_cons in Hnd as [Hi Hnd].
    apply elem_of_cons in Hin as [[= -> ->]|Hin]; [|by apply IH].
    rewrite reverse_fold_absent by done. apply lookup_insert_eq.
Qed.

(** With pairwise distinct keys and pairwise distinct identifiers the
    reverse vocabulary is the inverse relation. *)
Lemma reverse_of_inverse v t id :
  NoDup (obj_keys v) → NoDup v.*2 →
  reverse_of v !! id = Some t ↔ obj_get v t = Some id.
Proof.
  intros Hk Hv. unfold reverse_of, obj_entries. split.
  - intros [?|?]%reverse_fold_sound; [by apply obj_elem_of_get | done].
  - intros ?%obj_get_elem_of. by apply reverse_fold_complete.
Qed.

(** ** Sorting and counting *)

Lemma sort_insert_perm {A} (cmp : A → A → Z) x l : sort_insert cmp x l ≡ₚ x :: l.
Proof.
  induction l as [|y l IH]; simpl; [done|].
  destruct (cmp x y <=? 0); [done|]. rewrite IH. apply Permutation_swap.
Qed.

Lemma Array_sort_perm {A} (cmp : A → A → Z) l : Array_sort cmp l ≡ₚ l.
Proof.
  induction l as [|x l IH]; simpl; [done|].
  by rewrite sort_insert_perm, IH.
Qed.

Lemma Map_set_keys {V} (m : list (jsstring * V)) k v :
  (Map_set m k v).*1 = Set_add m.*1 k.
Proof.
  unfold Map_set, Set_add. destruct (obj_has m k) eqn:Hk.
  - apply obj_has_true in Hk. rewrite bool_decide_eq_true_2 by done.
    apply obj_keys_overwrite.
  - apply obj_has_false in Hk. rewrite bool_decide_eq_false_2 by done.
    by rewrite fmap_app.
Qed.

Lemma Map_get_set {V} (m : list (jsstring * V)) k v k' :
  Map_get (Map_set m k v) k' =
    if bool_decide (k = k') then Some v else Map_get m k'.
Proof.
  unfold Map_get, Map_set. destruct (obj_has m k) eqn:Hk.
  - rewrite obj_get_overwrite. case_bool_decide; [|done].
    unfold obj_has in Hk. by destruct (obj_get m k).
  - apply obj_has_false in Hk. rewrite obj_get_snoc. case_bool_decide; subst.
    + by apply obj_get_None in Hk as ->.
    + by destruct (obj_get m k').
Qed.

(** ** The builders *)

Lemma take_room_within_limit {A} tk (l : list A) :
  take_room (room tk) l =
    within_limit (maxVocabSize tk) (length (obj_keys (vocab tk))) l.
Proof.
  unfold room, within_limit, vocabSize. destruct (maxVocabSize tk) as [k|]; [|done].
  by destruct (k =? 0).
Qed.

Lemma number_tokens_numbered tk l :
  NoDup l → vocab tk = number_tokens [] l → numbered_as tk l.
Proof.
  intros Hl Hv. assert (∀ t, t ∈ l → t ∉ obj_keys ([] : obj Z)) as Hfresh.
  { intros t _ ?%elem_of_nil. done. }
  unfold numbered_as, vocabSize. setoid_rewrite getTokenId_Number.
  rewrite Hv. split_and!; [done|..].
  - by rewrite number_tokens_length.
  - intros t id. split.
    + intros Hget. assert (t ∈ l) as [n Hn]%list_elem_of_lookup.
      { apply obj_get_elem_of, (list_elem_of_fmap_2 fst) in Hget.
        by rewrite (number_tokens_keys [] l) in Hget. }
      exists n. split; [|done].
      rewrite (number_tokens_get_new [] l n t) in Hget by done. by simplify_eq/=.
    + intros (n & -> & Hn). by rewrite (number_tokens_get_new [] l n t).
Qed.

Lemma initializeSpecialTokens_vocab tk :
  NoDup (specialTokens tk) → js "__proto__" ∉ specialTokens tk →
  vocab (initializeSpecialTokens tk) = number_tokens [] (specialTokens tk).
Proof.
  intros Hnd Hp. simpl. apply (set_each_index_number _ []); [done..|].
  intros t _ ?%elem_of_nil. done.
Qed.

Lemma initializeSpecialTokens_keys tk t :
  t ∈ obj_keys (vocab (initializeSpecialTokens tk)) ↔
    t ∈ specialTokens tk ∧ t ≠ js "__proto__".
Proof.
  simpl. rewrite set_each_index_keys.
  split; [by intros [?%elem_of_nil|?] | by right].
Qed.

(** The tokens that the vocabulary of the special tokens lets in. *)
Lemma initializeSpecialTokens_in tk t :
  obj_in (vocab (initializeSpecialTokens tk)) t = false ↔
    (t ∉ specialTokens tk) ∧ inherited t = false.
Proof.
  rewrite obj_in_false, initializeSpecialTokens_keys.
  split; [|intros [? ?]; split; [by intros [? _]|done]].
  intros [Hk Hi]. split; [|done]. intros Ht. apply Hk. split; [done|].
  by apply inherited_false_proto.
Qed.

(** What the assignment loop makes of a vocabulary that holds the special
    tokens only. *)
Lemma assign_ids_after_specials tk tokens :
  NoDup tokens →
  let tk0 := initializeSpecialTokens tk in
  vocab (assign_ids tokens tk0).1 =
    number_tokens (vocab tk0)
      (within_limit (maxVocabSize tk) (length (obj_keys (vocab tk0)))
         (candidates tk tokens)).
Proof.
  intros Hnd tk0. unfold tk0.
  rewrite assign_ids_vocab, take_room_within_limit by done.
  change (maxVocabSize (initializeSpecialTokens tk)) with (maxVocabSize tk).
  do 2 f_equal. apply filter_ext_elem_of. intros t _.
  apply initializeSpecialTokens_in.
Qed.

Lemma candidates_eq tk tk' tokens :
  specialTokens tk' = specialTokens tk →
  candidates tk' tokens = candidates tk tokens.
Proof. unfold candidates. by intros ->. Qed.

Lemma candidates_NoDup tk tokens : NoDup tokens → NoDup (candidates tk tokens).
Proof. apply NoDup_filter. Qed.

Lemma candidates_sublist tk tokens : candidates tk tokens `sublist_of` tokens.
Proof. apply sublist_filter. Qed.

Lemma candidates_not_special tk tokens t :
  t ∈ candidates tk tokens → t ∉ specialTokens tk.
Proof. by intros [[? _] _]%list_elem_of_filter. Qed.

(** Without inherited names among the tokens, the candidates are the
    tokens that are no special tokens. *)
Lemma candidates_plain tk tokens :
  Forall (λ t, inherited t = false) tokens →
  candidates tk tokens = filter (λ t, t ∉ specialTokens tk) tokens.
Proof.
  intros Hplain. apply filter_ext_elem_of. intros t Ht.
  rewrite Forall_forall in Hplain. specialize (Hplain t Ht). tauto.
Qed.

Lemma within_limit_prefix {A} m used (l : list A) : within_limit m used l `prefix_of` l.
Proof.
  unfold within_limit. destruct m as [k|]; [|done].
  destruct (k =? 0); [done|]. apply prefix_take.
Qed.


Lemma filter_not_special_fresh tk tokens t :
  t ∈ within_limit (maxVocabSize tk)
        (length (obj_keys (vocab (initializeSpecialTokens tk))))
        (candidates tk tokens) →
  t ∉ obj_keys (vocab (initializeSpecialTokens tk)).
Proof.
  intros Ht. rewrite initializeSpecialTokens_keys.
  eapply elem_of_prefix in Ht; [|apply within_limit_prefix].
  apply candidates_not_special in Ht. by intros [? _].
Qed.

Lemma within_limit_NoDup {A} m used (l : list A) :
  NoDup l → NoDup (within_limit m used l).
Proof.
  intros Hl. destruct (within_limit_prefix m used l) as [l' Hl'].
  rewrite Hl' in Hl. by apply NoDup_app in Hl as [? _].
Qed.

Lemma count_tokens_keys tokens counts :
  (count_tokens tokens counts).*1 = fold_left Set_add tokens counts.*1.
Proof.
  revert counts. induction tokens as [|t tokens IH]; intros counts; simpl;
    [done|].
  unfold count_tokens in *. simpl. by rewrite IH, Map_set_keys.
Qed.

Lemma numbered_inverse tk l :
  numbered_as tk l → NoDup (obj_keys (vocab tk)) →
  reverseVocab tk = reverse_of (vocab tk) → inverse_vocabularies tk.
Proof.
  intros (Hl & _ & Hnum) Hkeys Hrev t id. unfold getToken.
  rewrite Hrev, getTokenId_Number.
  symmetry. apply reverse_of_inverse; [done|].
  apply NoDup_fmap_2_strong; [|by eapply NoDup_fmap_1].
  intros [t1 i1] [t2 i2] H1 H2 ?; simplify_eq/=.
  apply obj_elem_of_get, getTokenId_Number, Hnum in H1 as (n1 & Hn1 & Hl1);
    [|done].
  apply obj_elem_of_get, getTokenId_Number, Hnum in H2 as (n2 & -> & Hl2);
    [|done].
  apply Nat2Z.inj in Hn1 as ->. congruence.
Qed.

Lemma number_tokens_NoDup v l :
  NoDup (obj_keys v) → NoDup (obj_keys (number_tokens v l)).
Proof.
  revert v. induction l as [|t l IH]; intros v ?; simpl; [done|].
  by apply IH, obj_keys_NoDup_set.
Qed.

Section BuildFacts.
Variable toLowerCase : jsstring → jsstring.

Lemma buildVocabFromInputText_state tk text :
  (buildVocabFromInputText toLowerCase tk text).1 =
    buildReverseVocabFromVocab
      (assign_ids (Set_from (splitTextTokens toLowerCase tk text))
         (initializeSpecialTokens tk)).1.
Proof.
  unfold buildVocabFromInputText.
  change (splitTextTokens toLowerCase (initializeSpecialTokens tk) text)
    with (splitTextTokens toLowerCase tk text).
  by destruct (assign_ids _ _).
Qed.

Lemma count_texts_keys_NoDup tk texts (counts : list (jsstring * Z)) :
  NoDup counts.*1 →
  NoDup (fold_left
           (λ counts text, count_tokens (splitTextTokens toLowerCase tk text) counts)
           texts counts).*1.
Proof.
  revert counts. induction texts as [|text texts IH]; intros counts Hc; simpl;
    [done|].
  apply IH. rewrite count_tokens_keys. by apply fold_Set_add_NoDup.
Qed.

Lemma corpus_counts_keys_NoDup tk texts :
  NoDup (corpus_counts toLowerCase tk texts).*1.
Proof. apply count_texts_keys_NoDup, NoDup_nil_2. Qed.

Lemma by_frequency_NoDup tk texts :
  NoDup (by_frequency (corpus_counts toLowerCase tk texts)).
Proof.
  unfold by_frequency. rewrite Array_sort_perm. apply corpus_counts_keys_NoDup.
Qed.

Lemma buildVocabFromInputText_fields tk text :
  let tk' := (buildVocabFromInputText toLowerCase tk text).1 in
  specialTokens tk' = specialTokens tk ∧ caseSensitive tk' = caseSensitive tk ∧
  maxVocabSize tk' = maxVocabSize tk ∧ reverseVocab tk' = reverse_of (vocab tk').
Proof.
  intros tk'. unfold tk'. rewrite buildVocabFromInputText_state.
  destruct (assign_ids_fields (Set_from (splitTextTokens toLowerCase tk text))
              (initializeSpecialTokens tk)) as (_ & Hs & Hc & Hm).
  simpl in *. by rewrite Hs, Hc, Hm.
Qed.

Lemma buildVocabFromCorpus_fields tk texts :
  let tk' := buildVocabFromCorpus toLowerCase tk texts in
  specialTokens tk' = specialTokens tk ∧ caseSensitive tk' = caseSensitive tk ∧
  maxVocabSize tk' = maxVocabSize tk ∧ reverseVocab tk' = reverse_of (vocab tk').
Proof.
  intros tk'. unfold tk', buildVocabFromCorpus.
  destruct (assign_ids_fields
              (by_frequency (corpus_counts toLowerCase (initializeSpecialTokens tk) texts))
              (initializeSpecialTokens tk)) as (_ & Hs & Hc & Hm).
  simpl in *. by rewrite Hs, Hc, Hm.
Qed.

(** The vocabulary that holds the special tokens only depends on their
    list alone. *)
Lemma initial_vocab_eq tk tk' :
  specialTokens tk' = specialTokens tk →
  vocab (initializeSpecialTokens tk') = vocab (initializeSpecialTokens tk).
Proof. simpl. by intros ->. Qed.

(** Every state after a build is the special tokens followed by a prefix
    of some pairwise distinct tokens, numbered in that order, with the
    reverse vocabulary rebuilt from it. *)
Lemma after_build_inv tk :
  after_build toLowerCase tk →
  ∃ tokens,
    NoDup tokens ∧
    vocab tk =
      number_tokens (vocab (initializeSpecialTokens tk))
        (within_limit (maxVocabSize tk)
           (length (obj_keys (vocab (initializeSpecialTokens tk))))
           (candidates tk tokens)) ∧
    reverseVocab tk = reverse_of (vocab tk).
Proof.
  destruct 1 as [options|tk text|tk texts].
  - exists []. split_and!; [apply NoDup_nil_2| |done].
    unfold candidates. rewrite filter_nil. unfold within_limit.
    by repeat case_match; rewrite ?take_nil.
  - destruct (buildVocabFromInputText_fields tk text) as (Hs & _ & Hm & Hr).
    exists (Set_from (splitTextTokens toLowerCase tk text)).
    split_and!; [apply Set_from_NoDup| |done].
    rewrite (initial_vocab_eq tk), (candidates_eq tk), Hm by done.
    rewrite buildVocabFromInputText_state.
    apply (assign_ids_after_specials tk), Set_from_NoDup.
  - destruct (buildVocabFromCorpus_fields tk texts) as (Hs & _ & Hm & Hr).
    exists (by_frequency (corpus_counts toLowerCase (initializeSpecialTokens tk) texts)).
    split_and!; [apply by_frequency_NoDup| |done].
    rewrite (initial_vocab_eq tk), (candidates_eq tk), Hm by done.
    apply (assign_ids_after_specials tk), by_frequency_NoDup.
Qed.
End BuildFacts.

Lemma initial_vocab_length tk :
  NoDup (specialTokens tk) → js "__proto__" ∉ specialTokens tk →
  length (obj_keys (vocab (initializeSpecialTokens tk))) = length (specialTokens tk).
Proof.
  intros Hnd Hp. rewrite initializeSpecialTokens_vocab by done.
  rewrite number_tokens_length; [done..|]. intros t _ ?%elem_of_nil. done.
Qed.

Lemma numbered_after_specials tk tk' tokens :
  NoDup (specialTokens tk) → js "__proto__" ∉ specialTokens tk →
  NoDup tokens →
  vocab tk' =
    number_tokens (vocab (initializeSpecialTokens tk))
      (within_limit (maxVocabSize tk)
         (length (obj_keys (vocab (initializeSpecialTokens tk))))
         (candidates tk tokens)) →
  numbered_as tk'
    (specialTokens tk ++
     within_limit (maxVocabSize tk) (length (specialTokens tk))
       (candidates tk tokens)).
Proof.
  intros Hs Hp Ht Hv. rewrite initial_vocab_length in Hv by done.
  rewrite initializeSpecialTokens_vocab, <- number_tokens_app in Hv by done.
  apply number_tokens_numbered; [|done].
  apply NoDup_app. split_and!; [done| |].
  - intros t Hin Hw. eapply elem_of_prefix in Hw; [|apply within_limit_prefix].
    by apply candidates_not_special in Hw.
  - by apply within_limit_NoDup, candidates_NoDup.
Qed.

Section Claims.
Variable toLowerCase : jsstring → jsstring.

(** With pairwise distinct special tokens, a state after a build is a list
    numbered from zero that starts with the special tokens. *)
Lemma after_build_numbered tk :
  after_build toLowerCase tk →
  NoDup (specialTokens tk) → js "__proto__" ∉ specialTokens tk →
  ∃ added,
    numbered_as tk (specialTokens tk ++ added) ∧
    NoDup (obj_keys (vocab tk)) ∧
    reverseVocab tk = reverse_of (vocab tk).
Proof.
  intros (tokens & Ht & Hv & Hr)%after_build_inv Hs Hp.
  eexists. split_and!; [by apply (numbered_after_specials tk tk tokens)| |done].
  rewrite Hv. apply number_tokens_NoDup. simpl.
  apply set_each_index_NoDup, NoDup_nil_2.
Qed.

(** C1 (amended): when the special tokens are pairwise distinct and the
    vocabulary object inherits none of the names involved, the vocabulary
    after [buildVocabFromInputText] is the list of the special tokens
    followed by the unique tokens of the text that are no special tokens,
    in first-seen order and cut where the maximum size stops the loop,
    numbered from zero in that order. *)
Theorem buildVocabFromInputText_numbered tk text :
  NoDup (specialTokens tk) → js "__proto__" ∉ specialTokens tk →
  Forall (λ t, inherited t = false) (splitTextTokens toLowerCase tk text) →
  numbered_as (buildVocabFromInputText toLowerCase tk text).1
    (specialTokens tk ++
     within_limit (maxVocabSize tk) (length (specialTokens tk))
       (filter (λ t, t ∉ specialTokens tk)
          (Set_from (splitTextTokens toLowerCase tk text)))).
Proof.
  intros Hs Hp Hplain. rewrite <- candidates_plain.
  - apply numbered_after_specials; [done|done|apply Set_from_NoDup|].
    rewrite buildVocabFromInputText_state.
    apply (assign_ids_after_specials tk), Set_from_NoDup.
  - rewrite Forall_forall in Hplain. apply Forall_forall. intros t Ht.
    by apply Hplain, Set_from_elem_of.
Qed.

(** C5 (amended): when the special tokens are pairwise distinct and none
    of them is [__proto__], after the constructor and after every build
    the reverse vocabulary is the exact inverse of the vocabulary. *)
Theorem reverse_vocabulary_inverse tk :
  after_build toLowerCase tk →
  NoDup (specialTokens tk) → js "__proto__" ∉ specialTokens tk →
  inverse_vocabularies tk.
Proof.
  intros Hb Hs Hp.
  destruct (after_build_numbered tk Hb Hs Hp) as (added & ? & ? & ?).
  by eapply numbered_inverse.
Qed.


(** C10 (amended): when the special tokens are pairwise distinct and none
    of them is [__proto__], after the constructor and after every build
    each special token has its position as identifier, whatever the
    maximum size; a maximum below the number of special tokens is
    exceeded, and a maximum in force that the special tokens reach lets
    no other token in. *)
Theorem special_tokens_in_place tk :
  after_build toLowerCase tk →
  NoDup (specialTokens tk) → js "__proto__" ∉ specialTokens tk →
  specials_in_place tk ∧
  (∀ k, maxVocabSize tk = Some k →
        k < Z.of_nat (length (specialTokens tk)) → k < vocabSize tk) ∧
  (∀ k, maxVocabSize tk = Some k → k ≠ 0 →
        k ≤ Z.of_nat (length (specialTokens tk)) →
        vocabSize tk = Z.of_nat (length (specialTokens tk))).
Proof.
  intros Hb Hs Hp.
  destruct (after_build_numbered tk Hb Hs Hp)
    as (added & (_ & Hsize & Hnum) & _).
  split_and!.
  - intros i t Hi. apply Hnum. exists i. split; [done|].
    by apply lookup_app_l_Some.
  - intros k _ Hk. rewrite Hsize, length_app. lia.
  - intros k Hm Hk Hle.
    apply after_build_inv in Hb as (tokens & _ & Hv & _).
    unfold vocabSize. rewrite Hv, Hm, initial_vocab_length by done.
    unfold within_limit. rewrite (proj2 (Z.eqb_neq k 0)) by done.
    replace (Z.to_nat _) with 0%nat by lia. rewrite take_0.
    change (number_tokens ?v []) with v. by rewrite initial_vocab_length.
Qed.
End Claims.

(** ** Encoding *)

Lemma encode_tokens_known v tokens unkId :
  vocab_read v (js "<UNK>") = Some unkId →
  encode_tokens v tokens =
    Returns ((λ token, default unkId (vocab_read v token)) <$> tokens).
Proof.
  intros Hunk. induction tokens as [|token tokens IH]; simpl; [done|].
  rewrite IH, Hunk. by destruct (vocab_read v token).
Qed.

Lemma encode_tokens_covered v tokens :
  Forall (λ token, is_Some (obj_get v token)) tokens →
  encode_tokens v tokens = Returns (Number <$> omap (obj_get v) tokens).
Proof.
  induction 1 as [|token tokens [id Hid] _ IH]; simpl; [done|].
  unfold vocab_read. by rewrite IH, Hid.
Qed.

(** The tokens fail to encode exactly when the unknown token is needed and
    missing. *)
Lemma encode_tokens_throws v tokens :
  match encode_tokens v tokens with
  | Throws m =>
      m = "UNK token not found in vocabulary"%string ∧
      vocab_read v (js "<UNK>") = None ∧
      Exists (λ token, vocab_read v token = None) tokens
  | Returns _ =>
      is_Some (vocab_read v (js "<UNK>")) ∨
      Forall (λ token, is_Some (vocab_read v token)) tokens
  end.
Proof.
  induction tokens as [|token tokens IH]; simpl.
  - right. constructor.
  - destruct (vocab_read v token) as [id|] eqn:Hid.
    + destruct (encode_tokens v tokens).
      * destruct IH as [?|?]; [by left|]. right. constructor; [by eexists|done].
      * destruct IH as (? & ? & ?). split_and!; [done..|]. by apply Exists_cons_tl.
    + destruct (vocab_read v (js "<UNK>")) eqn:Hunk.
      * destruct (encode_tokens v tokens); [left; by eexists|].
        by destruct IH as (? & ? & ?).
      * split_and!; [done..|]. by apply Exists_cons_hd.
Qed.

Section Encoding.
Variable toLowerCase : jsstring → jsstring.

(** With [<UNK>], [<CLS>] and [<SEP>] in the vocabulary, [encode] returns
    what reading [<CLS>] yields, then for every token of the text what
    reading the token yields, or else what reading [<UNK>] yields, then
    what reading [<SEP>] yields. *)
Lemma encode_values tk text unkId clsId sepId :
  getTokenId tk (js "<UNK>") = Some unkId →
  getTokenId tk (js "<CLS>") = Some clsId →
  getTokenId tk (js "<SEP>") = Some sepId →
  encode toLowerCase tk text =
    Returns (clsId :: ((λ token, default unkId (getTokenId tk token)) <$>
                         splitTextTokens toLowerCase tk text) ++ [sepId]).
Proof.
  unfold getTokenId, encode. intros Hunk Hcls Hsep.
  by rewrite (encode_tokens_known _ _ unkId), Hcls, Hsep.
Qed.

(** X1: [encode] on a text without tokens that the vocabulary object only
    inherits: with the tokens [<UNK>], [<CLS>] and [<SEP>] in the
    vocabulary, it returns the identifier of [<CLS>], then one identifier
    for every token of the text (its own when it has one, that of [<UNK>]
    otherwise), then the identifier of [<SEP>]: two more than the text has
    tokens. *)
Theorem encode_wraps_token_ids tk text unkId clsId sepId :
  getTokenId tk (js "<UNK>") = Some (Number unkId) →
  getTokenId tk (js "<CLS>") = Some (Number clsId) →
  getTokenId tk (js "<SEP>") = Some (Number sepId) →
  let tokens := splitTextTokens toLowerCase tk text in
  Forall (λ t, inherited t = false) tokens →
  ∃ ids,
    encode toLowerCase tk text = Returns (Number <$> ids) ∧
    ids = clsId :: ((λ token, default unkId (obj_get (vocab tk) token)) <$> tokens)
                ++ [sepId] ∧
    head ids = Some clsId ∧ last ids = Some sepId ∧
    length ids = (2 + length tokens)%nat.
Proof.
  intros Hunk Hcls Hsep tokens Hplain.
  exists (clsId :: ((λ token, default unkId (obj_get (vocab tk) token)) <$> tokens)
                ++ [sepId]).
  split_and!; [|done|done|..].
  - rewrite (encode_values tk text _ _ _ Hunk Hcls Hsep). fold tokens.
    csimpl. rewrite fmap_app. csimpl. do 3 f_equal.
    rewrite <- list_fmap_compose. apply Forall_fmap_ext_1.
    eapply Forall_impl; [exact Hplain|]. intros t Ht.
    unfold getTokenId, vocab_read. simpl.
    destruct (obj_get (vocab tk) t); [done|]. by rewrite Ht.
  - by rewrite last_cons, last_snoc.
  - simpl. rewrite length_app, length_fmap. simpl. lia.
Qed.

(** C4 (amended): [encode] throws exactly in two cases, each with an error
    of its own: reading a token of the text from the vocabulary yields
    [undefined] and reading [<UNK>] does so as well; or else reading
    [<CLS>] or [<SEP>] yields [undefined].  In every other case it
    returns. *)
Theorem encode_failures tk text :
  let tokens := splitTextTokens toLowerCase tk text in
  let unknown_missing :=
    getTokenId tk (js "<UNK>") = None ∧
    Exists (λ token, getTokenId tk token = None) tokens in
  let boundary_missing :=
    getTokenId tk (js "<CLS>") = None ∨ getTokenId tk (js "<SEP>") = None in
  match encode toLowerCase tk text with
  | Throws m =>
      (m = "UNK token not found in vocabulary"%string ∧ unknown_missing) ∨
      (m = "Required special tokens (CLS, SEP) not found in vocabulary"%string ∧
       ¬ unknown_missing ∧ boundary_missing)
  | Returns _ => ¬ unknown_missing ∧ ¬ boundary_missing
  end.
Proof.
  intros tokens. unfold encode, getTokenId. fold tokens.
  pose proof (encode_tokens_throws (vocab tk) tokens) as Htokens.
  destruct (encode_tokens (vocab tk) tokens) as [ids|m].
  - assert (¬ (vocab_read (vocab tk) (js "<UNK>") = None ∧
               Exists (λ token, vocab_read (vocab tk) token = None) tokens))
      as Hno.
    { intros [Hunk Hex]. destruct Htokens as [[? ?]|Hall]; [congruence|].
      apply Exists_exists in Hex as (token & Hin & Hnone).
      rewrite Forall_forall in Hall. destruct (Hall token Hin). congruence. }
    destruct (vocab_read (vocab tk) (js "<CLS>")) eqn:Hcls,
      (vocab_read (vocab tk) (js "<SEP>")) eqn:Hsep; simpl.
    + split; [done|]. intros [?|?]; done.
    + right. split_and!; [done..|by right].
    + right. split_and!; [done..|by left].
    + right. split_and!; [done..|by left].
  - destruct Htokens as (-> & ? & ?). by left.
Qed.
End Encoding.

(** ** Decoding *)

Lemma trimStart_unchanged s :
  (∀ c, head s = Some c → is_whitespace c = false) → trimStart s = s.
Proof. destruct s as [|c s]; simpl; [done|]. intros H. by rewrite H. Qed.

Lemma trimEnd_unchanged s :
  (∀ c, last s = Some c → is_whitespace c = false) → trimEnd s = s.
Proof.
  intros H. unfold trimEnd. rewrite trimStart_unchanged.
  - apply reverse_involutive.
  - intros c. rewrite head_reverse. apply H.
Qed.

Lemma trim_unchanged s :
  (∀ c, head s = Some c → is_whitespace c = false) →
  (∀ c, last s = Some c → is_whitespace c = false) → trim s = s.
Proof.
  intros Hh Hl. unfold trim. rewrite trimStart_unchanged by done.
  by apply trimEnd_unchanged.
Qed.

Lemma is_word_spec w :
  is_word w = true ↔
    w ≠ [] ∧ Forall (λ c, is_whitespace c = false) w ∧
    is_punctuation (Some w) = false.
Proof.
  unfold is_word. rewrite !andb_true_iff, !negb_true_iff, bool_decide_eq_false.
  rewrite forallb_forall, Forall_forall.
  setoid_rewrite negb_true_iff. setoid_rewrite <- list_elem_of_In. tauto.
Qed.

Lemma join_space_cons w ws :
  ws ≠ [] → join_space (w :: ws) = w ++ SPACE :: join_space ws.
Proof. by destruct ws. Qed.

Lemma join_space_words_nonempty w ws :
  Forall (λ w, is_word w = true) (w :: ws) → join_space (w :: ws) ≠ [].
Proof.
  intros [Hw _]%Forall_cons. apply is_word_spec in Hw as (Hw & _).
  destruct ws; simpl; [done|]. by destruct w.
Qed.

Lemma join_space_words_head ws c :
  Forall (λ w, is_word w = true) ws →
  head (join_space ws) = Some c → is_whitespace c = false.
Proof.
  destruct ws as [|w ws]; [done|].
  intros [Hw _]%Forall_cons. apply is_word_spec in Hw as (Hne & Hws & _).
  destruct w as [|c' w]; [done|]. apply Forall_cons in Hws as [Hc _].
  destruct ws; simpl; by intros [= <-].
Qed.

Lemma join_space_words_last ws c :
  Forall (λ w, is_word w = true) ws →
  last (join_space ws) = Some c → is_whitespace c = false.
Proof.
  induction ws as [|w ws IH]; [done|].
  intros Hall. pose proof Hall as [Hw Hws]%Forall_cons.
  destruct ws as [|w' ws].
  - simpl. intros Hl%last_Some_elem_of.
    apply is_word_spec in Hw as (_ & Hw & _).
    rewrite Forall_forall in Hw. by apply Hw.
  - rewrite join_space_cons by done.
    rewrite last_app, last_cons.
    pose proof (join_space_words_nonempty w' ws Hws) as Hne.
    apply last_is_Some in Hne as [c' Hc']. rewrite Hc'. simpl.
    intros [= <-]. by apply IH.
Qed.

(** Words are joined by single spaces. *)
Lemma merge_tokens_words ws result :
  Forall (λ w, is_word w = true) ws →
  merge_tokens (Some <$> ws) result = result ++ join_space ws.
Proof.
  revert result. induction ws as [|w ws IH]; intros result Hall; simpl.
  - by rewrite app_nil_r.
  - apply Forall_cons in Hall as [Hw Hws].
    apply is_word_spec in Hw as (_ & _ & ->).
    destruct ws as [|w' ws]; [done|].
    rewrite IH by done. csimpl. by rewrite <- !app_assoc.
Qed.

Lemma merge_tokens_to_String (tokens : list (option (list N))) result :
  merge_tokens tokens result =
    merge_tokens ((λ token, Some (to_String token)) <$> tokens) result.
Proof.
  revert result. induction tokens as [|token tokens IH]; intros result; [done|].
  csimpl. rewrite IH. by destruct tokens.
Qed.

Lemma filtered_contributions tk (ids : list Z) :
  (λ token, Some (to_String token)) <$>
    filter (λ token, includes (specialTokens tk) token = false)
      ((λ tokenId, reverseVocab tk !! tokenId) <$> ids)
  = Some <$> omap (contribution tk) ids.
Proof.
  induction ids as [|id ids IH]; [done|].
  csimpl. rewrite filter_cons. unfold contribution at 1.
  destruct (reverseVocab tk !! id) as [token|]; unfold includes.
  - destruct (bool_decide (token ∈ specialTokens tk)).
    + rewrite decide_False by done. exact IH.
    + rewrite decide_True by done. csimpl. f_equal. exact IH.
  - rewrite decide_True by done. csimpl. f_equal. exact IH.
Qed.

Lemma decode_merge tk (ids : list Z) :
  decode tk ids = trim (merge_tokens (Some <$> omap (contribution tk) ids) []).
Proof. unfold decode. by rewrite merge_tokens_to_String, filtered_contributions. Qed.

Lemma decode_words tk (ids : list Z) :
  Forall (λ w, is_word w = true) (omap (contribution tk) ids) →
  decode tk ids = join_space (omap (contribution tk) ids).
Proof.
  intros Hwords. rewrite decode_merge, merge_tokens_words by done.
  simpl. apply trim_unchanged; intros c.
  - by apply join_space_words_head.
  - by apply join_space_words_last.
Qed.

(** C8: [decode] is total; what it assembles is made of the contributions
    of the identifiers, where an identifier whose token is a special token
    contributes nothing and an identifier without an entry in the reverse
    vocabulary contributes the word [undefined].  When all contributions
    are words, the result is these words joined by single spaces. *)
Theorem decode_contributions tk (ids : list Z) :
  decode tk ids = trim (merge_tokens (Some <$> omap (contribution tk) ids) []) ∧
  (Forall (λ w, is_word w = true) (omap (contribution tk) ids) →
   decode tk ids = join_space (omap (contribution tk) ids)).
Proof. split; [apply decode_merge | apply decode_words]. Qed.

(** ** Objects in enumeration order *)

Section ObjOrder.
Context {V : Type}.
Implicit Types (o : obj V) (k : jsstring) (v : V).

Lemma obj_add_index_sorted o i k v :
  array_index k = Some i →
  StronglySorted key_le (obj_keys o) →
  StronglySorted key_le (obj_keys (obj_add_index o i k v)).
Proof.
  intros Hk. unfold obj_keys.
  induction o as [|[k0 v0] o IH]; csimpl; intros Ho.
  { repeat constructor. }
  apply StronglySorted_cons in Ho as [Hk0 Ho].
  destruct (array_index k0) as [j|] eqn:Hj; [destruct (N.ltb_spec i j)|]; csimpl.
  - apply StronglySorted_cons. split; [|by apply StronglySorted_cons].
    apply Forall_cons. split.
    + unfold key_le. rewrite Hj, Hk. lia.
    + eapply Forall_impl; [done|]. intros b. unfold key_le. rewrite Hj, Hk.
      destruct (array_index b); [lia|done].
  - apply StronglySorted_cons. split; [|by apply IH].
    change (Forall (key_le k0) (obj_keys (obj_add_index o i k v))).
    unfold obj_keys. rewrite obj_add_index_perm. csimpl.
    apply Forall_cons. split; [|done].
    unfold key_le. by rewrite Hj, Hk.
  - apply StronglySorted_cons. split; [|by apply StronglySorted_cons].
    apply Forall_cons. split.
    + unfold key_le. by rewrite Hj.
    + eapply Forall_impl; [done|]. intros b. unfold key_le. rewrite Hj.
      by destruct (array_index b).
Qed.

Lemma obj_set_wf o k v : obj_wf o → obj_wf (obj_set o k v).
Proof.
  intros [Hs Hn]. split; [|by apply obj_keys_NoDup_set].
  unfold obj_set. destruct (obj_has o k).
  { by rewrite obj_keys_overwrite. }
  destruct (array_index k) as [i|] eqn:Hk.
  - by apply obj_add_index_sorted.
  - unfold obj_keys. rewrite fmap_app. apply StronglySorted_app_2; [|done|].
    + intros a b _ ->%list_elem_of_singleton. unfold key_le. simpl.
      by rewrite Hk.
    + repeat constructor.
Qed.

Lemma obj_assign_wf o k v : obj_wf o → obj_wf (obj_assign o k v).
Proof.
  intros Ho. destruct (obj_assign_cases o k v) as [->|[-> _]]; [|done].
  by apply obj_set_wf.
Qed.

Lemma obj_add_index_last o i k v :
  array_index k = Some i → Forall (λ a, key_le a k) (obj_keys o) →
  obj_add_index o i k v = o ++ [(k, v)].
Proof.
  intros Hk. unfold obj_keys.
  induction o as [|[k0 v0] o IH]; csimpl; intros Ho; [done|].
  apply Forall_cons in Ho as [Hk0 Ho]. unfold key_le in Hk0. rewrite Hk in Hk0.
  destruct (array_index k0) as [j|]; [|done].
  destruct (N.ltb_spec i j); [lia|]. by rewrite IH.
Qed.

Lemma obj_set_last o k v :
  obj_wf (o ++ [(k, v)]) → obj_set o k v = o ++ [(k, v)].
Proof.
  unfold obj_wf, obj_keys. rewrite fmap_app. csimpl. intros [Hs Hn].
  apply NoDup_app in Hn as (_ & Hfresh & _).
  assert (obj_has o k = false) as Hk.
  { apply obj_has_false. intros Hin. apply (Hfresh k Hin). left. }
  unfold obj_set. rewrite Hk.
  destruct (array_index k) as [i|] eqn:Hi; [|done].
  apply obj_add_index_last; [done|]. apply Forall_forall. intros a Ha.
  eapply StronglySorted_app_1_elem_of; [done..|left].
Qed.

Lemma obj_wf_app_l o1 o2 : obj_wf (o1 ++ o2) → obj_wf o1.
Proof.
  unfold obj_wf, obj_keys. rewrite fmap_app. intros [Hs Hn]. split.
  - by apply StronglySorted_app_1_l in Hs.
  - by apply NoDup_app in Hn as (? & _).
Qed.

Lemma obj_wf_nil : obj_wf ([] : obj V).
Proof. split; constructor. Qed.

Lemma obj_fold_set_wf {B} (f : B → jsstring) (g : obj V → B → V) (l : list B) o :
  obj_wf o → obj_wf (fold_left (λ acc b, obj_set acc (f b) (g acc b)) l o).
Proof.
  revert o. induction l as [|b l IH]; intros o Ho; simpl; [done|].
  by apply IH, obj_set_wf.
Qed.

(** Spreading an object yields an equal object. *)
Lemma obj_spread_wf o : obj_wf o → obj_spread o = o.
Proof.
  unfold obj_spread, obj_entries.
  induction o as [|[k v] o IH] using rev_ind; intros Ho; [done|].
  rewrite fold_left_app. simpl. rewrite IH by by eapply obj_wf_app_l.
  by apply obj_set_last.
Qed.

Lemma obj_spread_is_wf o : obj_wf (obj_spread o).
Proof.
  unfold obj_spread.
  apply (obj_fold_set_wf fst (λ _ e, e.2) (obj_entries o) []), obj_wf_nil.
Qed.
End ObjOrder.

Lemma set_each_index_wf tokens index v :
  obj_wf v → obj_wf (set_each_index tokens index v).
Proof.
  revert index v. induction tokens as [|t tokens IH]; intros index v ?; simpl;
    [done|].
  by apply IH, obj_assign_wf.
Qed.

Lemma number_tokens_wf v l : obj_wf v → obj_wf (number_tokens v l).
Proof.
  apply (obj_fold_set_wf id (λ acc _, Z.of_nat (length (obj_keys acc)))).
Qed.

Section Serialization.
Variable toLowerCase : jsstring → jsstring.

Lemma reachable_inv tk :
  reachable toLowerCase tk →
  obj_wf (vocab tk) ∧ reverseVocab tk = reverse_of (vocab tk).
Proof.
  intros [tk' (tokens & _ & -> & Hr)%after_build_inv|data].
  - split; [|done]. apply number_tokens_wf. simpl.
    apply set_each_index_wf, obj_wf_nil.
  - split; [|done]. simpl. apply obj_spread_is_wf.
Qed.

(** C9: for every state [tk] of a tokenizer, [fromJSON (toJSON tk)] has the
    vocabulary, the reverse vocabulary, the special tokens and the case
    sensitivity of [tk], and no maximum vocabulary size. *)
Theorem fromJSON_toJSON tk :
  reachable toLowerCase tk →
  let tk' := fromJSON (toJSON tk) in
  vocab tk' = vocab tk ∧ reverseVocab tk' = reverseVocab tk ∧
  specialTokens tk' = specialTokens tk ∧ caseSensitive tk' = caseSensitive tk ∧
  maxVocabSize tk' = None.
Proof.
  intros [Hwf Hrev]%reachable_inv. simpl.
  rewrite obj_spread_wf by done. by rewrite Hrev.
Qed.
End Serialization.

(** ** Ranking by frequency *)

Lemma StronglySorted_impl_elem_of {A} (R R' : relation A) l :
  (∀ x y, x ∈ l → y ∈ l → R x y → R' x y) →
  StronglySorted R l → StronglySorted R' l.
Proof.
  induction l as [|x l IH]; intros Himpl; [constructor|].
  intros [Hx Hl]%StronglySorted_cons. apply StronglySorted_cons. split.
  - rewrite Forall_forall in Hx. apply Forall_forall. intros y Hy.
    apply Himpl; [left|by right|by apply Hx].
  - apply IH; [|done]. intros y z ? ?. apply Himpl; by right.
Qed.

Lemma StronglySorted_sublist {A} (R : relation A) l1 l2 :
  l1 `sublist_of` l2 → StronglySorted R l2 → StronglySorted R l1.
Proof.
  induction 1 as [|x l1 l2 Hsub IH|x l1 l2 Hsub IH]; [done|..];
    intros [Hx Hl]%StronglySorted_cons.
  - apply StronglySorted_cons. split; [|by apply IH].
    rewrite Forall_forall in Hx. apply Forall_forall. intros y Hy.
    by apply Hx, (sublist_subseteq _ _ Hsub).
  - by apply IH.
Qed.

Lemma StronglySorted_lookup {A} (R : relation A) l i j x y :
  StronglySorted R l → l !! i = Some x → l !! j = Some y → (i < j)%nat →
  R x y.
Proof.
  revert i j. induction l as [|z l IH]; intros i j Hl Hi Hj Hij; [done|].
  apply StronglySorted_cons in Hl as [Hz Hl].
  destruct j as [|j]; [lia|]. destruct i as [|i]; simplify_eq/=.
  - rewrite Forall_forall in Hz. by eapply Hz, list_elem_of_lookup_2.
  - apply (IH i j); [done..|lia].
Qed.

(** The stable sort by descending frequency: an entry stands before those
    with a smaller frequency and before those with the same frequency that
    came after it in the input. *)
Section StableSort.
Context (Q : relation (jsstring * Z)).

Let cmp : jsstring * Z → jsstring * Z → Z := λ a b, b.2 - a.2.
Let R : relation (jsstring * Z) := λ x y, y.2 < x.2 ∨ x.2 = y.2 ∧ Q x y.

Lemma sort_insert_stable a s :
  StronglySorted R s → Forall (Q a) s → StronglySorted R (sort_insert cmp a s).
Proof.
  induction s as [|y s IH]; simpl; intros Hs Ha.
  { repeat constructor. }
  apply StronglySorted_cons in Hs as [Hy Hs].
  apply Forall_cons in Ha as [Hay Ha].
  unfold cmp at 1. destruct (Z.leb_spec (y.2 - a.2) 0).
  - apply StronglySorted_cons. split; [|by apply StronglySorted_cons].
    apply Forall_cons. split.
    + unfold R. destruct (decide (a.2 = y.2)); [by right|left; lia].
    + rewrite Forall_forall in Hy, Ha. apply Forall_forall. intros z Hz.
      specialize (Hy z Hz). specialize (Ha z Hz). unfold R in *.
      destruct (decide (a.2 = z.2)); [by right|left; lia].
  - apply StronglySorted_cons. split; [|by apply IH].
    rewrite sort_insert_perm. apply Forall_cons. split; [|done].
    unfold R. left. lia.
Qed.

Lemma Array_sort_stable l :
  StronglySorted Q l → StronglySorted R (Array_sort cmp l).
Proof.
  induction l as [|a l IH]; simpl; [constructor|].
  intros [Ha Hl]%StronglySorted_cons. apply sort_insert_stable; [by apply IH|].
  by rewrite Array_sort_perm.
Qed.
End StableSort.

Lemma first_index_app_l t l1 l2 :
  t ∈ l1 → first_index t (l1 ++ l2) = first_index t l1.
Proof.
  induction l1 as [|x l1 IH]; simpl; [by intros ?%elem_of_nil|].
  intros Hin. case_bool_decide; [done|]. f_equal. apply IH.
  apply elem_of_cons in Hin as [->|?]; done.
Qed.

Lemma first_index_app_r t l1 l2 :
  t ∉ l1 → first_index t (l1 ++ l2) = (length l1 + first_index t l2)%nat.
Proof.
  induction l1 as [|x l1 IH]; simpl; [done|].
  intros [? ?]%not_elem_of_cons. rewrite bool_decide_eq_false_2 by done.
  by rewrite IH.
Qed.

Lemma first_index_lt t l : t ∈ l → (first_index t l < length l)%nat.
Proof.
  induction l as [|x l IH]; simpl; [by intros ?%elem_of_nil|].
  case_bool_decide; [lia|]. intros [->|Hin]%elem_of_cons; [done|].
  apply IH in Hin. lia.
Qed.

(** A set lists its elements in the order of their first occurrences. *)
Lemma Set_from_first_seen tokens :
  StronglySorted (λ a b, (first_index a tokens < first_index b tokens)%nat)
    (Set_from tokens).
Proof.
  unfold Set_from. induction tokens as [|t tokens IH] using rev_ind.
  { constructor. }
  rewrite fold_left_app. simpl. fold (Set_from tokens) in *.
  assert (StronglySorted
            (λ a b, (first_index a (tokens ++ [t]) < first_index b (tokens ++ [t]))%nat)
            (Set_from tokens)) as Hold.
  { eapply StronglySorted_impl_elem_of; [|exact IH].
    intros a b Ha Hb. apply (proj1 (Set_from_elem_of _ _)) in Ha, Hb. simpl.
    by rewrite !first_index_app_l by done. }
  unfold Set_add. case_bool_decide as Ht; [done|].
  apply StronglySorted_app_2; [|done|repeat constructor].
  intros a b Ha ->%list_elem_of_singleton.
  apply (proj1 (Set_from_elem_of _ _)) in Ha.
  rewrite Set_from_elem_of in Ht.
  rewrite first_index_app_l, first_index_app_r by done.
  apply first_index_lt in Ha. lia.
Qed.

Lemma occurrences_app t l1 l2 :
  occurrences t (l1 ++ l2) = (occurrences t l1 + occurrences t l2)%nat.
Proof. unfold occurrences. by rewrite filter_app, length_app. Qed.

Lemma count_tokens_get tokens counts t :
  default 0 (Map_get (count_tokens tokens counts) t) =
    default 0 (Map_get counts t) + Z.of_nat (occurrences t tokens).
Proof.
  unfold count_tokens, occurrences.
  revert counts. induction tokens as [|x tokens IH]; intros counts.
  { simpl. lia. }
  cbn [fold_left]. rewrite IH, Map_get_set, filter_cons.
  case_bool_decide; subst.
  - rewrite decide_True by done. simpl. lia.
  - by rewrite decide_False by done.
Qed.

Lemma count_tokens_app l1 l2 counts :
  count_tokens (l1 ++ l2) counts = count_tokens l2 (count_tokens l1 counts).
Proof. apply fold_left_app. Qed.

Lemma StronglySorted_fmap_inv {A B} (f : A → B) (R : relation B) l :
  StronglySorted R (f <$> l) → StronglySorted (λ x y, R (f x) (f y)) l.
Proof.
  induction l as [|x l IH]; csimpl; [constructor|].
  intros [Hx Hl]%StronglySorted_cons. apply StronglySorted_cons.
  rewrite Forall_fmap in Hx. auto.
Qed.

Lemma splitTextTokens_ext f g tk text :
  f text = g text → splitTextTokens f tk text = splitTextTokens g tk text.
Proof. intros Hfg. unfold splitTextTokens. by rewrite Hfg. Qed.

Lemma buildVocabFromCorpus_ext f g tk texts :
  Forall (λ text, f text = g text) texts →
  buildVocabFromCorpus f tk texts = buildVocabFromCorpus g tk texts.
Proof.
  intros Hfg. unfold buildVocabFromCorpus.
  assert (corpus_counts f (initializeSpecialTokens tk) texts =
          corpus_counts g (initializeSpecialTokens tk) texts) as ->; [|done].
  unfold corpus_counts. generalize (@nil (jsstring * Z)).
  induction Hfg as [|text texts Htext _ IH]; intros counts; simpl; [done|].
  by rewrite IH, (splitTextTokens_ext f g).
Qed.

Section Corpus.
Variable toLowerCase : jsstring → jsstring.

Lemma count_texts_eq tk texts counts :
  fold_left
    (λ counts text, count_tokens (splitTextTokens toLowerCase tk text) counts)
    texts counts
  = count_tokens (corpus_tokens toLowerCase tk texts) counts.
Proof.
  unfold corpus_tokens. revert counts.
  induction texts as [|text texts IH]; intros counts; simpl; [done|].
  by rewrite IH, count_tokens_app.
Qed.

Lemma corpus_counts_keys tk texts :
  (corpus_counts toLowerCase tk texts).*1 =
    Set_from (corpus_tokens toLowerCase tk texts).
Proof.
  unfold corpus_counts. rewrite count_texts_eq. apply count_tokens_keys.
Qed.

Lemma corpus_counts_value tk texts t n :
  (t, n) ∈ corpus_counts toLowerCase tk texts →
  n = Z.of_nat (occurrences t (corpus_tokens toLowerCase tk texts)).
Proof.
  intros Hin. apply obj_elem_of_get in Hin; [|apply corpus_counts_keys_NoDup].
  pose proof (count_tokens_get (corpus_tokens toLowerCase tk texts) [] t) as Hget.
  unfold corpus_counts in Hin. rewrite count_texts_eq in Hin.
  unfold Map_get in Hget. rewrite Hin in Hget. simpl in Hget. lia.
Qed.

(** The tokens of a corpus come out of the sort ranked by frequency and
    first occurrence. *)
Lemma by_frequency_ranked tk texts :
  StronglySorted (ranked_before (corpus_tokens toLowerCase tk texts))
    (by_frequency (corpus_counts toLowerCase tk texts)).
Proof.
  pose proof (Set_from_first_seen (corpus_tokens toLowerCase tk texts)) as Hseen.
  rewrite <- corpus_counts_keys in Hseen.
  set (all := corpus_tokens toLowerCase tk texts) in *.
  set (counts := corpus_counts toLowerCase tk texts) in *.
  apply StronglySorted_fmap_inv, Array_sort_stable in Hseen.
  unfold by_frequency.
  apply (StronglySorted_fmap _ (λ x y, ranked_before all x.1 y.1)); [done|].
  eapply StronglySorted_impl_elem_of; [|exact Hseen].
  intros [a na] [b nb] Ha Hb. rewrite Array_sort_perm in Ha, Hb.
  apply corpus_counts_value in Ha, Hb. fold all in Ha, Hb. simpl.
  unfold ranked_before. lia.
Qed.

(** After [buildVocabFromCorpus], of two tokens that are no special
    tokens and have identifiers, the one with the smaller identifier
    occurs more often in the texts, or as often and earlier for the first
    time; the corpus [a b b], [b c] yields the identifiers 4, 5 and 6 for
    b, a and c. *)
Theorem corpus_ids_by_frequency :
  (∀ tk texts a b ida idb,
     let tk' := buildVocabFromCorpus toLowerCase tk texts in
     a ∉ specialTokens tk → b ∉ specialTokens tk →
     getTokenId tk' a = Some (Number ida) →
     getTokenId tk' b = Some (Number idb) → ida < idb →
     ranked_before (corpus_tokens toLowerCase tk texts) a b) ∧
  (toLowerCase (js "a b b") = js "a b b" → toLowerCase (js "b c") = js "b c" →
   let tk' := buildVocabFromCorpus toLowerCase (constructor default_options)
                [js "a b b"; js "b c"] in
   getTokenId tk' (js "b") = Some (Number 4) ∧
   getTokenId tk' (js "a") = Some (Number 5) ∧
   getTokenId tk' (js "c") = Some (Number 6)).
Proof.
  split.
  - intros tk texts a b ida idb tk' Ha Hb Hida Hidb Hlt.
    set (sorted := by_frequency (corpus_counts toLowerCase tk texts)).
    set (v0 := vocab (initializeSpecialTokens tk)).
    set (added := within_limit (maxVocabSize tk) (length (obj_keys v0))
                    (candidates tk sorted)).
    assert (vocab tk' = number_tokens v0 added) as Hv.
    { apply (assign_ids_after_specials tk), by_frequency_NoDup. }
    assert (NoDup added) as Hnd.
    { apply within_limit_NoDup, candidates_NoDup, by_frequency_NoDup. }
    assert (∀ t, t ∈ added → t ∉ obj_keys v0) as Hfresh.
    { intros t. apply filter_not_special_fresh. }
    assert (∀ t id, t ∉ specialTokens tk → getTokenId tk' t = Some (Number id) →
              ∃ n, added !! n = Some t ∧
                   id = Z.of_nat (length (obj_keys v0) + n)) as Hpos.
    { intros t id Ht Hid. apply getTokenId_Number in Hid. rewrite Hv in Hid.
      destruct (decide (t ∈ added)) as [[n Hn]%list_elem_of_lookup|Hout].
      - exists n. split; [done|].
        rewrite (number_tokens_get_new v0 added n t) in Hid by done.
        by simplify_eq.
      - rewrite number_tokens_get_old in Hid by done.
        apply obj_get_elem_of, (list_elem_of_fmap_2 fst) in Hid.
        by apply initializeSpecialTokens_keys in Hid as [? _]. }
    destruct (Hpos a ida Ha Hida) as (na & Hna & ->).
    destruct (Hpos b idb Hb Hidb) as (nb & Hnb & ->).
    apply (StronglySorted_lookup _ added na nb); [|done|done|lia].
    apply (StronglySorted_sublist _ _ sorted); [|apply by_frequency_ranked].
    trans (candidates tk sorted); [|apply candidates_sublist].
    destruct (within_limit_prefix (maxVocabSize tk) (length (obj_keys v0))
                (candidates tk sorted)) as [rest Hrest].
    fold added in Hrest. rewrite Hrest. by apply sublist_inserts_r.
  - intros H1 H2 tk'. unfold tk'.
    rewrite (buildVocabFromCorpus_ext toLowerCase ascii_toLowerCase).
    + by vm_compute.
    + repeat constructor; [by rewrite H1|by rewrite H2].
Qed.
End Corpus.

(** ** Splitting text *)

Lemma replace_spaced_none cs s :
  Forall (λ c, c ∉ cs) s → replace_spaced cs s = s.
Proof.
  unfold replace_spaced. induction 1 as [|c s Hc _ IH]; [done|].
  rewrite bind_cons, IH. by rewrite bool_decide_eq_false_2.
Qed.

Lemma single_spaced_weaken b s : single_spaced b s → single_spaced false s.
Proof.
  destruct s as [|c s]; simpl; [done|].
  destruct (is_whitespace c); [|done]. by intros (-> & _ & ?).
Qed.

Lemma single_spaced_app_l b s1 s2 : single_spaced b (s1 ++ s2) → single_spaced b s1.
Proof.
  revert b. induction s1 as [|c s1 IH]; intros b; simpl; [done|].
  destruct (is_whitespace c); [|apply IH].
  intros (? & ? & ?). split_and!; [done..|]. by eapply IH.
Qed.

Lemma single_spaced_app_r b s1 s2 :
  single_spaced b (s1 ++ s2) → single_spaced false s2.
Proof.
  revert b. induction s1 as [|c s1 IH]; intros b; simpl.
  - apply single_spaced_weaken.
  - destruct (is_whitespace c); [|apply IH]. intros (_ & _ & ?). by eapply IH.
Qed.

Lemma collapse_from_single_spaced b s : single_spaced b (collapse_from b s).
Proof.
  revert b. induction s as [|c s IH]; intros b; simpl; [done|].
  destruct (is_whitespace c) eqn:Hc.
  - destruct b; [apply IH|]. simpl. change (is_whitespace SPACE) with true.
    cbv iota. split_and!; [done..|apply IH].
  - simpl. rewrite Hc. apply IH.
Qed.

Lemma trimStart_spec s :
  ∃ w, s = w ++ trimStart s ∧ Forall (λ c, is_whitespace c = true) w ∧
       ∀ c, head (trimStart s) = Some c → is_whitespace c = false.
Proof.
  induction s as [|c s (w & Hs & Hw & Hh)]; simpl.
  - exists []. by split_and!.
  - destruct (is_whitespace c) eqn:Hc.
    + exists (c :: w). split_and!; [by rewrite Hs at 1|by constructor|done].
    + exists []. split_and!; [done..|]. by intros ? [= <-].
Qed.

Lemma trimEnd_spec s :
  ∃ w, s = trimEnd s ++ w ∧ Forall (λ c, is_whitespace c = true) w ∧
       ∀ c, last (trimEnd s) = Some c → is_whitespace c = false.
Proof.
  unfold trimEnd. destruct (trimStart_spec (reverse s)) as (w & Hs & Hw & Hh).
  exists (reverse w). split_and!.
  - rewrite <- reverse_app, <- Hs. by rewrite reverse_involutive.
  - by apply Forall_reverse.
  - intros c. rewrite last_reverse. apply Hh.
Qed.

(** The text between the leading and the trailing whitespace. *)
Lemma trim_spec s :
  ∃ w1 w2, s = w1 ++ trim s ++ w2 ∧
    (∀ c, head (trim s) = Some c → is_whitespace c = false) ∧
    (∀ c, last (trim s) = Some c → is_whitespace c = false).
Proof.
  unfold trim. destruct (trimStart_spec s) as (w1 & Hs1 & _ & Hh).
  destruct (trimEnd_spec (trimStart s)) as (w2 & Hs2 & _ & Hl).
  exists w1, w2. split_and!; [by rewrite <- Hs2|..|done].
  intros c Hc. apply Hh. rewrite Hs2.
  destruct (trimEnd (trimStart s)); by simplify_eq/=.
Qed.

Lemma split_space_cons_inv s : ∃ p ps, split_space s = p :: ps.
Proof.
  destruct s as [|c s]; simpl; [by eexists _, _|].
  case_bool_decide; [by eexists _, _|].
  destruct (split_space s); by eexists _, _.
Qed.

Lemma join_space_split_space s : join_space (split_space s) = s.
Proof.
  induction s as [|c s IH]; simpl; [done|].
  destruct (split_space_cons_inv s) as (p & ps & Hs). rewrite Hs in *.
  case_bool_decide as Hc.
  - rewrite Hc. by rewrite join_space_cons, IH.
  - destruct ps; simpl in *; by rewrite <- IH.
Qed.

Lemma split_space_elem_of s p c :
  p ∈ split_space s → c ∈ p → c ∈ s ∧ c ≠ SPACE.
Proof.
  revert p. induction s as [|c' s IH]; intros p; simpl.
  - by intros ->%list_elem_of_singleton ?%elem_of_nil.
  - destruct (split_space_cons_inv s) as (q & qs & Hs). rewrite Hs in *.
    case_bool_decide as Hsp.
    + intros [->|Hp]%elem_of_cons Hc; [by apply elem_of_nil in Hc|].
      destruct (IH p Hp Hc). split; [by right|done].
    + intros [->|Hp]%elem_of_cons Hc.
      * apply elem_of_cons in Hc as [->|Hc]; [split; [left|done]|].
        destruct (IH q) as [? ?]; [left|done|]. split; [by right|done].
      * destruct (IH p) as [? ?]; [by right|done|]. split; [by right|done].
Qed.

(** In single-spaced text that does not end with a space, every piece
    after the first one is not empty; so is the first one when the text
    does not start with a space (a space right before it included). *)
Lemma split_space_pieces b s :
  single_spaced b s → last s ≠ Some SPACE →
  Forall (λ p, p ≠ []) (tail (split_space s)) ∧
  (s ≠ [] → (b = true ∨ head s ≠ Some SPACE) → head (split_space s) ≠ Some []).
Proof.
  revert b. induction s as [|c s IH]; intros b Hs Hlast; simpl.
  { split; [constructor|done]. }
  destruct (split_space_cons_inv s) as (q & qs & Hq).
  simpl in Hs. case_bool_decide as Hc.
  - subst c. change (is_whitespace SPACE) with true in Hs.
    destruct Hs as (_ & -> & Hs). simpl.
    assert (s ≠ []) as Hne by (by intros ->).
    destruct (IH true Hs) as [Htail Hhead].
    { destruct s; [done|]. by rewrite last_cons_cons in Hlast. }
    split; [|by intros _ [?|?]].
    rewrite Hq in *. simpl in *. constructor; [|done].
    intros ->. apply Hhead; [done|by left|done].
  - rewrite Hq. simpl. split; [|done].
    assert (single_spaced false s) as Hs'.
    { destruct (is_whitespace c); [|done]. destruct Hs as (_ & _ & Hs).
      by eapply single_spaced_weaken. }
    destruct s as [|c' s]; [simpl in Hq; by simplify_eq|].
    destruct (IH false Hs') as [Htail _]; [by rewrite last_cons_cons in Hlast|].
    by rewrite Hq in Htail.
Qed.

Lemma single_spaced_elem_of b s c :
  single_spaced b s → c ∈ s → is_whitespace c = true → c = SPACE.
Proof.
  revert b. induction s as [|c' s IH]; intros b; simpl.
  { by intros _ ?%elem_of_nil. }
  intros Hs [->|Hin]%elem_of_cons Hc.
  - rewrite Hc in Hs. by destruct Hs.
  - destruct (is_whitespace c'); [destruct Hs as (_ & _ & Hs)|]; by eapply IH.
Qed.

Lemma normalize_whitespace_spec s :
  single_spaced false (normalize_whitespace s) ∧
  (∀ c, head (normalize_whitespace s) = Some c → is_whitespace c = false) ∧
  (∀ c, last (normalize_whitespace s) = Some c → is_whitespace c = false).
Proof.
  unfold normalize_whitespace.
  destruct (trim_spec (collapse_whitespace s)) as (w1 & w2 & Hs & Hh & Hl).
  split_and!; [|done..].
  pose proof (collapse_from_single_spaced false s) as Hc.
  fold (collapse_whitespace s) in Hc. rewrite Hs in Hc.
  by apply single_spaced_app_r, single_spaced_app_l in Hc.
Qed.

(** The pieces of normalized text are its words, and joining them gives
    the text back. *)
Lemma normalized_pieces s :
  let tokens :=
    filter (λ token : list N, (0 < length token)%nat)
      (split_space (normalize_whitespace s)) in
  join_space tokens = normalize_whitespace s ∧
  Forall (λ t, t ≠ [] ∧ Forall (λ c, is_whitespace c = false) t) tokens.
Proof.
  destruct (normalize_whitespace_spec s) as (Hs & Hh & Hl).
  generalize dependent (normalize_whitespace s). intros n Hs Hh Hl tokens.
  assert (∀ p, p ∈ split_space n → Forall (λ c, is_whitespace c = false) p)
    as Hws.
  { intros p Hp. apply Forall_forall. intros c Hc.
    destruct (split_space_elem_of n p c Hp Hc) as [Hin Hne].
    destruct (is_whitespace c) eqn:Hwc; [|done].
    by apply (single_spaced_elem_of false n c) in Hwc. }
  destruct (decide (n = [])) as [->|Hn].
  { split; [done|]. unfold tokens. simpl. by rewrite filter_cons_False by (simpl; lia). }
  destruct (split_space_pieces false n Hs) as [Htail Hhead].
  { intros Hsp. by apply Hl in Hsp. }
  destruct (split_space_cons_inv n) as (p & ps & Hp).
  assert (Forall (λ p, p ≠ []) (split_space n)) as Hall.
  { rewrite Hp in *. simpl in *. constructor; [|done]. intros ->.
    apply Hhead; [done| |done]. right. intros Hsp. by apply Hh in Hsp. }
  assert (tokens = split_space n) as ->.
  { unfold tokens. clear -Hall. induction Hall as [|q qs Hq _ IH]; [done|].
    rewrite filter_cons_True, IH; [done|]. destruct q; [done|simpl; lia]. }
  split; [apply join_space_split_space|].
  rewrite Forall_forall in Hall. apply Forall_forall. intros q Hq.
  split; [by apply Hall|by apply Hws].
Qed.

Section RoundTrip.
Variable toLowerCase : jsstring → jsstring.

Lemma splitTextTokens_plain tk text :
  no_split_punctuation (processedText toLowerCase tk text) →
  splitTextTokens toLowerCase tk text =
    filter (λ token : list N, (0 < length token)%nat)
      (split_space (normalize_whitespace (processedText toLowerCase tk text))).
Proof.
  intros Hplain. unfold splitTextTokens, normalize_whitespace.
  fold (processedText toLowerCase tk text).
  rewrite (replace_spaced_none split_punctuation).
  - rewrite replace_spaced_none; [done|].
    eapply Forall_impl; [done|]. intros c [_ Hc] ->%list_elem_of_singleton. done.
  - eapply Forall_impl; [done|]. by intros c [? _].
Qed.

(** The identifiers of tokens that are keys of the vocabulary and are no
    special tokens contribute these tokens. *)
Lemma contributions_of_tokens tk tokens :
  inverse_vocabularies tk →
  Forall (λ t, obj_has (vocab tk) t = true ∧ (t ∉ specialTokens tk)) tokens →
  omap (contribution tk) (omap (obj_get (vocab tk)) tokens) = tokens.
Proof.
  intros Hinv. induction 1 as [|t tokens [Hid Ht] _ IH]; [done|].
  unfold obj_has in Hid. destruct (obj_get (vocab tk) t) as [id|] eqn:Hget;
    [|done].
  csimpl. rewrite Hget. csimpl.
  unfold contribution at 1. apply getTokenId_Number, Hinv in Hget.
  unfold getToken in Hget.
  rewrite Hget, bool_decide_eq_false_2 by done. by rewrite IH.
Qed.

Lemma contribution_of_special tk t id :
  inverse_vocabularies tk → getTokenId tk t = Some (Number id) →
  t ∈ specialTokens tk → contribution tk id = None.
Proof.
  intros Hinv Hid%Hinv Ht. unfold contribution, getToken in *.
  by rewrite Hid, bool_decide_eq_true_2.
Qed.

Lemma decode_encode_words tk text clsId sepId :
  let tokens := splitTextTokens toLowerCase tk text in
  inverse_vocabularies tk →
  getTokenId tk (js "<CLS>") = Some (Number clsId) →
  js "<CLS>" ∈ specialTokens tk →
  getTokenId tk (js "<SEP>") = Some (Number sepId) →
  js "<SEP>" ∈ specialTokens tk →
  Forall (λ t, obj_has (vocab tk) t = true ∧ (t ∉ specialTokens tk) ∧
               is_word t = true) tokens →
  ∃ ids, encode toLowerCase tk text = Returns (Number <$> ids) ∧
         decode tk ids = join_space tokens.
Proof.
  intros tokens Hinv Hcls Hcls' Hsep Hsep' Htokens.
  exists (clsId :: omap (obj_get (vocab tk)) tokens ++ [sepId]).
  assert (omap (contribution tk) (clsId :: omap (obj_get (vocab tk)) tokens ++ [sepId])
          = tokens) as Hc.
  { csimpl. rewrite (contribution_of_special tk (js "<CLS>")) by done.
    rewrite omap_app. csimpl.
    rewrite (contribution_of_special tk (js "<SEP>")) by done.
    rewrite app_nil_r. apply contributions_of_tokens; [done|].
    eapply Forall_impl; [done|]. by intros t (? & ? & _). }
  split.
  - unfold encode. fold tokens. unfold getTokenId in *.
    rewrite encode_tokens_covered, Hcls, Hsep.
    + csimpl. by rewrite fmap_app.
    + eapply Forall_impl; [done|]. intros t (Ht & _). unfold obj_has in Ht.
      by destruct (obj_get (vocab tk) t).
  - rewrite decode_words; rewrite Hc; [done|].
    eapply Forall_impl; [done|]. by intros t (_ & _ & ?).
Qed.

End RoundTrip.

(** ** Further properties of the splitter and the builders *)

Lemma collapse_from_whitespace b s :
  Forall (λ c, is_whitespace c = true) s →
  Forall (λ c, is_whitespace c = true) (collapse_from b s).
Proof.
  intros Hs. revert b. induction Hs as [|c s Hc _ IH]; intros b; simpl; [done|].
  rewrite Hc. destruct b; [apply IH|]. constructor; [done|apply IH].
Qed.

Lemma trimStart_whitespace s :
  Forall (λ c, is_whitespace c = true) s → trimStart s = [].
Proof. induction 1 as [|c s Hc _ IH]; simpl; [done|]. by rewrite Hc. Qed.

Lemma whitespace_no_split_punctuation s :
  Forall (λ c, is_whitespace c = true) s → no_split_punctuation s.
Proof.
  intros Hs. eapply Forall_impl; [done|]. intros c Hc. split.
  - intros Hin. unfold split_punctuation in Hin. simpl in Hin.
    repeat (apply elem_of_cons in Hin as [->|Hin]; [done|]).
    by apply elem_of_nil in Hin.
  - by intros ->.
Qed.

Section Further.
Variable toLowerCase : jsstring → jsstring.

(** X3: The tokens of the splitter are not empty and hold no whitespace. *)
Theorem splitTextTokens_words tk text :
  Forall (λ token, token ≠ [] ∧ Forall (λ c, is_whitespace c = false) token)
    (splitTextTokens toLowerCase tk text).
Proof. apply (normalized_pieces (replace_spaced _ (replace_spaced _ _))). Qed.

(** X4: Text that is whitespace once processed has no tokens. *)
Theorem splitTextTokens_whitespace tk text :
  Forall (λ c, is_whitespace c = true) (processedText toLowerCase tk text) →
  splitTextTokens toLowerCase tk text = [].
Proof.
  intros Hws. rewrite splitTextTokens_plain
    by by apply whitespace_no_split_punctuation.
  unfold normalize_whitespace, trim.
  by rewrite (trimStart_whitespace (collapse_whitespace _))
    by by apply collapse_from_whitespace.
Qed.

Lemma initializeSpecialTokens_config tk tk' :
  specialTokens tk' = specialTokens tk → caseSensitive tk' = caseSensitive tk →
  maxVocabSize tk' = maxVocabSize tk →
  initializeSpecialTokens tk' = initializeSpecialTokens tk.
Proof.
  intros Hs Hc Hm. unfold initializeSpecialTokens, buildReverseVocabFromVocab,
    set_reverseVocab, set_vocab. simpl. by rewrite Hs, Hc, Hm.
Qed.

(** X2: A build starts from the configuration alone: building twice from the
    same input gives the state of building once. *)
Theorem build_idempotent tk :
  (∀ text,
     buildVocabFromInputText toLowerCase
       (buildVocabFromInputText toLowerCase tk text).1 text =
     buildVocabFromInputText toLowerCase tk text) ∧
  (∀ texts,
     buildVocabFromCorpus toLowerCase
       (buildVocabFromCorpus toLowerCase tk texts) texts =
     buildVocabFromCorpus toLowerCase tk texts).
Proof.
  split.
  - intros text.
    destruct (buildVocabFromInputText_fields toLowerCase tk text)
      as (Hs & Hc & Hm & _).
    unfold buildVocabFromInputText at 1.
    by rewrite (initializeSpecialTokens_config tk).
  - intros texts.
    destruct (buildVocabFromCorpus_fields toLowerCase tk texts)
      as (Hs & Hc & Hm & _).
    unfold buildVocabFromCorpus at 1.
    by rewrite (initializeSpecialTokens_config tk).
Qed.
End Further.

(** ** The splitter, word by word *)

Lemma runs_cons_inv sep s : ∃ p ps, runs sep s = p :: ps.
Proof.
  destruct s as [|c s]; simpl; [by eexists _, _|].
  destruct (sep c); [by eexists _, _|].
  destruct (runs sep s); by eexists _, _.
Qed.

Lemma runs_app_sep sep a c b :
  sep c = true → runs sep (a ++ c :: b) = runs sep a ++ runs sep b.
Proof.
  intros Hc. induction a as [|x a IH]; simpl; [by rewrite Hc|].
  rewrite IH. destruct (sep x); [done|].
  by destruct (runs_cons_inv sep a) as (p & ps & ->).
Qed.

Lemma runs_no_sep sep w : Forall (λ c, sep c = false) w → runs sep w = [w].
Proof. induction 1 as [|c w Hc _ IH]; simpl; [done|]. by rewrite Hc, IH. Qed.

Lemma words_app_sep a c b :
  is_whitespace c = true → words (a ++ c :: b) = words a ++ words b.
Proof. intros Hc. unfold words. by rewrite runs_app_sep, filter_app. Qed.

Lemma words_cons_sep c s : is_whitespace c = true → words (c :: s) = words s.
Proof. apply (words_app_sep [] c s). Qed.

Lemma words_word w :
  w ≠ [] → Forall (λ c, is_whitespace c = false) w → words w = [w].
Proof.
  intros Hne Hw. unfold words. rewrite runs_no_sep by done.
  rewrite filter_cons_True; [done|]. destruct w; [done|simpl; lia].
Qed.

Lemma words_whitespace s : Forall (λ c, is_whitespace c = true) s → words s = [].
Proof. induction 1 as [|c s Hc _ IH]; [done|]. by rewrite words_cons_sep. Qed.

Lemma words_app_whitespace_l w s :
  Forall (λ c, is_whitespace c = true) w → words (w ++ s) = words s.
Proof. induction 1 as [|c w Hc _ IH]; [done|]. simpl. by rewrite words_cons_sep. Qed.

Lemma words_app_whitespace_r s w :
  Forall (λ c, is_whitespace c = true) w → words (s ++ w) = words s.
Proof.
  intros Hw. destruct Hw as [|c w Hc Hw]; [by rewrite app_nil_r|].
  rewrite words_app_sep by done. rewrite (words_whitespace w) by done.
  by rewrite app_nil_r.
Qed.

Lemma words_trim s : words (trim s) = words s.
Proof.
  unfold trim. destruct (trimStart_spec s) as (w1 & Hs1 & Hw1 & _).
  destruct (trimEnd_spec (trimStart s)) as (w2 & Hs2 & Hw2 & _).
  rewrite Hs1 at 2. rewrite words_app_whitespace_l by done.
  rewrite Hs2 at 2. by rewrite words_app_whitespace_r.
Qed.

Lemma runs_cons_sep sep c s :
  sep c = true → runs sep (c :: s) = [] :: runs sep s.
Proof. intros Hc. simpl. by rewrite Hc. Qed.

Lemma runs_cons_no_sep sep c s p ps :
  sep c = false → runs sep s = p :: ps → runs sep (c :: s) = (c :: p) :: ps.
Proof. intros Hc Hs. simpl. by rewrite Hc, Hs. Qed.

Lemma runs_collapse_from s :
  head (runs is_whitespace (collapse_from false s)) = head (runs is_whitespace s) ∧
  ∀ b, words (collapse_from b s) = words s.
Proof.
  induction s as [|c s [IHh IHw]]; [done|].
  destruct (is_whitespace c) eqn:Hc.
  - split.
    + simpl. rewrite Hc. by rewrite !runs_cons_sep.
    + intros b. simpl. rewrite Hc, (words_cons_sep c) by done.
      destruct b; [done|]. by rewrite words_cons_sep.
  - specialize (IHw false). unfold words in *.
    destruct (runs_cons_inv is_whitespace s) as (p & ps & Hp).
    destruct (runs_cons_inv is_whitespace (collapse_from false s))
      as (p' & ps' & Hp').
    assert (∀ b, collapse_from b (c :: s) = c :: collapse_from false s) as Hcol.
    { intros b. simpl. by rewrite Hc. }
    setoid_rewrite Hcol.
    rewrite (runs_cons_no_sep _ c _ p' ps'), (runs_cons_no_sep _ c s p ps) by done.
    rewrite Hp, Hp' in *. simplify_eq/=. split; [done|]. intros _.
    rewrite !filter_cons in IHw. rewrite !filter_cons_True by (simpl; lia).
    f_equal. destruct (decide (0 < length p)%nat); by simplify_eq.
Qed.

Lemma words_collapse_whitespace s : words (collapse_whitespace s) = words s.
Proof. apply runs_collapse_from. Qed.

Lemma words_join_space ws :
  Forall (λ t, t ≠ [] ∧ Forall (λ c, is_whitespace c = false) t) ws →
  words (join_space ws) = ws.
Proof.
  induction 1 as [|w ws [Hne Hw] Hws IH]; [done|].
  destruct ws as [|w' ws]; [by apply words_word|].
  rewrite join_space_cons by done. rewrite words_app_sep by done.
  by rewrite IH, words_word.
Qed.

Lemma words_normalize_whitespace s :
  filter (λ token : list N, (0 < length token)%nat)
    (split_space (normalize_whitespace s)) = words s.
Proof.
  destruct (normalized_pieces s) as [Hjoin Hwords].
  rewrite <- (words_join_space _ Hwords), Hjoin.
  unfold normalize_whitespace. by rewrite words_trim, words_collapse_whitespace.
Qed.

Lemma split_mark_not_whitespace c :
  is_split_mark c = true → is_whitespace c = false.
Proof.
  unfold is_split_mark. rewrite orb_true_iff, !bool_decide_eq_true.
  intros [Hin| ->]; [|done].
  unfold split_punctuation in Hin. simpl in Hin.
  repeat (apply elem_of_cons in Hin as [->|Hin]; [done|]).
  by apply elem_of_nil in Hin.
Qed.

Lemma replace_spaced_marks s :
  replace_spaced [44%N] (replace_spaced split_punctuation s) = marks_spaced s.
Proof.
  unfold replace_spaced, marks_spaced. induction s as [|c s IH]; [done|].
  rewrite !bind_cons, bind_app, IH. f_equal. unfold is_split_mark.
  assert (∀ x : N, bool_decide (x ∈ [44%N]) = bool_decide (x = 44%N)) as Hone.
  { intros x. apply bool_decide_ext, list_elem_of_singleton. }
  destruct (decide (c ∈ split_punctuation)) as [Hc|Hc].
  - rewrite (bool_decide_eq_true_2 _ Hc).
    assert (c ≠ 44%N) as Hne.
    { intros ->. revert Hc. apply (bool_decide_unpack _). by vm_compute. }
    simpl. rewrite !Hone. by rewrite (bool_decide_eq_false_2 (c = _)) by done.
  - rewrite (bool_decide_eq_false_2 _ Hc). simpl. rewrite Hone, app_nil_r.
    done.
Qed.

Lemma marks_spaced_app s1 s2 :
  marks_spaced (s1 ++ s2) = marks_spaced s1 ++ marks_spaced s2.
Proof. apply bind_app. Qed.

Lemma marks_spaced_cons c s :
  marks_spaced (c :: s) =
    (if is_split_mark c then [SPACE; c; SPACE] else [c]) ++ marks_spaced s.
Proof. done. Qed.

Lemma marks_spaced_markless s :
  Forall (λ c, is_split_mark c = false) s → marks_spaced s = s.
Proof.
  induction 1 as [|c s Hc _ IH]; [done|].
  by rewrite marks_spaced_cons, Hc, IH.
Qed.

Lemma concat_runs sep s :
  concat (runs sep s) = filter (λ c, sep c = false) s.
Proof.
  induction s as [|c s IH]; [done|]. rewrite filter_cons. simpl.
  destruct (sep c) eqn:Hc.
  - by rewrite decide_False by done.
  - rewrite decide_True by done. rewrite <- IH.
    by destruct (runs_cons_inv sep s) as (p & ps & ->).
Qed.

Lemma concat_words s : concat (words s) = filter (λ c, is_whitespace c = false) s.
Proof.
  rewrite <- concat_runs. unfold words.
  induction (runs is_whitespace s) as [|p ps IH]; [done|].
  destruct p as [|c p].
  - by rewrite filter_cons_False by (simpl; lia).
  - rewrite filter_cons_True by (simpl; lia). simpl. by rewrite IH.
Qed.

Lemma filter_marks_spaced s :
  filter (λ c, is_whitespace c = false) (marks_spaced s) =
    filter (λ c, is_whitespace c = false) s.
Proof.
  induction s as [|c s IH]; [done|].
  rewrite marks_spaced_cons, filter_app, IH.
  change (c :: s) with ([c] ++ s). rewrite filter_app. f_equal.
  destruct (is_split_mark c); [|done].
  rewrite (filter_cons_False _ SPACE) by done.
  rewrite (filter_cons _ c), (filter_cons_False _ SPACE) by done.
  done.
Qed.

Lemma whitespace_not_split_mark c :
  is_whitespace c = true → is_split_mark c = false.
Proof.
  intros Hc. destruct (is_split_mark c) eqn:Hm; [|done].
  apply split_mark_not_whitespace in Hm. congruence.
Qed.

(** In text with its marks between spaces, no run reaches a mark from
    outside. *)
Lemma runs_marks_spaced s :
  ∃ p ps, runs is_whitespace (marks_spaced s) = p :: ps ∧
    Forall (λ c, is_split_mark c = false) p ∧
    Forall mark_or_markless (filter (λ w : list N, (0 < length w)%nat) ps).
Proof.
  induction s as [|c s (p & ps & Hruns & Hp & Hps)].
  { exists [], []. split_and!; [done|constructor|constructor]. }
  assert (Forall mark_or_markless
            (filter (λ w : list N, (0 < length w)%nat) (p :: ps))) as Hall.
  { rewrite filter_cons. case_decide; [|done]. constructor; [by right|done]. }
  rewrite marks_spaced_cons. destruct (is_split_mark c) eqn:Hm.
  - pose proof (split_mark_not_whitespace c Hm) as Hc. simpl.
    change (is_whitespace SPACE) with true. cbv iota. rewrite Hc.
    eexists _, _. split; [done|]. split; [constructor|].
    rewrite filter_cons_True by (simpl; lia). rewrite Hruns.
    constructor; [|done]. left. by exists c.
  - simpl. destruct (is_whitespace c) eqn:Hc.
    + eexists _, _. split; [done|]. split; [constructor|]. by rewrite Hruns.
    + rewrite Hruns. eexists _, _. split; [done|]. split; [by constructor|done].
Qed.

Lemma words_marks_spaced s : Forall mark_or_markless (words (marks_spaced s)).
Proof.
  destruct (runs_marks_spaced s) as (p & ps & Hruns & Hp & Hps).
  unfold words. rewrite Hruns, filter_cons.
  case_decide; [|done]. constructor; [by right|done].
Qed.

Lemma words_marks_spaced_token t :
  t ≠ [] → Forall (λ c, is_whitespace c = false) t → mark_or_markless t →
  words (marks_spaced t) = [t].
Proof.
  intros Hne Hws [(c & -> & Hc)|Hm].
  - rewrite marks_spaced_cons, Hc. simpl.
    apply Forall_cons in Hws as [Hws _].
    rewrite words_cons_sep by done.
    change [c; SPACE] with ([c] ++ SPACE :: []).
    rewrite words_app_sep by done.
    rewrite words_word; [done|done|by repeat constructor].
  - rewrite marks_spaced_markless by done. by apply words_word.
Qed.

Lemma words_marks_spaced_join ws :
  Forall (λ t, (t ≠ [] ∧ Forall (λ c, is_whitespace c = false) t) ∧
               mark_or_markless t) ws →
  words (marks_spaced (join_space ws)) = ws.
Proof.
  induction 1 as [|w ws [[Hne Hw] Hm] Hws IH]; [done|].
  destruct ws as [|w' ws]; [by apply words_marks_spaced_token|].
  rewrite join_space_cons by done.
  rewrite marks_spaced_app, marks_spaced_cons.
  change (is_split_mark SPACE) with false. cbv iota.
  change ([SPACE] ++ ?x) with (SPACE :: x). rewrite words_app_sep by done.
  by rewrite IH, words_marks_spaced_token.
Qed.

Section Splitter.
Variable toLowerCase : jsstring → jsstring.

Lemma splitTextTokens_words_of tk text :
  splitTextTokens toLowerCase tk text =
    words (marks_spaced (processedText toLowerCase tk text)).
Proof.
  unfold splitTextTokens. fold (processedText toLowerCase tk text).
  rewrite <- replace_spaced_marks. apply words_normalize_whitespace.
Qed.

(** X5: The tokens of a text hold its code units in their order, the
    whitespace left out: the splitter adds nothing and drops nothing
    else. *)
Theorem splitTextTokens_concat tk text :
  concat (splitTextTokens toLowerCase tk text) =
    filter (λ c, is_whitespace c = false) (processedText toLowerCase tk text).
Proof.
  by rewrite splitTextTokens_words_of, concat_words, filter_marks_spaced.
Qed.

(** X6: Every mark of the splitter is a token of its own: a token is one such
    mark, or holds none. *)
Theorem splitTextTokens_marks tk text :
  Forall mark_or_markless (splitTextTokens toLowerCase tk text).
Proof. rewrite splitTextTokens_words_of. apply words_marks_spaced. Qed.

(** X7: Where the case handling goes through a whitespace code unit, the
    tokens of the text are the tokens of the part before it followed by
    the tokens of the part after it. *)
Theorem splitTextTokens_app tk a c b :
  is_whitespace c = true →
  processedText toLowerCase tk (a ++ c :: b) =
    processedText toLowerCase tk a ++ c :: processedText toLowerCase tk b →
  splitTextTokens toLowerCase tk (a ++ c :: b) =
    splitTextTokens toLowerCase tk a ++ splitTextTokens toLowerCase tk b.
Proof.
  intros Hc Hcase. rewrite !splitTextTokens_words_of, Hcase.
  rewrite marks_spaced_app, marks_spaced_cons.
  rewrite (whitespace_not_split_mark c Hc). simpl.
  by apply words_app_sep.
Qed.

(** X8: The tokens of a text, joined by single spaces, split into the same
    tokens again, provided that the case handling leaves the joined text
    as it is. *)
Theorem splitTextTokens_join tk text :
  let tokens := splitTextTokens toLowerCase tk text in
  processedText toLowerCase tk (join_space tokens) = join_space tokens →
  splitTextTokens toLowerCase tk (join_space tokens) = tokens.
Proof.
  intros tokens Hcase. rewrite splitTextTokens_words_of, Hcase.
  apply words_marks_spaced_join. unfold tokens.
  pose proof (normalized_pieces
                (replace_spaced [44%N]
                   (replace_spaced split_punctuation
                      (processedText toLowerCase tk text)))) as [_ Hwords].
  pose proof (words_marks_spaced (processedText toLowerCase tk text)) as Hmarks.
  rewrite <- splitTextTokens_words_of in Hmarks.
  rewrite Forall_forall in Hwords, Hmarks. apply Forall_forall. intros t Ht.
  split; [by apply Hwords|by apply Hmarks].
Qed.
End Splitter.

(** ** What [decode] assembles *)

Lemma trimEnd_snoc_space acc :
  (∀ c, last acc = Some c → is_whitespace c = false) →
  trimEnd (acc ++ [SPACE]) = acc.
Proof.
  intros Hlast. unfold trimEnd. rewrite reverse_app. simpl.
  change (is_whitespace SPACE) with true. cbv iota.
  rewrite trimStart_unchanged; [apply reverse_involutive|].
  intros c. rewrite head_reverse. apply Hlast.
Qed.

Lemma is_token_last t acc c :
  is_token t → last (acc ++ attached t) = Some c → is_whitespace c = false.
Proof.
  intros [Hne Hws] Hlast.
  assert (last (acc ++ attached t) = last t) as Heq.
  { rewrite last_app. unfold attached.
    destruct (is_punctuation (Some t));
      destruct t as [|x t]; try done; rewrite ?last_cons_cons;
      by destruct (last (x :: t)) eqn:Hl; [|apply last_None in Hl]. }
  rewrite Heq in Hlast. apply last_Some_elem_of in Hlast.
  rewrite Forall_forall in Hws. by apply Hws.
Qed.

(** The loop of [decode] once the first token is written. *)
Lemma merge_tokens_attached rest acc :
  Forall is_token rest →
  (∀ c, last acc = Some c → is_whitespace c = false) →
  merge_tokens (Some <$> rest)
    (match rest with [] => acc | _ :: _ => acc ++ [SPACE] end) =
    acc ++ (rest ≫= attached).
Proof.
  intros Hrest. revert acc.
  induction Hrest as [|t rest Ht Hrest IH]; intros acc Hacc.
  { simpl. by rewrite app_nil_r. }
  rewrite bind_cons, app_assoc. rewrite <- IH by (intros c; by apply is_token_last).
  cbn [fmap list_fmap merge_tokens to_String default from_option id].
  assert ((if is_punctuation (Some t) then trimEnd (acc ++ [SPACE]) ++ t
           else (acc ++ [SPACE]) ++ t) = acc ++ attached t) as ->.
  { unfold attached. destruct (is_punctuation (Some t)).
    - by rewrite trimEnd_snoc_space.
    - by rewrite <- app_assoc. }
  by destruct rest.
Qed.

Lemma format_tokens_ends rest acc c :
  Forall is_token rest →
  (∀ c, last acc = Some c → is_whitespace c = false) →
  last (acc ++ (rest ≫= attached)) = Some c → is_whitespace c = false.
Proof.
  intros Hrest. revert acc.
  induction Hrest as [|t rest Ht Hrest IH]; intros acc Hacc.
  { rewrite app_nil_r. apply Hacc. }
  rewrite bind_cons, app_assoc. apply IH. intros c'. by apply is_token_last.
Qed.

Lemma merge_tokens_format ws :
  Forall is_token ws →
  trim (merge_tokens (Some <$> ws) []) = format_tokens ws.
Proof.
  intros Hws. destruct Hws as [|t rest Ht Hrest]; [done|].
  assert (∀ c, last t = Some c → is_whitespace c = false) as Hlast.
  { intros c Hc%last_Some_elem_of. destruct Ht as [_ Ht].
    rewrite Forall_forall in Ht. by apply Ht. }
  cbn [fmap list_fmap merge_tokens to_String default from_option id].
  assert ((if is_punctuation (Some t) then trimEnd [] ++ t else [] ++ t) = t)
    as -> by by destruct (is_punctuation (Some t)).
  assert (merge_tokens (Some <$> rest)
            (match Some <$> rest with [] => t | _ :: _ => t ++ [SPACE] end) =
          t ++ (rest ≫= attached)) as ->.
  { rewrite <- merge_tokens_attached by done. by destruct rest. }
  simpl. apply trim_unchanged.
  - destruct Ht as [Hne Ht]. destruct t as [|x t]; [done|].
    apply Forall_cons in Ht as [Hx _]. simpl. by intros c [= <-].
  - intros c. by apply format_tokens_ends.
Qed.

(** X9: [decode] on identifiers whose contributions are not empty and hold no
    whitespace: the first contribution, then every punctuation mark right
    behind the text before it and every other contribution behind one
    space. *)
Theorem decode_format tk (ids : list Z) :
  Forall is_token (omap (contribution tk) ids) →
  decode tk ids = format_tokens (omap (contribution tk) ids).
Proof. intros Hws. rewrite decode_merge. by apply merge_tokens_format. Qed.

(** X10: The text that [decode] returns has no whitespace at its ends. *)
Theorem decode_trimmed tk (ids : list Z) :
  (∀ c, head (decode tk ids) = Some c → is_whitespace c = false) ∧
  (∀ c, last (decode tk ids) = Some c → is_whitespace c = false).
Proof.
  unfold decode.
  destruct (trim_spec
              (merge_tokens
                 (filter (λ token, includes (specialTokens tk) token = false)
                    ((λ tokenId, reverseVocab tk !! tokenId) <$> ids)) []))
    as (_ & _ & _ & Hh & Hl).
  by split.
Qed.

(** ** Decoding what [encode] returns *)

Lemma punctuation_split_mark t :
  is_punctuation (Some t) = true → t ≠ js "-" → t ≠ js "`" →
  ∃ c, t = [c] ∧ is_split_mark c = true.
Proof.
  unfold is_punctuation. simpl. destruct t as [|c [|c' t]]; [done| |done].
  intros Hc%bool_decide_eq_true Hh Hb. exists c. split; [done|].
  unfold decode_punctuation in Hc. simpl in Hc.
  repeat (apply elem_of_cons in Hc as [->|Hc]; [done|]).
  by apply elem_of_nil in Hc.
Qed.

Lemma split_mark_punctuation c :
  is_split_mark c = true → is_punctuation (Some [c]) = true.
Proof.
  unfold is_split_mark, is_punctuation. simpl.
  intros [Hin%bool_decide_eq_true| ->%bool_decide_eq_true]%orb_true_iff;
    [|done].
  unfold split_punctuation in Hin. simpl in Hin.
  repeat (apply elem_of_cons in Hin as [->|Hin]; [done|]).
  by apply elem_of_nil in Hin.
Qed.

(** A stable token is a mark that both classes hold, or a word that
    [decode] puts behind a space. *)
Lemma is_stable_token_cases t :
  is_stable_token t →
  (∃ c, t = [c] ∧ is_split_mark c = true ∧ is_whitespace c = false ∧
        attached t = t) ∨
  (t ≠ [] ∧ Forall (λ c, is_whitespace c = false) t ∧
   Forall (λ c, is_split_mark c = false) t ∧ attached t = SPACE :: t).
Proof.
  intros ([Hne Hws] & [(c & -> & Hc)|Hm] & Hh & Hb).
  - left. exists c. split_and!; [done..| |].
    + by apply split_mark_not_whitespace.
    + unfold attached. by rewrite split_mark_punctuation.
  - right. split_and!; [done..|]. unfold attached.
    destruct (is_punctuation (Some t)) eqn:Hp; [|done].
    destruct (punctuation_split_mark t Hp Hh Hb) as (c & -> & Hc).
    apply Forall_cons in Hm as [Hm _]. congruence.
Qed.

Lemma words_first_token t X :
  is_stable_token t → at_word_end X →
  words (marks_spaced t ++ X) = t :: words X.
Proof.
  intros [(c & -> & Hc & Hws & _)|(Hne & Hws & Hm & _)]%is_stable_token_cases HX.
  - rewrite marks_spaced_cons, Hc. simpl.
    rewrite words_cons_sep by done.
    change (c :: SPACE :: X) with ([c] ++ SPACE :: X).
    rewrite words_app_sep by done.
    rewrite words_word; [done|done|by repeat constructor].
  - rewrite marks_spaced_markless by done.
    destruct HX as [->|(w & X' & -> & Hw)].
    + rewrite app_nil_r. by apply words_word.
    + rewrite words_app_sep, (words_cons_sep w), words_word by done. done.
Qed.

Lemma words_attached_token t X :
  is_stable_token t → at_word_end X →
  words (marks_spaced (attached t) ++ X) = t :: words X.
Proof.
  intros Ht HX.
  destruct (is_stable_token_cases t Ht)
    as [(c & -> & _ & _ & ->)|(_ & _ & _ & ->)].
  - by apply words_first_token.
  - rewrite marks_spaced_cons. change (is_split_mark SPACE) with false.
    cbv iota. simpl. rewrite words_cons_sep by done. by apply words_first_token.
Qed.

Lemma marks_spaced_attached_start t X :
  is_stable_token t → at_word_end (marks_spaced (attached t) ++ X).
Proof.
  intros [(c & -> & Hc & _ & ->)|(_ & _ & _ & ->)]%is_stable_token_cases.
  - right. rewrite marks_spaced_cons, Hc. by eexists _, _.
  - right. rewrite marks_spaced_cons. by eexists _, _.
Qed.

Lemma words_marks_spaced_attached rest :
  Forall is_stable_token rest →
  words (marks_spaced (rest ≫= attached)) = rest ∧
  at_word_end (marks_spaced (rest ≫= attached)).
Proof.
  induction 1 as [|t rest Ht _ [IHw IHe]]; [by split; [|left]|].
  rewrite bind_cons, marks_spaced_app. split.
  - by rewrite words_attached_token, IHw.
  - by apply marks_spaced_attached_start.
Qed.

Lemma words_marks_spaced_format ws :
  Forall is_stable_token ws → words (marks_spaced (format_tokens ws)) = ws.
Proof.
  intros Hws. destruct Hws as [|t rest Ht Hrest]; [done|].
  destruct (words_marks_spaced_attached rest Hrest) as [Hw He].
  simpl. by rewrite marks_spaced_app, words_first_token, Hw.
Qed.

(** What the identifiers of the tokens of a text contribute: the tokens
    that are keys of the vocabulary and no special tokens. *)
Lemma contributions_of_encoded tk (tokens : list jsstring) unkId :
  inverse_vocabularies tk →
  getTokenId tk (js "<UNK>") = Some (Number unkId) →
  js "<UNK>" ∈ specialTokens tk →
  omap (contribution tk)
    ((λ token, default unkId (obj_get (vocab tk) token)) <$> tokens) =
    filter (λ t, obj_has (vocab tk) t = true ∧ (t ∉ specialTokens tk)) tokens.
Proof.
  intros Hinv Hunk Hunk'. induction tokens as [|t tokens IH]; [done|].
  csimpl. rewrite filter_cons, IH. unfold obj_has.
  destruct (obj_get (vocab tk) t) as [id|] eqn:Hget; simpl.
  - apply getTokenId_Number in Hget. pose proof Hget as Hrev%Hinv.
    unfold contribution, getToken in *. rewrite Hrev.
    case_bool_decide.
    + by rewrite decide_False by tauto.
    + by rewrite decide_True by tauto.
  - by rewrite (contribution_of_special tk (js "<UNK>")) by done.
Qed.

Section TokenRoundTrip.
Variable toLowerCase : jsstring → jsstring.

(** With pairwise distinct special tokens, after a build the two
    vocabularies are inverse and every special token has an identifier. *)
Lemma after_build_special_ids tk :
  after_build toLowerCase tk →
  NoDup (specialTokens tk) → js "__proto__" ∉ specialTokens tk →
  inverse_vocabularies tk ∧
  ∀ t, t ∈ specialTokens tk → ∃ id, getTokenId tk t = Some (Number id).
Proof.
  intros Hb Hs Hp.
  destruct (after_build_numbered toLowerCase tk Hb Hs Hp)
    as (added & Hnum & Hkeys & Hrev).
  split; [by eapply numbered_inverse|].
  intros t [i Hi]%list_elem_of_lookup. destruct Hnum as (_ & _ & Hnum).
  exists (Z.of_nat i). apply Hnum. exists i. split; [done|].
  by apply lookup_app_l_Some.
Qed.

(** The identifiers that [encode] returns when reading a token never
    yields an inherited member. *)
Lemma encode_numbers tk text unkId clsId sepId :
  getTokenId tk (js "<UNK>") = Some (Number unkId) →
  getTokenId tk (js "<CLS>") = Some (Number clsId) →
  getTokenId tk (js "<SEP>") = Some (Number sepId) →
  Forall (λ t, obj_has (vocab tk) t = true ∨ inherited t = false)
    (splitTextTokens toLowerCase tk text) →
  encode toLowerCase tk text =
    Returns (Number <$>
               clsId :: ((λ token, default unkId (obj_get (vocab tk) token)) <$>
                           splitTextTokens toLowerCase tk text) ++ [sepId]).
Proof.
  intros Hunk Hcls Hsep Hplain.
  rewrite (encode_values toLowerCase tk text _ _ _ Hunk Hcls Hsep).
  csimpl. rewrite fmap_app. csimpl. do 3 f_equal.
  rewrite <- list_fmap_compose. apply Forall_fmap_ext_1.
  eapply Forall_impl; [exact Hplain|]. intros t Ht.
  unfold getTokenId, vocab_read, obj_has in *. simpl.
  destruct (obj_get (vocab tk) t); [done|].
  destruct Ht as [?|Ht]; [done|]. by rewrite Ht.
Qed.

Lemma decode_encode_tokens tk text :
  let tokens := splitTextTokens toLowerCase tk text in
  after_build toLowerCase tk →
  NoDup (specialTokens tk) → js "__proto__" ∉ specialTokens tk →
  js "<UNK>" ∈ specialTokens tk → js "<CLS>" ∈ specialTokens tk →
  js "<SEP>" ∈ specialTokens tk →
  Forall (λ t, obj_has (vocab tk) t = true ∨ inherited t = false) tokens →
  ∃ ids,
    encode toLowerCase tk text = Returns (Number <$> ids) ∧
    decode tk ids =
      format_tokens
        (filter (λ t, obj_has (vocab tk) t = true ∧ (t ∉ specialTokens tk))
           tokens).
Proof.
  intros tokens Hb Hs Hp Hunk Hcls Hsep Hplain.
  destruct (after_build_special_ids tk Hb Hs Hp) as [Hinv Hin].
  destruct (Hin _ Hunk) as [unkId HunkId], (Hin _ Hcls) as [clsId HclsId],
    (Hin _ Hsep) as [sepId HsepId].
  eexists. split; [by apply (encode_numbers tk text unkId clsId sepId)|].
  fold tokens.
  assert (omap (contribution tk)
            (clsId :: ((λ token, default unkId (obj_get (vocab tk) token)) <$>
                         tokens) ++ [sepId]) =
          filter (λ t, obj_has (vocab tk) t = true ∧ (t ∉ specialTokens tk))
            tokens) as Hc.
  { csimpl. rewrite (contribution_of_special tk (js "<CLS>")) by done.
    rewrite omap_app. csimpl.
    rewrite (contribution_of_special tk (js "<SEP>")) by done.
    rewrite app_nil_r. by apply contributions_of_encoded. }
  rewrite decode_merge, Hc. apply merge_tokens_format.
  pose proof (normalized_pieces
                (replace_spaced [44%N]
                   (replace_spaced split_punctuation
                      (processedText toLowerCase tk text)))) as [_ Hwords].
  apply Forall_forall. intros t [_ Ht]%list_elem_of_filter.
  rewrite Forall_forall in Hwords. by apply Hwords.
Qed.

(** X11: For a tokenizer after a build whose pairwise distinct special tokens
    include [<UNK>], [<CLS>] and [<SEP>], and a text without tokens that
    the vocabulary object only inherits: [encode] returns numbers, and
    [decode] makes of them the tokens of the text that are keys of the
    vocabulary and no special tokens, every punctuation mark right behind
    the text before it and every other token behind one space.  Tokens
    outside the vocabulary are lost. *)
Theorem decode_encode_known_tokens tk text :
  let tokens := splitTextTokens toLowerCase tk text in
  after_build toLowerCase tk →
  NoDup (specialTokens tk) → js "__proto__" ∉ specialTokens tk →
  js "<UNK>" ∈ specialTokens tk → js "<CLS>" ∈ specialTokens tk →
  js "<SEP>" ∈ specialTokens tk →
  Forall (λ t, inherited t = false) tokens →
  ∃ ids,
    encode toLowerCase tk text = Returns (Number <$> ids) ∧
    decode tk ids =
      format_tokens
        (filter (λ t, obj_has (vocab tk) t = true ∧ (t ∉ specialTokens tk))
           tokens).
Proof.
  intros tokens Hb Hs Hp Hunk Hcls Hsep Hplain.
  apply decode_encode_tokens; try done.
  eapply Forall_impl; [exact Hplain|]. intros t Ht. by right.
Qed.

(** X12: Decoding and encoding again gives the same identifiers: for a
    tokenizer as above and a text whose tokens are keys of the
    vocabulary, no special tokens and neither a lone hyphen nor a lone
    backquote, provided that the case handling leaves the decoded text as
    it is. *)
Theorem encode_decode_encode tk text :
  let tokens := splitTextTokens toLowerCase tk text in
  after_build toLowerCase tk →
  NoDup (specialTokens tk) → js "__proto__" ∉ specialTokens tk →
  js "<UNK>" ∈ specialTokens tk → js "<CLS>" ∈ specialTokens tk →
  js "<SEP>" ∈ specialTokens tk →
  Forall (λ t, obj_has (vocab tk) t = true ∧ (t ∉ specialTokens tk) ∧
               t ≠ js "-" ∧ t ≠ js "`") tokens →
  processedText toLowerCase tk (format_tokens tokens) = format_tokens tokens →
  ∃ ids,
    encode toLowerCase tk text = Returns (Number <$> ids) ∧
    encode toLowerCase tk (decode tk ids) = Returns (Number <$> ids).
Proof.
  intros tokens Hb Hs Hp Hunk Hcls Hsep Htokens Hcase.
  destruct (decode_encode_tokens tk text Hb Hs Hp Hunk Hcls Hsep)
    as (ids & Henc & Hdec).
  { eapply Forall_impl; [exact Htokens|]. intros t (? & _). by left. }
  exists ids. split; [done|]. fold tokens in Hdec.
  assert (filter (λ t, obj_has (vocab tk) t = true ∧ (t ∉ specialTokens tk))
            tokens = tokens) as Hall.
  { clear -Htokens. induction Htokens as [|t ts (? & ? & _) _ IH]; [done|].
    by rewrite filter_cons_True, IH. }
  rewrite Hall in Hdec.
  assert (splitTextTokens toLowerCase tk (decode tk ids) = tokens) as Hsplit.
  { rewrite Hdec, splitTextTokens_words_of, Hcase.
    apply words_marks_spaced_format.
    pose proof (normalized_pieces
                  (replace_spaced [44%N]
                     (replace_spaced split_punctuation
                        (processedText toLowerCase tk text)))) as [_ Hwords].
    pose proof (words_marks_spaced (processedText toLowerCase tk text)) as Hmarks.
    rewrite <- splitTextTokens_words_of in Hmarks.
    rewrite Forall_forall in Hwords, Hmarks, Htokens. apply Forall_forall.
    intros t Ht. destruct (Htokens t Ht) as (_ & _ & ? & ?).
    split_and!; [by apply Hwords|by apply Hmarks|done..]. }
  rewrite <- Henc. unfold encode. by rewrite Hsplit.
Qed.
End TokenRoundTrip.

(** ** Texts that [decode] gives back *)

(** A text holds no whitespace, or starts with a part that holds none and
    ends at a whitespace. *)
Lemma first_whitespace s :
  Forall (λ c, is_whitespace c = false) s ∨
  ∃ a c b, s = a ++ c :: b ∧ Forall (λ c, is_whitespace c = false) a ∧
           is_whitespace c = true.
Proof.
  induction s as [|x s IH]; [by left|].
  destruct (is_whitespace x) eqn:Hx.
  - right. by exists [], x, s.
  - destruct IH as [IH|(a & c & b & -> & Ha & Hc)].
    + left. by constructor.
    + right. exists (x :: a), c, b. split_and!; [done| |done]. by constructor.
Qed.

Lemma words_no_whitespace a :
  Forall (λ c, is_whitespace c = false) a →
  words a = if bool_decide (a = []) then [] else [a].
Proof.
  intros Ha. case_bool_decide as Hnil; [by subst|]. by apply words_word.
Qed.

Lemma marks_spaced_whitespace c :
  is_whitespace c = true → marks_spaced [c] = [c].
Proof.
  intros Hc. apply marks_spaced_markless. constructor; [|done].
  by apply whitespace_not_split_mark.
Qed.

(** The splitter splits word by word. *)
Lemma words_marks_spaced_words s :
  words (marks_spaced s) = words s ≫= word_tokens.
Proof.
  unfold word_tokens.
  remember (length s) as n eqn:Hn. revert s Hn.
  induction n as [n IH] using lt_wf_ind. intros s ->.
  destruct (first_whitespace s) as [Hs|(a & c & b & -> & Ha & Hc)].
  - rewrite (words_no_whitespace s) by done. case_bool_decide; [by subst|].
    csimpl. by rewrite app_nil_r.
  - rewrite words_app_sep by done.
    rewrite marks_spaced_app.
    change (c :: b) with ([c] ++ b).
    rewrite marks_spaced_app, marks_spaced_whitespace by done.
    simpl. rewrite words_app_sep by done.
    rewrite bind_app.
    rewrite <- (IH (length b) ltac:(rewrite length_app; simpl; lia) b eq_refl).
    f_equal. rewrite (words_no_whitespace a) by done.
    case_bool_decide; [by subst|]. csimpl. by rewrite app_nil_r.
Qed.

Lemma words_are_tokens s : Forall is_token (words s).
Proof.
  rewrite <- words_normalize_whitespace. apply normalized_pieces.
Qed.

Lemma normalize_whitespace_words s :
  normalize_whitespace s = join_space (words s).
Proof.
  destruct (normalized_pieces s) as [Hjoin _].
  by rewrite <- words_normalize_whitespace, Hjoin.
Qed.

(** The tokens of a word make up the word. *)
Lemma concat_word_tokens w :
  Forall (λ c, is_whitespace c = false) w → concat (word_tokens w) = w.
Proof.
  intros Hw. unfold word_tokens. rewrite concat_words, filter_marks_spaced.
  induction Hw as [|c w Hc _ IH]; [done|].
  by rewrite filter_cons_True, IH.
Qed.

Lemma join_space_bind w ws :
  join_space (w :: ws) = w ++ (ws ≫= λ w, SPACE :: w).
Proof.
  revert w. induction ws as [|w' ws IH]; intros w; simpl; [by rewrite app_nil_r|].
  f_equal. f_equal. apply IH.
Qed.

Lemma is_token_attached_head t x c :
  is_token t → is_punctuation (Some t) = true → head (attached t ++ x) = Some c →
  is_whitespace c = false.
Proof.
  intros [Hne Ht] Hp. unfold attached. rewrite Hp.
  destruct t as [|a t]; [done|]. simpl. intros [= <-].
  by apply Forall_cons in Ht as [? _].
Qed.

Lemma attached_goes_on t x y :
  is_token t →
  attached t ++ x = t ++ y ↔ is_punctuation (Some t) = true ∧ x = y.
Proof.
  intros [Hne Ht]. unfold attached.
  destruct (is_punctuation (Some t)) eqn:Hp.
  - split; [by intros ?%app_inv_head|by intros [_ ->]].
  - split; [|by intros [? _]]. destruct t as [|a t]; [done|].
    apply Forall_cons in Ht as [Ha _]. simpl. intros [= <- _]. done.
Qed.

Lemma attached_starts t x y :
  is_token t →
  attached t ++ x = SPACE :: t ++ y ↔ is_punctuation (Some t) = false ∧ x = y.
Proof.
  intros [Hne Ht]. unfold attached.
  destruct (is_punctuation (Some t)) eqn:Hp.
  - split; [|by intros [? _]]. destruct t as [|a t]; [done|].
    apply Forall_cons in Ht as [Ha _]. simpl. intros [= -> _]. done.
  - simpl. split; [intros [= ?%app_inv_head]; by split|by intros [_ ->]].
Qed.

(** Tokens put together as [decode] does, against the words that they
    make up joined by single spaces: the two agree exactly when the
    tokens that go on a word are punctuation marks of [decode] and those
    that start one are none. *)
Lemma attached_in_place cur rest :
  Forall is_token cur →
  Forall (λ b, b ≠ [] ∧ Forall is_token b) rest →
  (cur ≫= attached) ++ (concat rest ≫= attached) =
    concat cur ++ (rest ≫= λ b, SPACE :: concat b) ↔
  Forall (λ t, is_punctuation (Some t) = true) cur ∧
  Forall (λ b, match b with
               | [] => True
               | t :: b' => is_punctuation (Some t) = false ∧
                            Forall (λ t, is_punctuation (Some t) = true) b'
               end) rest.
Proof.
  intros Hcur Hrest. revert cur Hcur.
  induction Hrest as [|b rest [Hb Hbt] _ IH]; intros cur Hcur.
  - induction Hcur as [|t cur Ht _ IHcur]; [done|]. csimpl.
    rewrite <- !app_assoc, attached_goes_on, IHcur, Forall_cons by done.
    tauto.
  - induction Hcur as [|t cur Ht _ IHcur].
    + destruct b as [|t b']; [done|].
      apply Forall_cons in Hbt as [Ht Hb']. csimpl.
      rewrite bind_app, <- !app_assoc, attached_starts, (IH b' Hb') by done.
      rewrite Forall_cons, Forall_nil. tauto.
    + csimpl.
      rewrite <- !app_assoc, attached_goes_on, IHcur by done.
      rewrite (Forall_cons _ t cur). tauto.
Qed.

Lemma word_tokens_spec w :
  is_token w →
  word_tokens w ≠ [] ∧ Forall is_token (word_tokens w) ∧
  concat (word_tokens w) = w.
Proof.
  intros [Hne Hw]. split_and!.
  - intros Hnil. apply Hne. rewrite <- (concat_word_tokens w) by done.
    by rewrite Hnil.
  - apply words_are_tokens.
  - by apply concat_word_tokens.
Qed.

(** The tokens of a text, put together as [decode] does, are the text
    with its whitespace normalized exactly when the tokens of its words
    stand in place. *)
Lemma format_tokens_in_place s :
  format_tokens (words (marks_spaced s)) = normalize_whitespace s ↔
  words_in_place (words s).
Proof.
  rewrite normalize_whitespace_words, words_marks_spaced_words.
  pose proof (words_are_tokens s) as Hws.
  destruct (words s) as [|w ws]; [done|].
  apply Forall_cons in Hws as [Hw Hws].
  destruct (word_tokens_spec w Hw) as (Hne & Htokens & Hconcat).
  rewrite join_space_bind. csimpl. unfold words_in_place, tokens_in_place.
  destruct (word_tokens w) as [|t cur]; [done|].
  apply Forall_cons in Htokens as [Ht Hcur].
  rewrite <- Hconcat. unfold format_tokens. simpl.
  rewrite bind_app, <- app_assoc.
  assert (ws ≫= (λ w, SPACE :: w) =
          (word_tokens <$> ws) ≫= (λ b, SPACE :: concat b)) as ->.
  { clear -Hws. induction Hws as [|x ws Hx _ IH]; [done|]. csimpl.
    destruct (word_tokens_spec x Hx) as (_ & _ & ->). by rewrite IH. }
  assert (ws ≫= word_tokens = concat (word_tokens <$> ws)) as ->.
  { clear. induction ws as [|x ws IH]; [done|]. csimpl. by rewrite IH. }
  split.
  - intros Heq%app_inv_head. apply attached_in_place in Heq as [Hc Hr]; [|done|].
    + split; [done|]. rewrite Forall_fmap in Hr.
      eapply Forall_impl; [exact Hr|]. intros x Hx. simpl in Hx.
      unfold tokens_in_place. destruct (word_tokens x); [done|]. by destruct Hx.
    + rewrite Forall_fmap. eapply Forall_impl; [exact Hws|].
      intros x Hx. simpl. by destruct (word_tokens_spec x Hx) as (? & ? & _).
  - intros [[_ Hc] Hr]. f_equal. apply attached_in_place; [done| |].
    + rewrite Forall_fmap. eapply Forall_impl; [exact Hws|].
      intros x Hx. simpl. by destruct (word_tokens_spec x Hx) as (? & ? & _).
    + split; [done|]. rewrite Forall_fmap.
      eapply Forall_impl; [exact Hr|]. intros x Hx. simpl.
      unfold tokens_in_place in Hx. destruct (word_tokens x); [done|].
      destruct Hx as [Hx ?]. split; [by apply Hx|done].
Qed.

Section TextRoundTrip.
Variable toLowerCase : jsstring → jsstring.

(** On tokens that are keys of the vocabulary and no special tokens,
    [decode] puts together what [encode] returns. *)
Lemma decode_encode_format tk text :
  let tokens := splitTextTokens toLowerCase tk text in
  after_build toLowerCase tk →
  NoDup (specialTokens tk) → js "__proto__" ∉ specialTokens tk →
  js "<CLS>" ∈ specialTokens tk → js "<SEP>" ∈ specialTokens tk →
  Forall (λ t, obj_has (vocab tk) t = true ∧ (t ∉ specialTokens tk)) tokens →
  ∃ ids, encode toLowerCase tk text = Returns (Number <$> ids) ∧
         decode tk ids = format_tokens tokens.
Proof.
  intros tokens Hb Hs Hp Hcls' Hsep' Htokens.
  destruct (after_build_special_ids toLowerCase tk Hb Hs Hp) as [Hinv Hin].
  destruct (Hin _ Hcls') as [clsId Hcls], (Hin _ Hsep') as [sepId Hsep].
  exists (clsId :: omap (obj_get (vocab tk)) tokens ++ [sepId]).
  assert (omap (contribution tk) (clsId :: omap (obj_get (vocab tk)) tokens ++ [sepId])
          = tokens) as Hc.
  { csimpl. rewrite (contribution_of_special tk (js "<CLS>")) by done.
    rewrite omap_app. csimpl.
    rewrite (contribution_of_special tk (js "<SEP>")) by done.
    rewrite app_nil_r. by apply contributions_of_tokens. }
  split.
  - unfold encode. fold tokens. unfold getTokenId in *.
    rewrite encode_tokens_covered, Hcls, Hsep.
    + csimpl. by rewrite fmap_app.
    + eapply Forall_impl; [done|]. intros t (Ht & _). unfold obj_has in Ht.
      by destruct (obj_get (vocab tk) t).
  - rewrite decode_merge, Hc. apply merge_tokens_format.
    unfold tokens. rewrite splitTextTokens_words_of. apply words_are_tokens.
Qed.

(** C6 (amended): for a tokenizer after a build, with pairwise distinct
    special tokens that include [<CLS>] and [<SEP>] but not [__proto__],
    and a text whose tokens are all keys of the vocabulary and no special
    tokens: [encode] returns numbers, and [decode] gives the
    whitespace-normalized processed text (lower-cased unless the
    tokenizer is case-sensitive) back exactly when, in the processed
    text, every token that is not the first token of its word is a
    punctuation mark of [decode], and the first token of every word but
    the first word is none. *)
Theorem decode_encode_text tk text :
  let processed := processedText toLowerCase tk text in
  let tokens := splitTextTokens toLowerCase tk text in
  after_build toLowerCase tk →
  NoDup (specialTokens tk) → js "__proto__" ∉ specialTokens tk →
  js "<CLS>" ∈ specialTokens tk → js "<SEP>" ∈ specialTokens tk →
  Forall (λ t, obj_has (vocab tk) t = true ∧ (t ∉ specialTokens tk)) tokens →
  ∃ ids, encode toLowerCase tk text = Returns (Number <$> ids) ∧
         (decode tk ids = normalize_whitespace processed ↔
          words_in_place (words processed)).
Proof.
  intros processed tokens Hb Hs Hp Hcls Hsep Htokens.
  destruct (decode_encode_format tk text Hb Hs Hp Hcls Hsep Htokens)
    as (ids & Hencode & Hdecode).
  exists ids. split; [done|]. rewrite Hdecode.
  unfold tokens. rewrite splitTextTokens_words_of.
  apply format_tokens_in_place.
Qed.
End TextRoundTrip.

(** ** The two vocabularies in every state *)

Lemma reverse_fold_is_Some (entries : list (jsstring * Z)) (rev : gmap Z (list N)) id :
  is_Some (rev !! id) →
  is_Some (fold_left (λ rev e, <[e.2 := e.1]> rev) entries rev !! id).
Proof.
  revert rev. induction entries as [|[t i] entries IH]; intros rev Hid; [done|].
  simpl. apply IH. destruct (decide (i = id)) as [->|].
  - rewrite lookup_insert_eq. by eexists.
  - by rewrite lookup_insert_ne.
Qed.

Lemma reverse_fold_elem_of (entries : list (jsstring * Z)) (rev : gmap Z (list N)) id t :
  (t, id) ∈ entries →
  is_Some (fold_left (λ rev e, <[e.2 := e.1]> rev) entries rev !! id).
Proof.
  revert rev. induction entries as [|[t' i] entries IH]; intros rev Hin.
  { by apply elem_of_nil in Hin. }
  apply elem_of_cons in Hin as [[= <- <-]|Hin]; [|by apply IH].
  simpl. apply reverse_fold_is_Some. rewrite lookup_insert_eq. by eexists.
Qed.

(** Whatever the identifiers are, every entry of the reverse vocabulary
    comes from an entry of the vocabulary, and every identifier of the
    vocabulary has an entry. *)
Lemma reverse_of_sound v :
  NoDup (obj_keys v) →
  (∀ id t, reverse_of v !! id = Some t → obj_get v t = Some id) ∧
  (∀ t id, obj_get v t = Some id →
           ∃ t', reverse_of v !! id = Some t' ∧ obj_get v t' = Some id).
Proof.
  intros Hk.
  assert (∀ id t, reverse_of v !! id = Some t → obj_get v t = Some id)
    as Hsound.
  { unfold reverse_of, obj_entries.
    intros id t [?|?]%reverse_fold_sound; [by apply obj_elem_of_get|done]. }
  split; [done|]. intros t id Hget%obj_get_elem_of.
  destruct (reverse_fold_elem_of v ∅ id t Hget) as [t' Ht']. eauto.
Qed.

Lemma number_tokens_has v l t :
  obj_has v t = true → obj_has (number_tokens v l) t = true.
Proof.
  revert v. induction l as [|x l IH]; intros v Ht; [done|].
  simpl. apply IH. rewrite obj_has_set, Ht. apply orb_true_r.
Qed.

Lemma obj_in_read (v : obj Z) t :
  obj_in v t = true → is_Some (vocab_read v t).
Proof.
  unfold obj_in, obj_has, vocab_read.
  destruct (obj_get v t); [by eexists|]. simpl. intros ->. by eexists.
Qed.

Lemma encode_tokens_values v tokens values :
  encode_tokens v tokens = Returns values →
  length values = length tokens ∧
  ∀ x, x ∈ values → ∃ t, vocab_read v t = Some x.
Proof.
  revert values. induction tokens as [|token tokens IH]; intros values; simpl.
  { intros [= <-]. split; [done|]. by intros x ?%elem_of_nil. }
  destruct (vocab_read v token) as [id|] eqn:Hid.
  - destruct (encode_tokens v tokens) as [ids|]; [|done]. intros [= <-].
    destruct (IH ids eq_refl) as [Hlen Hall]. split; [simpl; by rewrite Hlen|].
    intros x [->|Hx]%elem_of_cons; [by eexists|by apply Hall].
  - destruct (vocab_read v (js "<UNK>")) as [unkId|] eqn:Hunk; [|done].
    destruct (encode_tokens v tokens) as [ids|]; [|done]. intros [= <-].
    destruct (IH ids eq_refl) as [Hlen Hall]. split; [simpl; by rewrite Hlen|].
    intros x [->|Hx]%elem_of_cons; [by eexists|by apply Hall].
Qed.

Section Vocabularies.
Variable toLowerCase : jsstring → jsstring.

(** X13: In every state of a tokenizer, whatever its special tokens and its
    serialized data: the token that [getToken] yields for an identifier
    has this identifier in the vocabulary, and an identifier that some
    token has in the vocabulary is one that [getToken] resolves, to a
    token with this identifier. *)
Theorem reverse_vocabulary_sound tk :
  reachable toLowerCase tk →
  (∀ id t, getToken tk id = Some t → getTokenId tk t = Some (Number id)) ∧
  (∀ t id, getTokenId tk t = Some (Number id) →
           ∃ t', getToken tk id = Some t' ∧
                 getTokenId tk t' = Some (Number id)).
Proof.
  intros [[_ Hnd] Hrev]%reachable_inv.
  destruct (reverse_of_sound (vocab tk) Hnd) as [Hsound Hsome].
  unfold getToken. setoid_rewrite getTokenId_Number. rewrite Hrev.
  split; [done|]. intros t id Hget. by apply (Hsome t).
Qed.

(** X14: The numbers that [encode] returns are identifiers that [getToken]
    resolves: decoding them shows no [undefined]. *)
Theorem encode_ids_resolved tk text values :
  reachable toLowerCase tk →
  encode toLowerCase tk text = Returns values →
  ∀ id, Number id ∈ values → is_Some (getToken tk id).
Proof.
  intros [[_ Hnd] Hrev]%reachable_inv Henc id Hid.
  destruct (reverse_of_sound (vocab tk) Hnd) as [_ Hsome].
  assert (∃ t, vocab_read (vocab tk) t = Some (Number id)) as [t Ht].
  { unfold encode in Henc.
    destruct (encode_tokens (vocab tk) (splitTextTokens toLowerCase tk text))
      as [tokenIds|] eqn:Htokens; [|done].
    destruct (vocab_read (vocab tk) (js "<CLS>")) as [clsId|] eqn:Hcls; [|done].
    destruct (vocab_read (vocab tk) (js "<SEP>")) as [sepId|] eqn:Hsep; [|done].
    simplify_eq. apply encode_tokens_values in Htokens as [_ Hall].
    apply elem_of_cons in Hid as [<-|Hid]; [by eexists|].
    apply elem_of_app in Hid as [Hid|<-%list_elem_of_singleton];
      [by apply Hall|by eexists]. }
  apply vocab_read_Number in Ht.
  destruct (Hsome t id Ht) as (t' & Ht' & _).
  unfold getToken. rewrite Hrev. by eexists.
Qed.

(** X15: With pairwise distinct special tokens, after the constructor and
    after every build the identifiers are the numbers from zero up to the
    size of the vocabulary, each of them the identifier of one token. *)
Theorem identifiers_contiguous tk :
  after_build toLowerCase tk →
  NoDup (specialTokens tk) → js "__proto__" ∉ specialTokens tk →
  (∀ id, is_Some (getToken tk id) ↔ 0 ≤ id < vocabSize tk) ∧
  (∀ a b id, getTokenId tk a = Some (Number id) →
             getTokenId tk b = Some (Number id) → a = b).
Proof.
  intros Hb Hs Hp.
  destruct (after_build_numbered toLowerCase tk Hb Hs Hp)
    as (added & Hnum & Hkeys & Hrev).
  assert (inverse_vocabularies tk) as Hinv by by eapply numbered_inverse.
  destruct Hnum as (_ & Hsize & Hnum). split.
  - intros id. rewrite Hsize. split.
    + intros [t (n & -> & Hn)%Hinv%Hnum]. apply lookup_lt_Some in Hn. lia.
    + intros Hid.
      destruct (lookup_lt_is_Some_2 (specialTokens tk ++ added) (Z.to_nat id))
        as [t Ht]; [lia|].
      exists t. apply Hinv, Hnum. exists (Z.to_nat id). split; [lia|done].
  - intros a b id Ha%Hinv Hb'%Hinv. congruence.
Qed.

Lemma after_build_special_present tk t :
  after_build toLowerCase tk → t ∈ specialTokens tk →
  obj_in (vocab tk) t = true.
Proof.
  intros (tokens & _ & Hv & _)%after_build_inv Ht. unfold obj_in.
  destruct (inherited t) eqn:Hi; [apply orb_true_r|].
  rewrite Hv, number_tokens_has; [done|].
  apply obj_has_true, initializeSpecialTokens_keys. split; [done|].
  by apply inherited_false_proto.
Qed.

(** X16: After the constructor and after every build, [hasToken] holds for
    every special token, whatever the maximum size, also when the token
    is listed twice or names a member of [Object.prototype]. *)
Theorem special_tokens_present tk :
  after_build toLowerCase tk →
  Forall (λ t, hasToken tk t = true) (specialTokens tk).
Proof.
  intros Hb. apply Forall_forall. intros t Ht.
  by apply after_build_special_present.
Qed.

(** X17: After the constructor and after every build of a tokenizer whose
    special tokens include [<UNK>], [<CLS>] and [<SEP>], [encode] throws
    for no text: it returns two values more than the text has tokens. *)
Theorem encode_returns_after_build tk text :
  after_build toLowerCase tk →
  js "<UNK>" ∈ specialTokens tk → js "<CLS>" ∈ specialTokens tk →
  js "<SEP>" ∈ specialTokens tk →
  ∃ values,
    encode toLowerCase tk text = Returns values ∧
    length values = (2 + length (splitTextTokens toLowerCase tk text))%nat.
Proof.
  intros Hb Hunk Hcls Hsep.
  destruct (obj_in_read _ _ (after_build_special_present tk _ Hb Hunk))
    as [unkId HunkId].
  destruct (obj_in_read _ _ (after_build_special_present tk _ Hb Hcls))
    as [clsId HclsId].
  destruct (obj_in_read _ _ (after_build_special_present tk _ Hb Hsep))
    as [sepId HsepId].
  eexists. split; [by apply (encode_values toLowerCase tk text unkId clsId sepId)|].
  simpl. rewrite length_app, length_fmap. simpl. lia.
Qed.

(** X18: The getter [vocabulary] returns an object with the entries of the
    vocabulary, in the same order. *)
Theorem vocabulary_copy tk :
  reachable toLowerCase tk →
  vocabulary tk = vocab tk ∧
  vocabSize tk = Z.of_nat (length (obj_keys (vocabulary tk))).
Proof.
  intros [Hwf _]%reachable_inv. unfold vocabulary.
  by rewrite obj_spread_wf.
Qed.

Lemma fromJSON_toJSON_fields tk :
  reachable toLowerCase tk →
  vocab (fromJSON (toJSON tk)) = vocab tk ∧
  reverseVocab (fromJSON (toJSON tk)) = reverseVocab tk ∧
  specialTokens (fromJSON (toJSON tk)) = specialTokens tk ∧
  caseSensitive (fromJSON (toJSON tk)) = caseSensitive tk.
Proof.
  intros [Hwf Hrev]%reachable_inv. simpl.
  rewrite obj_spread_wf by done. by rewrite Hrev.
Qed.

(** X19: A tokenizer that is serialized and loaded again encodes and decodes
    as before. *)
Theorem reload_encodes_alike tk :
  reachable toLowerCase tk →
  (∀ text, encode toLowerCase (fromJSON (toJSON tk)) text =
           encode toLowerCase tk text) ∧
  (∀ ids, decode (fromJSON (toJSON tk)) ids = decode tk ids).
Proof.
  intros (Hv & Hr & Hs & Hc)%fromJSON_toJSON_fields. split.
  - intros text. unfold encode, splitTextTokens. by rewrite Hv, Hc.
  - intros ids. unfold decode. by rewrite Hr, Hs.
Qed.
End Vocabularies.

(** X20: Serializing what was loaded gives the data back. *)
Theorem toJSON_fromJSON data :
  obj_wf (json_vocab data) → toJSON (fromJSON data) = data.
Proof.
  intros Hwf. destruct data as [v s c]. unfold toJSON, fromJSON. simpl in *.
  by rewrite obj_spread_wf.
Qed.

(** ** The assignment loop and its notice *)

Lemma obj_in_assign (v : obj Z) k x t :
  obj_in v t = true → obj_in (obj_assign v k x) t = true.
Proof.
  intros Ht. destruct (obj_assign_cases v k x) as [->|[-> _]]; [|done].
  unfold obj_in in *. rewrite obj_has_set.
  destruct (obj_has v t), (inherited t); try done; by rewrite ?orb_true_r.
Qed.

Lemma assign_ids_mono tokens tk t :
  obj_in (vocab tk) t = true → obj_in (vocab (assign_ids tokens tk).1) t = true.
Proof.
  revert tk. induction tokens as [|x tokens IH]; intros tk Ht; simpl; [done|].
  destruct (limit_reached tk); [done|].
  destruct (obj_in (vocab tk) x); apply IH; [done|]. by apply obj_in_assign.
Qed.

(** A loop that is not left by [break] has looked at every token. *)
Lemma assign_ids_not_stopped tokens tk :
  (assign_ids tokens tk).2 = false →
  Forall (λ t, obj_in (vocab (assign_ids tokens tk).1) t = true) tokens.
Proof.
  revert tk. induction tokens as [|x tokens IH]; intros tk; simpl; [done|].
  destruct (limit_reached tk); [done|]. intros Hstop.
  destruct (obj_in (vocab tk) x) eqn:Hx.
  - constructor; [by apply assign_ids_mono|by apply IH].
  - constructor; [|by apply IH]. apply assign_ids_mono. simpl.
    rewrite obj_assign_new by done. unfold obj_in.
    by rewrite obj_has_set, bool_decide_eq_true_2.
Qed.

(** A loop that is left by [break] has reached the limit. *)
Lemma assign_ids_stopped tokens tk :
  (assign_ids tokens tk).2 = true → limit_reached (assign_ids tokens tk).1 = true.
Proof.
  revert tk. induction tokens as [|x tokens IH]; intros tk; simpl; [done|].
  destruct (limit_reached tk) eqn:Hlim; [done|].
  destruct (obj_in (vocab tk) x); apply IH.
Qed.

(** The loop is left by [break] exactly when the room is used up while a
    token is still to be looked at. *)
Lemma assign_ids_stopped_iff tokens tk :
  NoDup tokens →
  (assign_ids tokens tk).2 = true ↔
    ∃ n seen rest,
      room tk = Some n ∧ tokens = seen ++ rest ∧ rest ≠ [] ∧
      (n ≤ length (filter (λ t, obj_in (vocab tk) t = false) seen))%nat.
Proof.
  revert tk. induction tokens as [|x tokens IH]; intros tk Hnd; simpl.
  { split; [done|]. intros (n & seen & rest & _ & Heq & Hrest & _).
    symmetry in Heq. by apply app_eq_nil in Heq as [_ ->]. }
  apply NoDup_cons in Hnd as [Hx Hnd].
  destruct (limit_reached tk) eqn:Hlim.
  { split; [intros _|done]. apply limit_reached_room in Hlim.
    exists 0%nat, [], (x :: tokens). split_and!; [done..|simpl; lia]. }
  assert (room tk ≠ Some 0%nat) as Hroom.
  { intros Hr%limit_reached_room. congruence. }
  destruct (obj_in (vocab tk) x) eqn:Hin.
  - rewrite IH by done. split.
    + intros (n & seen & rest & Hn & -> & Hrest & Hle).
      exists n, (x :: seen), rest. split_and!; [done..|].
      by rewrite filter_cons_False by (by rewrite Hin).
    + intros (n & seen & rest & Hn & Heq & Hrest & Hle).
      destruct seen as [|y seen].
      { simpl in Hle. destruct Hroom. rewrite Hn. f_equal. lia. }
      simplify_eq/=. exists n, seen, rest. split_and!; [done..|].
      by rewrite filter_cons_False in Hle by (by rewrite Hin).
  - rewrite obj_assign_new by done.
    pose proof Hin as [Hfresh%obj_has_false _]%obj_in_false.
    pose proof (room_set_vocab tk x Hlim Hfresh) as Hstep.
    assert (∀ seen, seen ⊆ tokens →
              filter (λ t, obj_in (vocab (set_vocab tk
                             (obj_set (vocab tk) x (vocabSize tk)))) t = false)
                seen =
              filter (λ t, obj_in (vocab tk) t = false) seen) as Hsame.
    { intros seen Hseen. apply filter_ext_elem_of. intros t Ht.
      simpl. unfold obj_in. rewrite obj_has_set.
      rewrite bool_decide_eq_false_2; [done|]. intros ->. by apply Hx, Hseen. }
    rewrite IH by done. split.
    + intros (n & seen & rest & Hn & -> & Hrest & Hle).
      rewrite Hn in Hstep. simpl in Hstep.
      exists (S n), (x :: seen), rest. split_and!; [done..|].
      rewrite filter_cons_True by done. simpl.
      rewrite Hsame in Hle by (intros t ?; apply elem_of_app; by left). lia.
    + intros (n & seen & rest & Hn & Heq & Hrest & Hle).
      destruct seen as [|y seen].
      { simpl in Hle. destruct Hroom. rewrite Hn. f_equal. lia. }
      simplify_eq/=. rewrite filter_cons_True in Hle by done. simpl in Hle.
      rewrite Hn in Hstep.
      destruct (room (set_vocab tk (obj_set (vocab tk) y (vocabSize tk))))
        as [n'|] eqn:Hn'; [|done].
      simplify_eq/=. exists n', seen, rest. split_and!; [done..|].
      rewrite Hsame by (intros t ?; apply elem_of_app; by left). lia.
Qed.

Lemma occurrences_elem_of t l : (0 < occurrences t l)%nat ↔ t ∈ l.
Proof.
  unfold occurrences. induction l as [|x l IH]; simpl.
  { split; [lia|by intros ?%elem_of_nil]. }
  rewrite filter_cons, elem_of_cons. case_decide; subst; simpl.
  - split; [by left|lia].
  - rewrite IH. split; [by right|by intros [?|?]].
Qed.

Lemma ranked_before_asym l a b : ranked_before l a b → ranked_before l b a → False.
Proof. unfold ranked_before. lia. Qed.

Lemma within_limit_admits tk tokens :
  limit_admits tk tokens →
  within_limit (maxVocabSize tk)
    (length (obj_keys (vocab (initializeSpecialTokens tk))))
    (candidates tk tokens) = candidates tk tokens.
Proof.
  unfold limit_admits, within_limit, vocabSize.
  destruct (maxVocabSize tk) as [k|]; [|done].
  destruct (Z.eqb_spec k 0) as [->|Hk]; [done|].
  intros [?|Hle]; [done|]. apply take_ge. lia.
Qed.

Lemma limit_admits_perm tk tokens1 tokens2 :
  tokens1 ≡ₚ tokens2 → limit_admits tk tokens1 → limit_admits tk tokens2.
Proof.
  intros Hperm. unfold limit_admits.
  assert (length (candidates tk tokens1) = length (candidates tk tokens2)) as ->;
    [|done].
  unfold candidates. by rewrite Hperm.
Qed.

(** What a build puts into the vocabulary when the candidates are
    [tokens]. *)
Lemma numbered_keys tk tk' tokens t :
  NoDup tokens →
  vocab tk' =
    number_tokens (vocab (initializeSpecialTokens tk))
      (within_limit (maxVocabSize tk)
         (length (obj_keys (vocab (initializeSpecialTokens tk))))
         (candidates tk tokens)) →
  (is_Some (obj_get (vocab tk') t) →
   t ∈ specialTokens tk ∧ t ≠ js "__proto__" ∨ t ∈ tokens ∧ inherited t = false) ∧
  (limit_admits tk tokens →
   t ∈ specialTokens tk ∧ t ≠ js "__proto__" ∨ t ∈ tokens ∧ inherited t = false →
   is_Some (obj_get (vocab tk') t)).
Proof.
  intros Hnd Hv.
  assert (is_Some (obj_get (vocab tk') t) ↔
          t ∈ specialTokens tk ∧ t ≠ js "__proto__" ∨
          t ∈ within_limit (maxVocabSize tk)
                (length (obj_keys (vocab (initializeSpecialTokens tk))))
                (candidates tk tokens)) as Hkeys.
  { rewrite <- not_eq_None_Some, obj_get_None, Hv.
    rewrite number_tokens_keys.
    - rewrite elem_of_app, initializeSpecialTokens_keys.
      split; [apply dec_stable|tauto].
    - by apply within_limit_NoDup, candidates_NoDup.
    - intros t'. apply filter_not_special_fresh. }
  split.
  - intros [?|Hin]%Hkeys; [by left|]. right.
    eapply elem_of_prefix in Hin; [|apply within_limit_prefix].
    apply list_elem_of_filter in Hin. tauto.
  - intros Hno Ht. apply Hkeys.
    destruct (decide (t ∈ specialTokens tk ∧ t ≠ js "__proto__")) as [?|Hns];
      [by left|right].
    destruct Ht as [?|[Ht Hi]]; [done|].
    rewrite within_limit_admits by done.
    apply list_elem_of_filter. split; [|done]. split; [|done].
    intros Hs. apply Hns. split; [done|]. by apply inherited_false_proto.
Qed.

Section Builders.
Variable toLowerCase : jsstring → jsstring.

Lemma buildVocabFromInputText_loop tk text :
  let loop := assign_ids (Set_from (splitTextTokens toLowerCase tk text))
                (initializeSpecialTokens tk) in
  buildVocabFromInputText toLowerCase tk text =
    (buildReverseVocabFromVocab loop.1,
     if loop.2 then [LimitReached (maxVocabSize tk)] else []).
Proof.
  intros loop. unfold buildVocabFromInputText.
  change (splitTextTokens toLowerCase (initializeSpecialTokens tk) text)
    with (splitTextTokens toLowerCase tk text).
  destruct (assign_ids_fields (Set_from (splitTextTokens toLowerCase tk text))
              (initializeSpecialTokens tk)) as (_ & _ & _ & Hm).
  fold loop in Hm |- *. destruct loop as [tk1 stopped]. simpl in *.
  by rewrite Hm.
Qed.

(** X21: The notice of [buildVocabFromInputText]: there is at most one, and it
    names the configured maximum.  Without a notice every token of the
    text is in the vocabulary object; with a notice a maximum is in force
    and the vocabulary has reached it.  The notice is given exactly when
    the room that the special tokens leave is used up while a unique
    token of the text is still to be looked at, whether or not that token
    would get an identifier. *)
Theorem limit_notice tk text :
  let result := buildVocabFromInputText toLowerCase tk text in
  let tokens := splitTextTokens toLowerCase tk text in
  (result.2 = [] ∨ result.2 = [LimitReached (maxVocabSize tk)]) ∧
  (result.2 = [] → Forall (λ t, hasToken result.1 t = true) tokens) ∧
  (result.2 ≠ [] →
   ∃ k, maxVocabSize tk = Some k ∧ k ≠ 0 ∧ k ≤ vocabSize result.1) ∧
  (result.2 ≠ [] ↔
   ∃ n seen rest,
     room (initializeSpecialTokens tk) = Some n ∧
     Set_from tokens = seen ++ rest ∧ rest ≠ [] ∧
     (n ≤ length (candidates tk seen))%nat).
Proof.
  intros result tokens. unfold result.
  rewrite buildVocabFromInputText_loop. fold tokens.
  pose proof (assign_ids_not_stopped (Set_from tokens)
                (initializeSpecialTokens tk)) as Hall.
  pose proof (assign_ids_stopped (Set_from tokens)
                (initializeSpecialTokens tk)) as Hlim.
  pose proof (assign_ids_stopped_iff (Set_from tokens)
                (initializeSpecialTokens tk) (Set_from_NoDup _)) as Hiff.
  destruct (assign_ids_fields (Set_from tokens) (initializeSpecialTokens tk))
    as (_ & _ & _ & Hm).
  destruct (assign_ids (Set_from tokens) (initializeSpecialTokens tk))
    as [tk1 stopped]. simpl in *.
  split_and!.
  - destruct stopped; [by right|by left].
  - destruct stopped; [done|]. intros _. specialize (Hall eq_refl).
    rewrite Forall_forall in Hall. apply Forall_forall. intros t Ht.
    by apply Hall, Set_from_elem_of.
  - destruct stopped; [|done]. intros _. specialize (Hlim eq_refl).
    unfold limit_reached in Hlim. rewrite Hm in Hlim.
    destruct (maxVocabSize tk) as [k|]; [|done]. exists k.
    apply andb_true_iff in Hlim as [Hk%negb_true_iff%Z.eqb_neq Hle%Z.leb_le].
    done.
  - assert (∀ seen, filter (λ t, obj_in (set_each_index (specialTokens tk) 0 [])
                                   t = false) seen = candidates tk seen)
      as Hcand.
    { intros seen. apply filter_ext_elem_of. intros t _.
      apply (initializeSpecialTokens_in tk). }
    setoid_rewrite Hcand in Hiff. rewrite <- Hiff. by destruct stopped.
Qed.

Lemma by_frequency_perm tk texts :
  by_frequency (corpus_counts toLowerCase tk texts) ≡ₚ
    Set_from (corpus_tokens toLowerCase tk texts).
Proof.
  unfold by_frequency. by rewrite Array_sort_perm, corpus_counts_keys.
Qed.

Lemma by_frequency_elem_of tk texts t :
  t ∈ by_frequency (corpus_counts toLowerCase tk texts) ↔
    t ∈ corpus_tokens toLowerCase tk texts.
Proof.
  unfold by_frequency. rewrite Array_sort_perm, corpus_counts_keys.
  apply Set_from_elem_of.
Qed.

Lemma buildVocabFromCorpus_vocab tk texts :
  vocab (buildVocabFromCorpus toLowerCase tk texts) =
    number_tokens (vocab (initializeSpecialTokens tk))
      (within_limit (maxVocabSize tk)
         (length (obj_keys (vocab (initializeSpecialTokens tk))))
         (candidates tk (by_frequency (corpus_counts toLowerCase tk texts)))).
Proof. apply (assign_ids_after_specials tk), by_frequency_NoDup. Qed.

Lemma buildVocabFromInputText_vocab tk text :
  vocab (buildVocabFromInputText toLowerCase tk text).1 =
    number_tokens (vocab (initializeSpecialTokens tk))
      (within_limit (maxVocabSize tk)
         (length (obj_keys (vocab (initializeSpecialTokens tk))))
         (candidates tk (Set_from (splitTextTokens toLowerCase tk text)))).
Proof.
  rewrite buildVocabFromInputText_state.
  apply (assign_ids_after_specials tk), Set_from_NoDup.
Qed.

(** X22: The tokens with an identifier after a build are special tokens or
    tokens of the input, and nothing else; when the maximum size admits
    them, they are all the special tokens and all the tokens of the
    input, apart from the names that the vocabulary object inherits. *)
Theorem build_covers_input tk t :
  (∀ text,
     let tk' := (buildVocabFromInputText toLowerCase tk text).1 in
     let tokens := splitTextTokens toLowerCase tk text in
     let covered :=
       t ∈ specialTokens tk ∧ t ≠ js "__proto__" ∨
       t ∈ tokens ∧ inherited t = false in
     ((∃ id, getTokenId tk' t = Some (Number id)) → covered) ∧
     (limit_admits tk (Set_from tokens) → covered →
      ∃ id, getTokenId tk' t = Some (Number id))) ∧
  (∀ texts,
     let tk' := buildVocabFromCorpus toLowerCase tk texts in
     let tokens := corpus_tokens toLowerCase tk texts in
     let covered :=
       t ∈ specialTokens tk ∧ t ≠ js "__proto__" ∨
       t ∈ tokens ∧ inherited t = false in
     ((∃ id, getTokenId tk' t = Some (Number id)) → covered) ∧
     (limit_admits tk (Set_from tokens) → covered →
      ∃ id, getTokenId tk' t = Some (Number id))).
Proof.
  split.
  - intros text tk' tokens covered. unfold covered.
    setoid_rewrite getTokenId_Number.
    rewrite <- (Set_from_elem_of tokens).
    apply (numbered_keys tk tk'); [apply Set_from_NoDup|].
    apply buildVocabFromInputText_vocab.
  - intros texts tk' tokens covered. unfold covered, tokens.
    setoid_rewrite getTokenId_Number.
    rewrite <- by_frequency_elem_of.
    destruct (numbered_keys tk tk'
                (by_frequency (corpus_counts toLowerCase tk texts)) t)
      as [Hsound Hcomplete];
      [apply by_frequency_NoDup|apply buildVocabFromCorpus_vocab|].
    split; [done|]. intros Hadmits. apply Hcomplete.
    eapply limit_admits_perm; [|exact Hadmits].
    symmetry. apply by_frequency_perm.
Qed.

(** X23: The maximum size keeps the tokens that rank first: after
    [buildVocabFromCorpus], a token that ranks before a token with an
    identifier has an identifier as well, and a smaller one. *)
Theorem corpus_limit_keeps_most_frequent tk texts a b ida :
  let tk' := buildVocabFromCorpus toLowerCase tk texts in
  a ∉ specialTokens tk → b ∉ specialTokens tk → inherited b = false →
  getTokenId tk' a = Some (Number ida) →
  ranked_before (corpus_tokens toLowerCase tk texts) b a →
  ∃ idb, getTokenId tk' b = Some (Number idb) ∧ idb < ida.
Proof.
  intros tk' Ha Hb Hib Hida Hrank.
  set (sorted := by_frequency (corpus_counts toLowerCase tk texts)).
  set (v0 := vocab (initializeSpecialTokens tk)).
  set (added := within_limit (maxVocabSize tk) (length (obj_keys v0))
                  (candidates tk sorted)).
  assert (vocab tk' = number_tokens v0 added) as Hv
    by apply buildVocabFromCorpus_vocab.
  assert (NoDup added) as Hnd.
  { apply within_limit_NoDup, candidates_NoDup, by_frequency_NoDup. }
  assert (∀ t, t ∈ added → t ∉ obj_keys v0) as Hfresh.
  { intros t. apply filter_not_special_fresh. }
  destruct (within_limit_prefix (maxVocabSize tk) (length (obj_keys v0))
              (candidates tk sorted)) as [rest Hrest].
  fold added in Hrest.
  apply getTokenId_Number in Hida. rewrite Hv in Hida.
  assert (a ∈ added) as [na Hna]%list_elem_of_lookup.
  { destruct (decide (a ∈ added)) as [?|Hout]; [done|].
    rewrite number_tokens_get_old in Hida by done.
    apply obj_get_elem_of, (list_elem_of_fmap_2 fst) in Hida.
    by apply initializeSpecialTokens_keys in Hida as [? _]. }
  rewrite (number_tokens_get_new v0 added na a) in Hida by done.
  assert (a ∈ corpus_tokens toLowerCase tk texts) as Hain.
  { apply by_frequency_elem_of. fold sorted.
    assert (a ∈ candidates tk sorted) as Hc.
    { rewrite Hrest. apply elem_of_app. left. by eapply list_elem_of_lookup_2. }
    by apply list_elem_of_filter in Hc as [_ ?]. }
  assert (b ∈ candidates tk sorted) as [nb Hnb]%list_elem_of_lookup.
  { apply list_elem_of_filter. split; [done|].
    apply by_frequency_elem_of, occurrences_elem_of.
    apply occurrences_elem_of in Hain. unfold ranked_before in Hrank. lia. }
  assert (StronglySorted (ranked_before (corpus_tokens toLowerCase tk texts))
            (candidates tk sorted)) as Hsorted.
  { eapply StronglySorted_sublist; [apply candidates_sublist|].
    apply by_frequency_ranked. }
  assert (candidates tk sorted !! na = Some a) as Hna'.
  { rewrite Hrest. by apply lookup_app_l_Some. }
  destruct (Nat.lt_trichotomy nb na) as [Hlt|[->|Hgt]].
  - assert (added !! nb = Some b) as Hb'.
    { rewrite Hrest in Hnb. rewrite lookup_app_l in Hnb; [done|].
      apply lookup_lt_Some in Hna. lia. }
    exists (Z.of_nat (length (obj_keys v0) + nb)). split; [|simplify_eq; lia].
    apply getTokenId_Number. rewrite Hv.
    by apply number_tokens_get_new.
  - simplify_eq. by destruct (ranked_before_asym _ _ _ Hrank Hrank).
  - exfalso.
    apply (ranked_before_asym (corpus_tokens toLowerCase tk texts) a b); [|done].
    by apply (StronglySorted_lookup _ (candidates tk sorted) na nb).
Qed.
End Builders.

(** ** Builds from nothing and from divided texts *)

Section EmptyInput.
Variable toLowerCase : jsstring → jsstring.

Lemma splitTextTokens_nil tk text :
  Forall (λ c, is_whitespace c = true) (processedText toLowerCase tk text) →
  splitTextTokens toLowerCase tk text = [].
Proof.
  intros Hws. rewrite splitTextTokens_words_of.
  rewrite marks_spaced_markless; [by apply words_whitespace|].
  eapply Forall_impl; [exact Hws|]. apply whitespace_not_split_mark.
Qed.

(** X24: A build from nothing: from a text that is empty or whitespace once
    processed, and from an empty corpus, the vocabulary holds the special
    tokens only, as after the constructor, and no notice is given. *)
Theorem build_from_nothing tk :
  (∀ text,
     Forall (λ c, is_whitespace c = true) (processedText toLowerCase tk text) →
     buildVocabFromInputText toLowerCase tk text = (initializeSpecialTokens tk, [])) ∧
  buildVocabFromCorpus toLowerCase tk [] = initializeSpecialTokens tk.
Proof.
  split; [|done]. intros text Hws.
  rewrite buildVocabFromInputText_loop, splitTextTokens_nil by done.
  done.
Qed.

(** X25: The vocabulary that [buildVocabFromCorpus] builds depends on the
    sequence of the tokens of all texts only, not on where one text ends
    and the next one starts. *)
Theorem corpus_text_boundaries tk texts1 texts2 :
  corpus_tokens toLowerCase tk texts1 = corpus_tokens toLowerCase tk texts2 →
  buildVocabFromCorpus toLowerCase tk texts1 =
    buildVocabFromCorpus toLowerCase tk texts2.
Proof.
  intros Heq. unfold buildVocabFromCorpus, corpus_counts.
  rewrite !count_texts_eq.
  change (corpus_tokens toLowerCase (initializeSpecialTokens tk))
    with (corpus_tokens toLowerCase tk).
  by rewrite Heq.
Qed.
End EmptyInput.

(** ** Building and using *)

Section BuildAndUse.
Variable toLowerCase : jsstring → jsstring.

(** A tokenizer whose vocabulary covers the tokens of a text gives the
    text back, token by token. *)
Lemma decode_encode_covered tk text :
  let tokens := splitTextTokens toLowerCase tk text in
  after_build toLowerCase tk →
  NoDup (specialTokens tk) → js "__proto__" ∉ specialTokens tk →
  js "<UNK>" ∈ specialTokens tk → js "<CLS>" ∈ specialTokens tk →
  js "<SEP>" ∈ specialTokens tk →
  Forall (λ t, obj_has (vocab tk) t = true ∧ (t ∉ specialTokens tk)) tokens →
  ∃ ids,
    encode toLowerCase tk text = Returns (Number <$> ids) ∧
    decode tk ids = format_tokens tokens.
Proof.
  intros tokens Hb Hs Hp Hunk Hcls Hsep Htokens.
  destruct (decode_encode_tokens toLowerCase tk text Hb Hs Hp Hunk Hcls Hsep)
    as (ids & Henc & Hdec).
  { eapply Forall_impl; [exact Htokens|]. intros t [? _]. by left. }
  exists ids. split; [done|]. rewrite Hdec. fold tokens. f_equal.
  clear -Htokens. induction Htokens as [|t ts [? ?] _ IH]; [done|].
  by rewrite filter_cons_True, IH.
Qed.

Lemma decode_encode_built tk text tk' :
  let tokens := splitTextTokens toLowerCase tk text in
  NoDup (specialTokens tk) → js "__proto__" ∉ specialTokens tk →
  js "<UNK>" ∈ specialTokens tk → js "<CLS>" ∈ specialTokens tk →
  js "<SEP>" ∈ specialTokens tk →
  Forall (λ t, inherited t = false ∧ (t ∉ specialTokens tk)) tokens →
  after_build toLowerCase tk' →
  specialTokens tk' = specialTokens tk →
  caseSensitive tk' = caseSensitive tk →
  (∀ t, t ∈ tokens → inherited t = false → is_Some (obj_get (vocab tk') t)) →
  ∃ ids,
    encode toLowerCase tk' text = Returns (Number <$> ids) ∧
    decode tk' ids = format_tokens tokens.
Proof.
  intros tokens Hs Hp Hunk Hcls Hsep Htokens Hb Hs' Hc Hcov.
  assert (splitTextTokens toLowerCase tk' text = tokens) as Hsplit.
  { unfold tokens, splitTextTokens. by rewrite Hc. }
  rewrite <- Hsplit. apply decode_encode_covered; rewrite ?Hs'; try done.
  rewrite Hsplit. rewrite Forall_forall in Htokens. apply Forall_forall.
  intros t Ht. destruct (Htokens t Ht) as [Hi Hns]. split; [|done].
  unfold obj_has. by destruct (Hcov t Ht Hi) as [id ->].
Qed.

Lemma decode_encode_text_build tk text :
  let tokens := splitTextTokens toLowerCase tk text in
  let tk' := (buildVocabFromInputText toLowerCase tk text).1 in
  NoDup (specialTokens tk) → js "__proto__" ∉ specialTokens tk →
  js "<UNK>" ∈ specialTokens tk → js "<CLS>" ∈ specialTokens tk →
  js "<SEP>" ∈ specialTokens tk →
  Forall (λ t, inherited t = false ∧ (t ∉ specialTokens tk)) tokens →
  limit_admits tk (Set_from tokens) →
  ∃ ids,
    encode toLowerCase tk' text = Returns (Number <$> ids) ∧
    decode tk' ids = format_tokens tokens.
Proof.
  intros tokens tk' Hs Hp Hunk Hcls Hsep Htokens Hadmits.
  destruct (buildVocabFromInputText_fields toLowerCase tk text)
    as (? & ? & _).
  apply (decode_encode_built tk text tk'); try done;
    [apply after_buildVocabFromInputText|].
  intros t Ht Hi.
  eapply (numbered_keys tk _ (Set_from tokens) t);
    [apply Set_from_NoDup|apply buildVocabFromInputText_vocab|done|].
  right. split; [by apply Set_from_elem_of|done].
Qed.

Lemma decode_encode_corpus_build tk text texts :
  let tokens := splitTextTokens toLowerCase tk text in
  let tk' := buildVocabFromCorpus toLowerCase tk texts in
  NoDup (specialTokens tk) → js "__proto__" ∉ specialTokens tk →
  js "<UNK>" ∈ specialTokens tk → js "<CLS>" ∈ specialTokens tk →
  js "<SEP>" ∈ specialTokens tk →
  Forall (λ t, inherited t = false ∧ (t ∉ specialTokens tk)) tokens →
  text ∈ texts →
  limit_admits tk (Set_from (corpus_tokens toLowerCase tk texts)) →
  ∃ ids,
    encode toLowerCase tk' text = Returns (Number <$> ids) ∧
    decode tk' ids = format_tokens tokens.
Proof.
  intros tokens tk' Hs Hp Hunk Hcls Hsep Htokens Hin Hadmits.
  destruct (buildVocabFromCorpus_fields toLowerCase tk texts)
    as (? & ? & _).
  apply (decode_encode_built tk text tk'); try done;
    [apply after_buildVocabFromCorpus|].
  intros t Ht Hi.
  eapply (numbered_keys tk _
            (by_frequency (corpus_counts toLowerCase tk texts)) t);
    [apply by_frequency_NoDup|apply buildVocabFromCorpus_vocab| |].
  - eapply limit_admits_perm; [|exact Hadmits].
    symmetry. apply by_frequency_perm.
  - right. split; [|done]. apply by_frequency_elem_of.
    unfold corpus_tokens. apply list_elem_of_bind. by exists text.
Qed.

(** X26: Building and using: after [buildVocabFromInputText] on a text, or
    [buildVocabFromCorpus] on texts that include it, with a maximum size
    that admits all tokens and pairwise distinct special tokens that
    include [<UNK>], [<CLS>] and [<SEP>], and for a text whose tokens are
    no special tokens and no names that the vocabulary object inherits:
    [encode] returns numbers, and [decode] makes of them the tokens of
    the text, every punctuation mark right behind the text before it and
    every other token behind one space. *)
Theorem round_trip_after_build tk text :
  let tokens := splitTextTokens toLowerCase tk text in
  NoDup (specialTokens tk) → js "__proto__" ∉ specialTokens tk →
  js "<UNK>" ∈ specialTokens tk → js "<CLS>" ∈ specialTokens tk →
  js "<SEP>" ∈ specialTokens tk →
  Forall (λ t, inherited t = false ∧ (t ∉ specialTokens tk)) tokens →
  (limit_admits tk (Set_from tokens) →
   let tk' := (buildVocabFromInputText toLowerCase tk text).1 in
   ∃ ids,
     encode toLowerCase tk' text = Returns (Number <$> ids) ∧
     decode tk' ids = format_tokens tokens) ∧
  (∀ texts,
     text ∈ texts →
     limit_admits tk (Set_from (corpus_tokens toLowerCase tk texts)) →
     let tk' := buildVocabFromCorpus toLowerCase tk texts in
     ∃ ids,
       encode toLowerCase tk' text = Returns (Number <$> ids) ∧
       decode tk' ids = format_tokens tokens).
Proof.
  intros tokens Hs Hp Hunk Hcls Hsep Htokens. split.
  - intros Hadmits tk'. by apply decode_encode_text_build.
  - intros texts Hin Hadmits tk'. by apply decode_encode_corpus_build.
Qed.
End BuildAndUse.

(** ** The component that uses the tokenizer *)

Lemma decode_values_numbers tk (ids : list Z) :
  decode_values tk (Number <$> ids) = decode tk ids.
Proof.
  unfold decode_values, decode. by rewrite <- list_fmap_compose.
Qed.

Lemma guard_error_falsy message :
  message ∈ guard_errors → truthy message = false → message = None.
Proof.
  unfold guard_errors. intros Hin Hf.
  repeat (apply elem_of_cons in Hin as [->|Hin]; [done|]).
  by apply elem_of_nil in Hin.
Qed.

Section AppFacts.
Variable toLowerCase : jsstring → jsstring.

Lemma new_CustomTokenizer_App_tokenizer o :
  App_tokenizer toLowerCase (new_CustomTokenizer o).
Proof. split; [apply after_constructor|done]. Qed.

Lemma buildVocabFromInputText_App_tokenizer tk text :
  App_tokenizer toLowerCase tk →
  App_tokenizer toLowerCase (buildVocabFromInputText toLowerCase tk text).1.
Proof.
  intros [_ Hs]. split; [apply after_buildVocabFromInputText|].
  destruct (buildVocabFromInputText_fields toLowerCase tk text) as (-> & _).
  done.
Qed.

Lemma buildVocabFromCorpus_App_tokenizer tk texts :
  App_tokenizer toLowerCase tk →
  App_tokenizer toLowerCase (buildVocabFromCorpus toLowerCase tk texts).
Proof.
  intros [_ Hs]. split; [apply after_buildVocabFromCorpus|].
  destruct (buildVocabFromCorpus_fields toLowerCase tk texts) as (-> & _).
  done.
Qed.

(** [encode] does not throw on a tokenizer of the component. *)
Lemma App_tokenizer_encode tk text :
  App_tokenizer toLowerCase tk →
  ∃ values, encode toLowerCase tk text = Returns values ∧ values ≠ [].
Proof.
  intros [Hb Hs].
  assert (∀ t, t ∈ default_specialTokens → is_Some (getTokenId tk t)) as Hin.
  { intros t Ht. apply obj_in_read.
    apply (after_build_special_present toLowerCase); [done|]. by rewrite Hs. }
  destruct (Hin (js "<UNK>")) as [unkId Hunk];
    [apply (bool_decide_unpack _); by vm_compute|].
  destruct (Hin (js "<CLS>")) as [clsId Hcls];
    [apply (bool_decide_unpack _); by vm_compute|].
  destruct (Hin (js "<SEP>")) as [sepId Hsep];
    [apply (bool_decide_unpack _); by vm_compute|].
  eexists. split;
    [by apply (encode_values toLowerCase tk text unkId clsId sepId)|done].
Qed.

Lemma App_invariant_initial : App_invariant toLowerCase initial_App.
Proof.
  split_and!.
  - left.
  - repeat constructor; apply after_constructor.
  - by eexists.
  - constructor.
  - done.
Qed.

Lemma App_invariant_set_error app message :
  message ∈ guard_errors →
  App_invariant toLowerCase app →
  App_invariant toLowerCase (with_state app (set_error message (state app))).
Proof. intros Hm (He & Htk & Hlast & Hw & Hp). by split_and!. Qed.

Lemma App_invariant_inputText app value :
  App_invariant toLowerCase app →
  App_invariant toLowerCase (with_inputText app value).
Proof. intros (He & Htk & Hlast & Hw & Hp). by split_and!. Qed.

Lemma App_invariant_await app c :
  closed_over c = tokenizer app →
  App_invariant toLowerCase app →
  App_invariant toLowerCase (await c app).
Proof.
  intros Hc (He & Htk & (tk & Hlast & Hcs & Hm) & Hw & Hp).
  split_and!; simpl; [left|done|by eexists| |].
  - apply Forall_app. split; [done|]. constructor; [|done].
    rewrite Hc. by apply lookup_lt_Some in Hlast.
  - intros _. by destruct (waiting app).
Qed.

Lemma App_invariant_setTokenizerOptions app o :
  App_invariant toLowerCase app →
  App_invariant toLowerCase (setTokenizerOptions o app).
Proof.
  intros (He & Htk & Hlast & Hw & Hp). split_and!; simpl; [done| | | |done].
  - apply Forall_app. split; [done|]. constructor; [|done].
    apply new_CustomTokenizer_App_tokenizer.
  - exists (new_CustomTokenizer o). split; [|done]. unfold tokenizer. simpl.
    rewrite length_app. simpl. rewrite Nat.add_1_r. simpl.
    by rewrite lookup_app_r, Nat.sub_diag by lia.
  - eapply Forall_impl; [exact Hw|]. intros c Hc. simpl in Hc.
    rewrite length_app. simpl. lia.
Qed.

Lemma App_invariant_handleInputChange app value :
  App_invariant toLowerCase app →
  App_invariant toLowerCase (handleInputChange value app).
Proof.
  intros Hinv. unfold handleInputChange. destruct (truthy _).
  - apply (App_invariant_set_error (with_inputText app value)); [left|].
    by apply App_invariant_inputText.
  - by apply App_invariant_inputText.
Qed.

Lemma App_invariant_clearAll app :
  App_invariant toLowerCase app → App_invariant toLowerCase (clearAll app).
Proof. intros (He & Htk & Hlast & Hw & Hp). split_and!; simpl; [left|done..]. Qed.

(** The state after a continuation that has set a tokenizer of the
    component and a state that is no longer processing. *)
Lemma App_invariant_set_tokenizer app i c r tk tk' ws s :
  waiting app !! i = Some c → closed_over c = r →
  tokenizers app !! r = Some tk →
  App_tokenizer toLowerCase tk' →
  caseSensitive tk' = caseSensitive tk → maxVocabSize tk' = maxVocabSize tk →
  error s = error (state app) → isProcessing s = false →
  App_invariant toLowerCase app →
  App_invariant toLowerCase (set_tokenizer (without_waiting app i) r tk' ws s).
Proof.
  intros Hi Hc Hr Htk' Hcs' Hm' Herr Hproc (He & Htk & (tk0 & Hlast & Hcs & Hm) & Hw & Hp).
  split_and!; simpl.
  - by rewrite Herr.
  - by apply Forall_insert.
  - unfold tokenizer in *. simpl. rewrite length_insert.
    destruct (decide (r = pred (length (tokenizers app)))) as [->|Hne].
    + exists tk'. rewrite list_lookup_insert_eq by by apply lookup_lt_Some in Hr.
      simplify_eq. by rewrite Hcs', Hm'.
    + exists tk0. by rewrite list_lookup_insert_ne.
  - rewrite length_insert. by apply Forall_delete.
  - by rewrite Hproc.
Qed.

Lemma App_invariant_resumed app i s :
  error s ∈ guard_errors → isProcessing s = false →
  App_invariant toLowerCase app →
  App_invariant toLowerCase (with_state (without_waiting app i) s).
Proof.
  intros Herr Hproc (He & Htk & Hlast & Hw & Hp).
  split_and!; simpl; [done..| |by rewrite Hproc].
  by apply Forall_delete.
Qed.

Lemma App_invariant_resume app i c :
  waiting app !! i = Some c →
  App_invariant toLowerCase app →
  App_invariant toLowerCase (resume toLowerCase c (without_waiting app i)).
Proof.
  intros Hi Hinv. pose proof Hinv as (He & Htk & Hlast & Hw & Hp).
  assert (closed_over c < length (tokenizers app))%nat as Hlt.
  { rewrite Forall_forall in Hw. by eapply Hw, list_elem_of_lookup_2. }
  destruct (lookup_lt_is_Some_2 _ _ Hlt) as [tk Hr].
  assert (App_tokenizer toLowerCase tk) as Htk0.
  { rewrite Forall_forall in Htk. by eapply Htk, list_elem_of_lookup_2. }
  destruct c as [r text|r text|r text|r enc]; simpl in *; rewrite Hr.
  - destruct (buildVocabFromInputText toLowerCase tk text) as [tk' ws] eqn:Hb.
    pose proof (buildVocabFromInputText_App_tokenizer tk text Htk0) as Htk'.
    destruct (buildVocabFromInputText_fields toLowerCase tk text)
      as (_ & Hcs & Hm & _).
    rewrite Hb in Htk', Hcs, Hm. simpl in *.
    by eapply (App_invariant_set_tokenizer app i).
  - pose proof (buildVocabFromCorpus_App_tokenizer tk
                  (if is_blank text then SAMPLE_TEXTS else SAMPLE_TEXTS ++ [text])
                  Htk0) as Htk'.
    destruct (buildVocabFromCorpus_fields toLowerCase tk
                (if is_blank text then SAMPLE_TEXTS else SAMPLE_TEXTS ++ [text]))
      as (_ & Hcs & Hm & _).
    by eapply (App_invariant_set_tokenizer app i).
  - destruct (App_tokenizer_encode tk text Htk0) as (values & -> & _).
    by apply App_invariant_resumed.
  - by apply App_invariant_resumed.
Qed.

Lemma App_invariant_handle app e :
  App_invariant toLowerCase app →
  App_invariant toLowerCase (handle toLowerCase app e).
Proof.
  intros Hinv. destruct e as [value|value|checked|parsed| | | | | |i]; simpl.
  - by apply App_invariant_handleInputChange.
  - case_bool_decide; [done|]. by apply App_invariant_handleInputChange.
  - by apply App_invariant_setTokenizerOptions.
  - by apply App_invariant_setTokenizerOptions.
  - destruct (isProcessing (state app)); [done|]. unfold buildVocab.
    destruct (is_blank _).
    + apply App_invariant_set_error; [|done]. right. left.
    + by apply App_invariant_await.
  - destruct (isProcessing (state app)); [done|].
    by apply App_invariant_await.
  - destruct (isProcessing (state app)); [done|]. unfold encodeInputText.
    destruct (is_blank _).
    { apply App_invariant_set_error; [|done]. do 2 right. left. }
    case_bool_decide.
    { apply App_invariant_set_error; [|done]. do 3 right. left. }
    by apply App_invariant_await.
  - destruct (isProcessing (state app)); [done|]. unfold decodeEncodedTokens.
    case_bool_decide.
    { apply App_invariant_set_error; [|done]. do 4 right. left. }
    by apply App_invariant_await.
  - by apply App_invariant_clearAll.
  - destruct (waiting app !! i) as [c|] eqn:Hi; [|done].
    by apply App_invariant_resume.
Qed.

Lemma App_invariant_run events app :
  App_invariant toLowerCase app →
  App_invariant toLowerCase (run toLowerCase events app).
Proof.
  revert app. induction events as [|e events IH]; intros app Hinv; [done|].
  simpl. by apply IH, App_invariant_handle.
Qed.

(** X27: Whatever the events and their order, the error that the
    component shows is [null] or the report of one of the four guards of
    its handlers: no handler ever catches an exception of the tokenizer. *)
Theorem App_shows_guard_errors_only events :
  error (state (run toLowerCase events initial_App)) ∈ guard_errors.
Proof.
  by destruct (App_invariant_run events initial_App App_invariant_initial)
    as (He & _).
Qed.
End AppFacts.

Lemma new_CustomTokenizer_vocab o :
  vocab (new_CustomTokenizer o) =
    [(js "<PAD>", 0); (js "<UNK>", 1); (js "<CLS>", 2); (js "<SEP>", 3)].
Proof. reflexivity. Qed.

Lemma limit_admits_config tk tk' tokens :
  specialTokens tk' = specialTokens tk → maxVocabSize tk' = maxVocabSize tk →
  limit_admits tk tokens → limit_admits tk' tokens.
Proof.
  unfold limit_admits, candidates, vocabSize, initializeSpecialTokens.
  simpl. by intros -> ->.
Qed.

Lemma lookup_memoized {A} (l : list A) (x : A) :
  (l ++ [x]) !! pred (length (l ++ [x])) = Some x.
Proof.
  rewrite length_app. simpl. rewrite Nat.add_1_r. simpl.
  by rewrite lookup_app_r, Nat.sub_diag by lia.
Qed.

Section AppScenarios.
Variable toLowerCase : jsstring → jsstring.

Lemma splitTextTokens_config tk tk' text :
  caseSensitive tk' = caseSensitive tk →
  splitTextTokens toLowerCase tk' text = splitTextTokens toLowerCase tk text.
Proof. unfold splitTextTokens. by intros ->. Qed.

Lemma corpus_tokens_config tk tk' texts :
  caseSensitive tk' = caseSensitive tk →
  corpus_tokens toLowerCase tk' texts = corpus_tokens toLowerCase tk texts.
Proof.
  intros Hcs. unfold corpus_tokens.
  induction texts as [|text texts IH]; [done|].
  csimpl. by rewrite IH, (splitTextTokens_config tk tk').
Qed.

Lemma run_app events1 events2 app :
  run toLowerCase (events1 ++ events2) app =
    run toLowerCase events2 (run toLowerCase events1 app).
Proof. apply fold_left_app. Qed.

Lemma App_tokenizer_vocabulary tk :
  App_tokenizer toLowerCase tk →
  vocabulary tk = vocab tk ∧ length (obj_keys (vocab tk)) ≠ 0%nat.
Proof.
  intros [Hb Hs]. split.
  - destruct (reachable_inv toLowerCase tk) as [Hwf _]; [by constructor|].
    unfold vocabulary. by rewrite obj_spread_wf.
  - assert (obj_in (vocab tk) (js "<PAD>") = true) as Hin.
    { apply (after_build_special_present toLowerCase); [done|].
      rewrite Hs. left. }
    unfold obj_in in Hin. apply orb_true_iff in Hin as [Hin|Hin]; [|done].
    apply obj_has_true in Hin. destruct (obj_keys (vocab tk)); [|done].
    by apply elem_of_nil in Hin.
Qed.

(** A new tokenizer knows the special tokens only: every other token
    encodes as [<UNK>]. *)
Lemma new_CustomTokenizer_encode o text :
  let tk := new_CustomTokenizer o in
  Forall (λ t, inherited t = false ∧ (t ∉ default_specialTokens))
    (splitTextTokens toLowerCase tk text) →
  encode toLowerCase tk text =
    Returns (Number 2 ::
             replicate (length (splitTextTokens toLowerCase tk text)) (Number 1)
             ++ [Number 3]).
Proof.
  intros tk Htokens.
  rewrite (encode_values toLowerCase tk text (Number 1) (Number 2) (Number 3))
    by done.
  do 3 f_equal. induction Htokens as [|t ts [Hi Ht] _ IH]; [done|].
  csimpl. rewrite IH. f_equal.
  unfold getTokenId, vocab_read. rewrite Hi.
  assert (obj_get (vocab tk) t = None) as ->; [|done].
  apply obj_get_None. unfold tk. rewrite new_CustomTokenizer_vocab.
  exact Ht.
Qed.

(** Typing clears what a guard has reported. *)
Lemma App_input_step txt o v enc dec err tks w con text :
  err ∈ guard_errors →
  handle toLowerCase
    {| inputText := txt; tokenizerOptions := o;
       state := {| state_vocab := v; encoded := enc; decoded := dec;
                   error := err; isProcessing := false |};
       tokenizers := tks; waiting := w; console := con |}
    (InputChanged text) =
  {| inputText := text; tokenizerOptions := o;
     state := {| state_vocab := v; encoded := enc; decoded := dec;
                 error := None; isProcessing := false |};
     tokenizers := tks; waiting := w; console := con |}.
Proof.
  intros He. simpl. unfold handleInputChange. simpl.
  destruct (truthy err) eqn:Htruthy; [done|].
  by rewrite (guard_error_falsy err He Htruthy).
Qed.

(** [Build Vocabulary] and its timer, with nothing else waiting. *)
Lemma App_buildVocab_step text o v enc dec err tks con tk :
  is_blank text = false →
  tks !! pred (length tks) = Some tk →
  handle toLowerCase
    (handle toLowerCase
       {| inputText := text; tokenizerOptions := o;
          state := {| state_vocab := v; encoded := enc; decoded := dec;
                      error := err; isProcessing := false |};
          tokenizers := tks; waiting := []; console := con |}
       BuildVocabularyClicked)
    (TimerFired 0) =
  let built := buildVocabFromInputText toLowerCase tk text in
  {| inputText := text; tokenizerOptions := o;
     state := {| state_vocab := vocabulary built.1; encoded := [];
                 decoded := []; error := None; isProcessing := false |};
     tokenizers := <[pred (length tks) := built.1]> tks; waiting := [];
     console := con ++ built.2 |}.
Proof.
  intros Hblank Htk. simpl. unfold buildVocab. simpl. rewrite Hblank.
  unfold await, tokenizer. simpl. unfold without_waiting. simpl.
  rewrite Htk. by destruct (buildVocabFromInputText toLowerCase tk text).
Qed.

(** [Encode Text] and its timer, with nothing else waiting. *)
Lemma App_encode_step text o v enc dec err tks con tk :
  is_blank text = false → length (obj_keys v) ≠ 0%nat →
  tks !! pred (length tks) = Some tk →
  handle toLowerCase
    (handle toLowerCase
       {| inputText := text; tokenizerOptions := o;
          state := {| state_vocab := v; encoded := enc; decoded := dec;
                      error := err; isProcessing := false |};
          tokenizers := tks; waiting := []; console := con |}
       EncodeTextClicked)
    (TimerFired 0) =
  match encode toLowerCase tk text with
  | Returns encodedTokens =>
      {| inputText := text; tokenizerOptions := o;
         state := {| state_vocab := v; encoded := encodedTokens;
                     decoded := []; error := None; isProcessing := false |};
         tokenizers := tks; waiting := []; console := con |}
  | Throws message =>
      {| inputText := text; tokenizerOptions := o;
         state := {| state_vocab := v; encoded := enc; decoded := dec;
                     error := Some message; isProcessing := false |};
         tokenizers := tks; waiting := []; console := con |}
  end.
Proof.
  intros Hblank Hkeys Htk. simpl. unfold encodeInputText. simpl.
  rewrite Hblank. rewrite bool_decide_eq_false_2 by done.
  unfold await, tokenizer. simpl. unfold without_waiting. simpl.
  rewrite Htk. by destruct (encode toLowerCase tk text).
Qed.

(** [Decode Tokens] and its timer, with nothing else waiting. *)
Lemma App_decode_step text o v enc dec err tks con tk :
  length enc ≠ 0%nat →
  tks !! pred (length tks) = Some tk →
  handle toLowerCase
    (handle toLowerCase
       {| inputText := text; tokenizerOptions := o;
          state := {| state_vocab := v; encoded := enc; decoded := dec;
                      error := err; isProcessing := false |};
          tokenizers := tks; waiting := []; console := con |}
       DecodeTokensClicked)
    (TimerFired 0) =
  {| inputText := text; tokenizerOptions := o;
     state := {| state_vocab := v; encoded := enc;
                 decoded := decode_values tk enc; error := None;
                 isProcessing := false |};
     tokenizers := tks; waiting := []; console := con |}.
Proof.
  intros Henc Htk. simpl. unfold decodeEncodedTokens. simpl.
  rewrite bool_decide_eq_false_2 by done.
  unfold await, tokenizer. simpl. unfold without_waiting. simpl.
  by rewrite Htk.
Qed.

(** After an event that sets the options, the component still shows the
    vocabulary that was built before, but its tokenizer is a new one. *)
Lemma options_change_step app e text :
  let app' :=
    run toLowerCase [e; InputChanged text; EncodeTextClicked; TimerFired 0] app in
  let tk := new_CustomTokenizer (tokenizerOptions app') in
  App_invariant toLowerCase app → waiting app = [] →
  sets_options e = true →
  state_vocab (state app) ≠ [] → is_blank text = false →
  state_vocab (state app') = state_vocab (state app) ∧
  match encode toLowerCase tk text with
  | Returns encodedTokens =>
      error (state app') = None ∧ encoded (state app') = encodedTokens
  | Throws message => error (state app') = Some message
  end.
Proof.
  destruct app as [txt o0 [v enc dec err proc] tks w con].
  intros app' tk (He & Htk & Hlast & Hw & Hp) Hwait He' Hvocab Hblank.
  simpl in He, Hp, Hwait, Hvocab. subst w.
  assert (proc = false) as ->.
  { destruct proc; [|done]. by destruct Hp. }
  set (app := Build_App _ _ _ _ _ _) in *.
  assert (∃ o, handle toLowerCase app e = setTokenizerOptions o app)
    as [o Ho].
  { destruct e; try done; by eexists. }
  subst app' tk. unfold run. cbn [fold_left]. rewrite Ho.
  assert (length (obj_keys v) ≠ 0%nat) as Hkeys.
  { destruct v; [done|]. unfold obj_keys. simpl. lia. }
  unfold app, setTokenizerOptions.
  cbn [inputText tokenizerOptions state tokenizers waiting console].
  rewrite App_input_step by done.
  rewrite (App_encode_step _ _ _ _ _ _ _ _ (new_CustomTokenizer o))
    by (done || apply lookup_memoized).
  destruct (encode toLowerCase (new_CustomTokenizer o) text) eqn:Hencode;
    cbn [tokenizerOptions state state_vocab error encoded];
    by rewrite Hencode.
Qed.

(** [Build from Corpus] and its timer, with nothing else waiting. *)
Lemma App_buildVocabFromCorpus_step text o v enc dec err tks con tk :
  is_blank text = false →
  tks !! pred (length tks) = Some tk →
  handle toLowerCase
    (handle toLowerCase
       {| inputText := text; tokenizerOptions := o;
          state := {| state_vocab := v; encoded := enc; decoded := dec;
                      error := err; isProcessing := false |};
          tokenizers := tks; waiting := []; console := con |}
       BuildFromCorpusClicked)
    (TimerFired 0) =
  let built := buildVocabFromCorpus toLowerCase tk (SAMPLE_TEXTS ++ [text]) in
  {| inputText := text; tokenizerOptions := o;
     state := {| state_vocab := vocabulary built; encoded := [];
                 decoded := []; error := None; isProcessing := false |};
     tokenizers := <[pred (length tks) := built]> tks; waiting := [];
     console := con ++ [] |}.
Proof.
  intros Hblank Htk. simpl. unfold App_buildVocabFromCorpus.
  unfold await, tokenizer. simpl. unfold without_waiting. simpl.
  by rewrite Htk, Hblank.
Qed.

(** Encoding and decoding with a memoized tokenizer that encodes the text
    as numbers, each time after the timer of the step before has fired. *)
Lemma App_encode_decode_steps text o enc dec err tks con tk ids :
  is_blank text = false →
  App_tokenizer toLowerCase tk →
  tks !! pred (length tks) = Some tk →
  encode toLowerCase tk text = Returns (Number <$> ids) →
  let app' :=
    run toLowerCase
      [EncodeTextClicked; TimerFired 0; DecodeTokensClicked; TimerFired 0]
      {| inputText := text; tokenizerOptions := o;
         state := {| state_vocab := vocabulary tk; encoded := enc;
                     decoded := dec; error := err; isProcessing := false |};
         tokenizers := tks; waiting := []; console := con |} in
  error (state app') = None ∧ decoded (state app') = decode tk ids.
Proof.
  intros Hblank Htk Hlast Hencode.
  destruct (App_tokenizer_vocabulary tk Htk) as [Hcopy Hkeys].
  unfold run. cbn [fold_left].
  rewrite (App_encode_step _ _ _ _ _ _ _ _ tk) by (done || by rewrite Hcopy).
  rewrite Hencode.
  rewrite (App_decode_step _ _ _ _ _ _ _ _ tk); [| |done].
  - cbn [state error decoded]. by rewrite decode_values_numbers.
  - destruct (App_tokenizer_encode toLowerCase tk text Htk)
      as (values & Hvalues & Hne).
    rewrite Hencode in Hvalues. injection Hvalues as <-.
    by destruct ids.
Qed.

Lemma lookup_insert_memoized {A} (l : list A) (x y : A) :
  l !! pred (length l) = Some x →
  <[pred (length l) := y]> l !! pred (length (<[pred (length l) := y]> l)) =
    Some y.
Proof.
  intros Hlast. rewrite length_insert. apply list_lookup_insert_eq.
  by apply lookup_lt_Some in Hlast.
Qed.

(** Typing a text, building the vocabulary from it or from the corpus,
    encoding and decoding, each time after the timer of the step before has
    fired. *)
Lemma App_build_encode_decode app text build :
  let tk := new_CustomTokenizer (tokenizerOptions app) in
  let tokens := splitTextTokens toLowerCase tk text in
  let app' :=
    run toLowerCase
      [InputChanged text; build; TimerFired 0;
       EncodeTextClicked; TimerFired 0; DecodeTokensClicked; TimerFired 0]
      app in
  App_invariant toLowerCase app → waiting app = [] →
  is_blank text = false →
  Forall (λ t, inherited t = false ∧ (t ∉ default_specialTokens)) tokens →
  (build = BuildVocabularyClicked ∧ limit_admits tk (Set_from tokens)) ∨
  (build = BuildFromCorpusClicked ∧
   limit_admits tk
     (Set_from (corpus_tokens toLowerCase tk (SAMPLE_TEXTS ++ [text])))) →
  error (state app') = None ∧ decoded (state app') = format_tokens tokens.
Proof.
  destruct app as [txt o [v enc dec err proc] tks w con].
  intros tk tokens app' (He & Htk & (tk0 & Hlast & Hcs & Hm) & Hw & Hp)
    Hwait Hblank Htokens Hlimit.
  simpl in He, Hp, Hwait, Hcs, Hm, tk. subst w.
  assert (proc = false) as ->.
  { destruct proc; [|done]. by destruct Hp. }
  unfold tokenizer in Hlast. simpl in Hlast.
  assert (App_tokenizer toLowerCase tk0) as Htk0.
  { rewrite Forall_forall in Htk. by eapply Htk, list_elem_of_lookup_2. }
  pose proof Htk0 as [_ Hs0].
  assert (splitTextTokens toLowerCase tk0 text = tokens) as Hsplit.
  { by apply splitTextTokens_config. }
  assert (NoDup (specialTokens tk0) ∧ (js "__proto__" ∉ specialTokens tk0) ∧
          js "<UNK>" ∈ specialTokens tk0 ∧ js "<CLS>" ∈ specialTokens tk0 ∧
          js "<SEP>" ∈ specialTokens tk0) as (Hs1 & Hs2 & Hs3 & Hs4 & Hs5).
  { rewrite Hs0. split_and!; by apply (bool_decide_unpack _). }
  subst app'. change (?a :: ?b :: ?c :: ?l) with ([a; b; c] ++ l).
  rewrite run_app.
  change (run toLowerCase [?a; ?b; ?c] ?x)
    with (handle toLowerCase (handle toLowerCase (handle toLowerCase x a) b) c).
  rewrite App_input_step by done.
  destruct Hlimit as [[-> Hlimit]|[-> Hlimit]].
  - pose proof (buildVocabFromInputText_App_tokenizer toLowerCase tk0 text Htk0)
      as Htk1.
    destruct (decode_encode_text_build toLowerCase tk0 text)
      as (ids & Hencode & Hdecode); [done..|by rewrite Hsplit, Hs0| |].
    { rewrite Hsplit. by apply (limit_admits_config tk). }
    rewrite Hsplit in Hdecode.
    rewrite (App_buildVocab_step _ _ _ _ _ _ _ _ tk0) by done. cbv zeta.
    rewrite <- Hdecode.
    apply App_encode_decode_steps; [done..| |done].
    by eapply lookup_insert_memoized.
  - pose proof (buildVocabFromCorpus_App_tokenizer toLowerCase tk0
                  (SAMPLE_TEXTS ++ [text]) Htk0) as Htk1.
    destruct (decode_encode_corpus_build toLowerCase tk0 text
                (SAMPLE_TEXTS ++ [text]))
      as (ids & Hencode & Hdecode); [done..|by rewrite Hsplit, Hs0| | |].
    { apply elem_of_app. right. left. }
    { rewrite (corpus_tokens_config tk tk0) by done.
      by apply (limit_admits_config tk). }
    rewrite Hsplit in Hdecode.
    rewrite (App_buildVocabFromCorpus_step _ _ _ _ _ _ _ _ tk0) by done.
    cbv zeta. rewrite <- Hdecode.
    apply App_encode_decode_steps; [done..| |done].
    by eapply lookup_insert_memoized.
Qed.
End AppScenarios.

Section AppProperties.
Variable toLowerCase : jsstring → jsstring.

(** X28: When an option is set after a vocabulary has been built, the
    component goes on showing that vocabulary, but its tokenizer is a new
    one that knows the special tokens only: the text that is typed and
    encoded next comes out as [<CLS>], one [<UNK>] for every token and
    [<SEP>], without any error. *)
Theorem App_options_forget_vocabulary events e text :
  let app := run toLowerCase events initial_App in
  let app' :=
    run toLowerCase [e; InputChanged text; EncodeTextClicked; TimerFired 0] app in
  let tokens :=
    splitTextTokens toLowerCase (new_CustomTokenizer (tokenizerOptions app'))
      text in
  waiting app = [] → sets_options e = true →
  state_vocab (state app) ≠ [] → is_blank text = false →
  Forall (λ t, inherited t = false ∧ (t ∉ default_specialTokens)) tokens →
  state_vocab (state app') = state_vocab (state app) ∧
  error (state app') = None ∧
  encoded (state app') =
    Number 2 :: replicate (length tokens) (Number 1) ++ [Number 3].
Proof.
  intros app app' tokens Hwait He Hvocab Hblank Htokens.
  pose proof (options_change_step toLowerCase app e text
                (App_invariant_run toLowerCase events initial_App
                   (App_invariant_initial toLowerCase))
                Hwait He Hvocab Hblank) as [Hv Hencode].
  split; [done|]. fold app' in Hencode.
  by rewrite new_CustomTokenizer_encode in Hencode.
Qed.

(** X29: From any idle state of the component, typing a text, building
    the vocabulary from it, encoding and decoding, each click after the
    timer of the click before has fired, shows no error and shows as
    decoded text the tokens of the text in the format of [decode], when
    no token is a special token or a name that objects inherit and the
    maximum size admits the tokens. *)
Theorem App_build_encode_decode_text events text :
  let app := run toLowerCase events initial_App in
  let tk := new_CustomTokenizer (tokenizerOptions app) in
  let tokens := splitTextTokens toLowerCase tk text in
  let app' :=
    run toLowerCase
      [InputChanged text; BuildVocabularyClicked; TimerFired 0;
       EncodeTextClicked; TimerFired 0; DecodeTokensClicked; TimerFired 0]
      app in
  waiting app = [] → is_blank text = false →
  Forall (λ t, inherited t = false ∧ (t ∉ default_specialTokens)) tokens →
  limit_admits tk (Set_from tokens) →
  error (state app') = None ∧ decoded (state app') = format_tokens tokens.
Proof.
  intros app tk tokens app' Hwait Hblank Htokens Hlimit.
  apply App_build_encode_decode; [|done..|by left].
  apply App_invariant_run, App_invariant_initial.
Qed.

(** X30: The same with [Build from Corpus], which builds from the sample
    texts followed by the text typed: the decoded text shown is the
    formatted tokens of the text, when the maximum size admits the tokens
    of the whole corpus. *)
Theorem App_build_encode_decode_corpus events text :
  let app := run toLowerCase events initial_App in
  let tk := new_CustomTokenizer (tokenizerOptions app) in
  let tokens := splitTextTokens toLowerCase tk text in
  let app' :=
    run toLowerCase
      [InputChanged text; BuildFromCorpusClicked; TimerFired 0;
       EncodeTextClicked; TimerFired 0; DecodeTokensClicked; TimerFired 0]
      app in
  waiting app = [] → is_blank text = false →
  Forall (λ t, inherited t = false ∧ (t ∉ default_specialTokens)) tokens →
  limit_admits tk
    (Set_from (corpus_tokens toLowerCase tk (SAMPLE_TEXTS ++ [text]))) →
  error (state app') = None ∧ decoded (state app') = format_tokens tokens.
Proof.
  intros app tk tokens app' Hwait Hblank Htokens Hlimit.
  apply App_build_encode_decode; [|done..|by right].
  apply App_invariant_run, App_invariant_initial.
Qed.
End AppProperties.

(** * The claims on concrete tokenizers *)

Ltac by_evaluation := apply (bool_decide_unpack _); vm_compute; exact I.

Example hello_world_vocab :
  vocab hello_world =
    [(js "<PAD>", 0); (js "<UNK>", 1); (js "<CLS>", 2); (js "<SEP>", 3);
     (js "hello", 4); (js "world", 5); (js "!", 6)].
Proof. reflexivity. Qed.

Example hello_world_encode :
  encode ascii_toLowerCase hello_world (js "Hello there!") =
    Returns (Number <$> [2; 4; 1; 6; 3]).
Proof. reflexivity. Qed.

Example hello_world_decode : decode hello_world [2; 4; 6; 3] = js "hello!".
Proof. reflexivity. Qed.

(** Array-index keys are enumerated first, in ascending order. *)
Example numeric_tokens_first :
  obj_keys (vocab (buildVocabFromInputText ascii_toLowerCase
                     (constructor default_options) (js "b 12 3")).1) =
    [js "3"; js "12"; js "<PAD>"; js "<UNK>"; js "<CLS>"; js "<SEP>"; js "b"].
Proof. reflexivity. Qed.

(** A zero maximum is no maximum. *)
Example zero_limit_is_no_limit :
  vocabSize (buildVocabFromInputText ascii_toLowerCase
               (constructor (limited_options 0)) (js "a b c")).1 = 7.
Proof. reflexivity. Qed.

(** [encode] looks for the literal names, whatever the configured ones. *)
Example encode_with_bracket_names :
  let tk := (buildVocabFromInputText ascii_toLowerCase
               (constructor bracket_options) (js "hello")).1 in
  getTokenId tk (js "[CLS]") = Some (Number 2) ∧
  getTokenId tk (js "[SEP]") = Some (Number 3) ∧
  encode ascii_toLowerCase tk (js "hello") =
    Throws "Required special tokens (CLS, SEP) not found in vocabulary".
Proof. by vm_compute. Qed.

(** A special token that is configured twice leaves its first position
    unused, and the next token takes an identifier that is in use. *)
Example repeated_special_token_collides :
  vocab (buildVocabFromInputText ascii_toLowerCase
           (constructor repeated_options) (js "b")).1 = [(js "a", 1); (js "b", 1)].
Proof. reflexivity. Qed.

(** A token that names a member of [Object.prototype] is in the vocabulary
    object before it is built, and gets no identifier. *)
Example inherited_name_not_numbered :
  vocab (buildVocabFromInputText ascii_toLowerCase
           (constructor default_options) (js "constructor b")).1 =
    [(js "<PAD>", 0); (js "<UNK>", 1); (js "<CLS>", 2); (js "<SEP>", 3);
     (js "b", 4)].
Proof. reflexivity. Qed.

(** The special token [__proto__] is not stored, and the next one comes
    after a gap. *)
Example proto_special_token_dropped :
  vocab (constructor (options (Some [js "__proto__"; js "<UNK>"]) None None)) =
    [(js "<UNK>", 1)].
Proof. reflexivity. Qed.

(** C1, counterexample: with the maximum size 5 the second token of the
    text gets no identifier. *)
Lemma limit_leaves_tokens_out :
  ¬ all_tokens_numbered ascii_toLowerCase (constructor (limited_options 5))
      (js "a b").
Proof. intros (_ & Hsize & _). vm_compute in Hsize. discriminate. Qed.

Lemma buildVocabFromInputText_numbered_witness :
  let tk := constructor (limited_options 6) in
  let text := js "Hello world! Hello again" in
  NoDup (specialTokens tk) ∧ (js "__proto__" ∉ specialTokens tk) ∧
  Forall (λ t, inherited t = false) (splitTextTokens ascii_toLowerCase tk text) ∧
  numbered_as (buildVocabFromInputText ascii_toLowerCase tk text).1
    (default_specialTokens ++ [js "hello"; js "world"]).
Proof.
  split_and!; [by_evaluation..|].
  exact (buildVocabFromInputText_numbered ascii_toLowerCase
           (constructor (limited_options 6)) (js "Hello world! Hello again")
           ltac:(by_evaluation) ltac:(by_evaluation) ltac:(by_evaluation)).
Defined.

(** C3, the failing input: the token [constructor] has no identifier, and
    [encode] returns the inherited member of that name in place of the
    identifier of [<UNK>]. *)
Lemma encode_returns_inherited_member :
  getTokenId hello_world (js "<UNK>") = Some (Number 1) ∧
  obj_has (vocab hello_world) (js "constructor") = false ∧
  encode ascii_toLowerCase hello_world (js "constructor") =
    Returns [Number 2; Member (js "constructor"); Number 3].
Proof. by vm_compute. Qed.

Lemma encode_wraps_token_ids_witness :
  getTokenId hello_world (js "<UNK>") = Some (Number 1) ∧
  getTokenId hello_world (js "<CLS>") = Some (Number 2) ∧
  getTokenId hello_world (js "<SEP>") = Some (Number 3) ∧
  Forall (λ t, inherited t = false)
    (splitTextTokens ascii_toLowerCase hello_world (js "Hello there!")) ∧
  ∃ ids,
    encode ascii_toLowerCase hello_world (js "Hello there!") =
      Returns (Number <$> ids) ∧
    ids = 2 :: ((λ token, default 1 (obj_get (vocab hello_world) token)) <$>
                  splitTextTokens ascii_toLowerCase hello_world (js "Hello there!"))
            ++ [3] ∧
    head ids = Some 2 ∧ last ids = Some 3 ∧
    length ids =
      (2 + length (splitTextTokens ascii_toLowerCase hello_world
                     (js "Hello there!")))%nat.
Proof.
  split_and!; [reflexivity..|by_evaluation|].
  exact (encode_wraps_token_ids ascii_toLowerCase hello_world
           (js "Hello there!") 1 2 3 eq_refl eq_refl eq_refl
           ltac:(by_evaluation)).
Defined.

(** C4, counterexample: the vocabulary has no entry for the configured
    token [<UNK>], and [encode] returns. *)
Lemma encode_returns_without_unknown :
  let tk := fromJSON data_without_unknown in
  js "<UNK>" ∈ specialTokens tk ∧ getTokenId tk (js "<UNK>") = None ∧
  encode ascii_toLowerCase tk (js "a") = Returns (Number <$> [0; 2; 1]).
Proof. split_and!; [by_evaluation|reflexivity..]. Qed.

(** C5, counterexample: after a build with a special token that is
    configured twice, the reverse vocabulary maps the identifier of the
    special token to another token. *)
Lemma repeated_special_token_breaks_inverse :
  ¬ inverse_vocabularies
      (buildVocabFromInputText ascii_toLowerCase (constructor repeated_options)
         (js "b")).1.
Proof.
  intros Hinv. destruct (Hinv (js "a") 1) as [Hget _].
  specialize (Hget eq_refl). vm_compute in Hget. discriminate.
Qed.

Lemma reverse_vocabulary_inverse_witness :
  after_build ascii_toLowerCase hello_world ∧ NoDup (specialTokens hello_world) ∧
  (js "__proto__" ∉ specialTokens hello_world) ∧
  inverse_vocabularies hello_world.
Proof.
  assert (after_build ascii_toLowerCase hello_world) as Hb
    by exact (after_buildVocabFromInputText _ _ _).
  assert (NoDup (specialTokens hello_world)) as Hs by by_evaluation.
  assert (js "__proto__" ∉ specialTokens hello_world) as Hp by by_evaluation.
  split_and!; [done..|].
  exact (reverse_vocabulary_inverse ascii_toLowerCase hello_world Hb Hs Hp).
Defined.

(** C6, counterexample: an apostrophe comes back with a space after it. *)
Lemma apostrophe_not_restored :
  let tk := (buildVocabFromInputText ascii_toLowerCase
               (constructor default_options) (js "it's")).1 in
  encode ascii_toLowerCase tk (js "it's") = Returns (Number <$> [2; 4; 5; 6; 3]) ∧
  decode tk [2; 4; 5; 6; 3] = js "it' s" ∧
  js "it' s" ≠ normalize_whitespace (ascii_toLowerCase (js "it's")).
Proof. split_and!; [reflexivity..|]. by vm_compute. Qed.

(** A mark before a word comes back with a space after it, and a lone
    hyphen, which is a punctuation mark for [decode] only, comes back
    without the space before it. *)
Example marks_out_of_place :
  let restored text :=
    let tk := (buildVocabFromInputText ascii_toLowerCase
                 (constructor default_options) text).1 in
    match encode ascii_toLowerCase tk text with
    | Returns [Number 2; Number a; Number b; Number c; Number 3] =>
        decode tk [2; a; b; c; 3]
    | _ => []
    end in
  restored (js "(really)") = js "( really)" ∧
  restored (js "a - b") = js "a- b".
Proof. split; reflexivity. Qed.

Lemma decode_encode_text_witness :
  let text := js "  Hello,   big world!  Is it you?" in
  let tk := (buildVocabFromInputText ascii_toLowerCase
               (constructor default_options) text).1 in
  let processed := processedText ascii_toLowerCase tk text in
  (∃ ids, encode ascii_toLowerCase tk text = Returns (Number <$> ids) ∧
          (decode tk ids = normalize_whitespace processed ↔
           words_in_place (words processed))) ∧
  words_in_place (words processed) ∧
  normalize_whitespace processed = js "hello, big world! is it you?".
Proof.
  intros text tk processed. split; [|split; [by_evaluation|by vm_compute]].
  exact (decode_encode_text ascii_toLowerCase tk text
           (after_buildVocabFromInputText _ _ _)
           ltac:(by_evaluation) ltac:(by_evaluation) ltac:(by_evaluation)
           ltac:(by_evaluation) ltac:(by_evaluation)).
Defined.


Lemma decode_contributions_witness :
  let ids := [2; 4; 99; 5; 3] in
  Forall (λ w, is_word w = true) (omap (contribution hello_world) ids) ∧
  decode hello_world ids = js "hello undefined world".
Proof.
  intros ids.
  assert (Forall (λ w, is_word w = true) (omap (contribution hello_world) ids))
    as Hwords by by_evaluation.
  split; [done|].
  exact (proj2 (decode_contributions hello_world ids) Hwords).
Defined.

Lemma fromJSON_toJSON_witness :
  let tk := (buildVocabFromInputText ascii_toLowerCase
               (constructor (limited_options 6)) (js "Hello world! 7 times")).1 in
  reachable ascii_toLowerCase tk ∧
  vocab (fromJSON (toJSON tk)) = vocab tk ∧
  reverseVocab (fromJSON (toJSON tk)) = reverseVocab tk ∧
  specialTokens (fromJSON (toJSON tk)) = specialTokens tk ∧
  caseSensitive (fromJSON (toJSON tk)) = caseSensitive tk ∧
  maxVocabSize (fromJSON (toJSON tk)) = None.
Proof.
  intros tk.
  assert (reachable ascii_toLowerCase tk) as Hr.
  { apply reachable_built. exact (after_buildVocabFromInputText _ _ _). }
  split; [done|]. exact (fromJSON_toJSON ascii_toLowerCase tk Hr).
Defined.

(** C10, counterexample: a special token that is configured twice does not
    have its first position as identifier. *)
Lemma repeated_special_token_out_of_place :
  ¬ specials_in_place (constructor repeated_options).
Proof. intros H. specialize (H 0%nat (js "a") eq_refl). discriminate. Qed.

Lemma special_tokens_in_place_witness :
  let tk := (buildVocabFromInputText ascii_toLowerCase
               (constructor (limited_options 2)) (js "Hello world!")).1 in
  after_build ascii_toLowerCase tk ∧ NoDup (specialTokens tk) ∧
  (js "__proto__" ∉ specialTokens tk) ∧ specials_in_place tk ∧
  2 < vocabSize tk.
Proof.
  intros tk.
  assert (after_build ascii_toLowerCase tk) as Hb
    by exact (after_buildVocabFromInputText _ _ _).
  assert (NoDup (specialTokens tk)) as Hs by by_evaluation.
  assert (js "__proto__" ∉ specialTokens tk) as Hp by by_evaluation.
  destruct (special_tokens_in_place ascii_toLowerCase tk Hb Hs Hp)
    as (Hplace & Hsize & _).
  split_and!; [done..|]. apply Hsize; [done|]. by_evaluation.
Defined.

(** C2, the failing input: the token [constructor] occurs more often
    than any other token of the corpus and is no special token, but the
    vocabulary object inherits a member of that name, so that the token
    gets no identifier; the next token in the ranking gets the first
    free one. *)
Lemma corpus_skips_inherited_name :
  let tk := constructor default_options in
  let texts := [js "constructor constructor b"] in
  let tk' := buildVocabFromCorpus ascii_toLowerCase tk texts in
  corpus_tokens ascii_toLowerCase tk texts =
    [js "constructor"; js "constructor"; js "b"] ∧
  (js "constructor" ∉ specialTokens tk) ∧
  ranked_before (corpus_tokens ascii_toLowerCase tk texts)
    (js "constructor") (js "b") ∧
  vocab tk' =
    [(js "<PAD>", 0); (js "<UNK>", 1); (js "<CLS>", 2); (js "<SEP>", 3);
     (js "b", 4)] ∧
  getTokenId tk' (js "constructor") = Some (Member (js "constructor")) ∧
  getTokenId tk' (js "b") = Some (Number 4).
Proof.
  intros tk texts tk'. split_and!; [reflexivity|by_evaluation| |reflexivity..].
  left. vm_compute. lia.
Qed.

Lemma corpus_ids_by_frequency_witness :
  let texts := [js "a b b"; js "b c"] in
  let tk := constructor default_options in
  ranked_before (corpus_tokens ascii_toLowerCase tk texts) (js "a") (js "c") ∧
  getTokenId (buildVocabFromCorpus ascii_toLowerCase tk texts) (js "b") =
    Some (Number 4).
Proof.
  intros texts tk.
  destruct (corpus_ids_by_frequency ascii_toLowerCase) as [Hrank Hexample].
  split.
  - apply (Hrank tk texts (js "a") (js "c") 5 6);
      [by_evaluation|by_evaluation|reflexivity|reflexivity|done].
  - apply Hexample; reflexivity.
Defined.

Lemma splitTextTokens_whitespace_witness :
  Forall (λ c, is_whitespace c = true)
    (processedText ascii_toLowerCase hello_world [32; 9; 10; 160]%N) ∧
  splitTextTokens ascii_toLowerCase hello_world [32; 9; 10; 160]%N = [].
Proof.
  assert (Forall (λ c, is_whitespace c = true)
            (processedText ascii_toLowerCase hello_world [32; 9; 10; 160]%N))
    as Hws by by_evaluation.
  split; [done|].
  exact (splitTextTokens_whitespace ascii_toLowerCase hello_world _ Hws).
Defined.

Lemma splitTextTokens_app_witness :
  let a := js "Hello," in
  let b := js "World" in
  is_whitespace 9%N = true ∧
  processedText ascii_toLowerCase hello_world (a ++ 9%N :: b) =
    processedText ascii_toLowerCase hello_world a ++
      9%N :: processedText ascii_toLowerCase hello_world b ∧
  splitTextTokens ascii_toLowerCase hello_world (a ++ 9%N :: b) =
    splitTextTokens ascii_toLowerCase hello_world a ++
      splitTextTokens ascii_toLowerCase hello_world b.
Proof.
  intros a b. split_and!; [reflexivity..|].
  exact (splitTextTokens_app ascii_toLowerCase hello_world a 9%N b
           eq_refl eq_refl).
Defined.

Lemma splitTextTokens_join_witness :
  let tokens := splitTextTokens ascii_toLowerCase hello_world (js "Hello,  world!") in
  processedText ascii_toLowerCase hello_world (join_space tokens) =
    join_space tokens ∧
  splitTextTokens ascii_toLowerCase hello_world (js "hello , world !") =
    [js "hello"; js ","; js "world"; js "!"].
Proof.
  intros tokens. split; [reflexivity|].
  exact (splitTextTokens_join ascii_toLowerCase hello_world
           (js "Hello,  world!") eq_refl).
Defined.

Lemma decode_format_witness :
  let ids := [2; 4; 6; 99; 5; 3] in
  Forall is_token (omap (contribution hello_world) ids) ∧
  decode hello_world ids = js "hello! undefined world".
Proof.
  intros ids.
  assert (Forall is_token (omap (contribution hello_world) ids)) as Htokens.
  { repeat constructor; by_evaluation. }
  split; [done|]. exact (decode_format hello_world ids Htokens).
Defined.

Lemma decode_encode_known_tokens_witness :
  let tk := (buildVocabFromInputText ascii_toLowerCase
               (constructor default_options) (js "Hello, world!")).1 in
  ∃ ids,
    encode ascii_toLowerCase tk (js "Hello, big world!") = Returns (Number <$> ids) ∧
    decode tk ids = js "hello, world!".
Proof.
  intros tk.
  exact (decode_encode_known_tokens ascii_toLowerCase tk (js "Hello, big world!")
           (after_buildVocabFromInputText _ _ _)
           ltac:(by_evaluation) ltac:(by_evaluation) ltac:(by_evaluation)
           ltac:(by_evaluation) ltac:(by_evaluation) ltac:(by_evaluation)).
Defined.

Lemma encode_decode_encode_witness :
  let text := js "It's (almost) done, isn't it?" in
  let tk := (buildVocabFromInputText ascii_toLowerCase
               (constructor default_options) text).1 in
  ∃ ids,
    encode ascii_toLowerCase tk text = Returns (Number <$> ids) ∧
    encode ascii_toLowerCase tk (decode tk ids) = Returns (Number <$> ids).
Proof.
  intros text tk.
  exact (encode_decode_encode ascii_toLowerCase tk text
           (after_buildVocabFromInputText _ _ _)
           ltac:(by_evaluation) ltac:(by_evaluation) ltac:(by_evaluation)
           ltac:(by_evaluation) ltac:(by_evaluation) ltac:(by_evaluation)
           eq_refl).
Defined.

Lemma reverse_vocabulary_sound_witness :
  let tk := (buildVocabFromInputText ascii_toLowerCase
               (constructor repeated_options) (js "b")).1 in
  reachable ascii_toLowerCase tk ∧
  (∀ id t, getToken tk id = Some t → getTokenId tk t = Some (Number id)).
Proof.
  intros tk.
  assert (reachable ascii_toLowerCase tk) as Hr.
  { apply reachable_built. exact (after_buildVocabFromInputText _ _ _). }
  split; [done|].
  exact (proj1 (reverse_vocabulary_sound ascii_toLowerCase tk Hr)).
Defined.

Lemma encode_ids_resolved_witness :
  reachable ascii_toLowerCase hello_world ∧
  encode ascii_toLowerCase hello_world (js "Hello there!") =
    Returns (Number <$> [2; 4; 1; 6; 3]) ∧
  ∀ id, Number id ∈ Number <$> [2; 4; 1; 6; 3] → is_Some (getToken hello_world id).
Proof.
  assert (reachable ascii_toLowerCase hello_world) as Hr.
  { apply reachable_built. exact (after_buildVocabFromInputText _ _ _). }
  split_and!; [done|reflexivity|].
  exact (encode_ids_resolved ascii_toLowerCase hello_world (js "Hello there!")
           _ Hr eq_refl).
Defined.

Lemma identifiers_contiguous_witness :
  after_build ascii_toLowerCase hello_world ∧ NoDup (specialTokens hello_world) ∧
  (js "__proto__" ∉ specialTokens hello_world) ∧
  ∀ id, is_Some (getToken hello_world id) ↔ 0 ≤ id < 7.
Proof.
  assert (after_build ascii_toLowerCase hello_world) as Hb
    by exact (after_buildVocabFromInputText _ _ _).
  assert (NoDup (specialTokens hello_world)) as Hs by by_evaluation.
  assert (js "__proto__" ∉ specialTokens hello_world) as Hp by by_evaluation.
  split_and!; [done..|].
  exact (proj1 (identifiers_contiguous ascii_toLowerCase hello_world Hb Hs Hp)).
Defined.

Lemma special_tokens_present_witness :
  let tk := constructor (options (Some [js "__proto__"; js "<UNK>"; js "<UNK>"])
                           None (Some 1)) in
  after_build ascii_toLowerCase tk ∧
  Forall (λ t, hasToken tk t = true) [js "__proto__"; js "<UNK>"; js "<UNK>"].
Proof.
  intros tk.
  assert (after_build ascii_toLowerCase tk) as Hb
    by exact (after_constructor _ _).
  split; [done|]. exact (special_tokens_present ascii_toLowerCase tk Hb).
Defined.

Lemma encode_returns_after_build_witness :
  let tk := constructor (limited_options 2) in
  after_build ascii_toLowerCase tk ∧
  js "<UNK>" ∈ specialTokens tk ∧ js "<CLS>" ∈ specialTokens tk ∧
  js "<SEP>" ∈ specialTokens tk ∧
  ∃ values,
    encode ascii_toLowerCase tk (js "a b") = Returns values ∧
    length values = 4%nat.
Proof.
  intros tk.
  assert (after_build ascii_toLowerCase tk) as Hb
    by exact (after_constructor _ _).
  assert (js "<UNK>" ∈ specialTokens tk) as Hunk by by_evaluation.
  assert (js "<CLS>" ∈ specialTokens tk) as Hcls by by_evaluation.
  assert (js "<SEP>" ∈ specialTokens tk) as Hsep by by_evaluation.
  split_and!; [done..|].
  exact (encode_returns_after_build ascii_toLowerCase tk (js "a b")
           Hb Hunk Hcls Hsep).
Defined.

Lemma vocabulary_copy_witness :
  let tk := (buildVocabFromInputText ascii_toLowerCase
               (constructor default_options) (js "b 12 3")).1 in
  reachable ascii_toLowerCase tk ∧ vocabulary tk = vocab tk ∧
  vocabSize tk = Z.of_nat (length (obj_keys (vocabulary tk))).
Proof.
  intros tk.
  assert (reachable ascii_toLowerCase tk) as Hr.
  { apply reachable_built. exact (after_buildVocabFromInputText _ _ _). }
  split; [done|]. exact (vocabulary_copy ascii_toLowerCase tk Hr).
Defined.

Lemma reload_encodes_alike_witness :
  reachable ascii_toLowerCase hello_world ∧
  (∀ text, encode ascii_toLowerCase (fromJSON (toJSON hello_world)) text =
           encode ascii_toLowerCase hello_world text) ∧
  (∀ ids, decode (fromJSON (toJSON hello_world)) ids = decode hello_world ids).
Proof.
  assert (reachable ascii_toLowerCase hello_world) as Hr.
  { apply reachable_built. exact (after_buildVocabFromInputText _ _ _). }
  split; [done|]. exact (reload_encodes_alike ascii_toLowerCase hello_world Hr).
Defined.

Lemma toJSON_fromJSON_witness :
  obj_wf (json_vocab data_without_unknown) ∧
  toJSON (fromJSON data_without_unknown) = data_without_unknown.
Proof.
  assert (obj_wf (json_vocab data_without_unknown)) as Hwf.
  { change (json_vocab data_without_unknown)
      with (obj_spread (json_vocab data_without_unknown)).
    apply obj_spread_is_wf. }
  split; [done|]. exact (toJSON_fromJSON data_without_unknown Hwf).
Defined.

Lemma limit_notice_witness :
  let result := buildVocabFromInputText ascii_toLowerCase
                  (constructor (limited_options 5)) (js "a b") in
  result.2 ≠ [] ∧
  ∃ k, maxVocabSize (constructor (limited_options 5)) = Some k ∧ k ≠ 0 ∧
       k ≤ vocabSize result.1.
Proof.
  intros result.
  assert (result.2 ≠ []) as Hnotice by by_evaluation.
  split; [done|].
  exact (proj1 (proj2 (proj2 (limit_notice ascii_toLowerCase
                                (constructor (limited_options 5)) (js "a b"))))
           Hnotice).
Defined.

Lemma build_covers_input_witness :
  let tk := constructor (limited_options 6) in
  let tk' := (buildVocabFromInputText ascii_toLowerCase tk (js "Hello world")).1 in
  limit_admits tk
    (Set_from (splitTextTokens ascii_toLowerCase tk (js "Hello world"))) ∧
  js "world" ∈ splitTextTokens ascii_toLowerCase tk (js "Hello world") ∧
  inherited (js "world") = false ∧
  ∃ id, getTokenId tk' (js "world") = Some (Number id).
Proof.
  intros tk tk'.
  assert (limit_admits tk
            (Set_from (splitTextTokens ascii_toLowerCase tk (js "Hello world"))))
    as Hadmits by (right; by vm_compute).
  assert (js "world" ∈ splitTextTokens ascii_toLowerCase tk (js "Hello world"))
    as Hin by by_evaluation.
  split_and!; [done|done|reflexivity|].
  exact (proj2 (proj1 (build_covers_input ascii_toLowerCase tk (js "world"))
                  (js "Hello world"))
           Hadmits (or_intror (conj Hin eq_refl))).
Defined.

Lemma corpus_limit_keeps_most_frequent_witness :
  let tk := constructor (limited_options 6) in
  let texts := [js "a b b"; js "b c"] in
  let tk' := buildVocabFromCorpus ascii_toLowerCase tk texts in
  (js "a" ∉ specialTokens tk) ∧ (js "b" ∉ specialTokens tk) ∧
  inherited (js "b") = false ∧
  getTokenId tk' (js "a") = Some (Number 5) ∧
  ranked_before (corpus_tokens ascii_toLowerCase tk texts) (js "b") (js "a") ∧
  ∃ idb, getTokenId tk' (js "b") = Some (Number idb) ∧ idb < 5.
Proof.
  intros tk texts tk'.
  assert (js "a" ∉ specialTokens tk) as Ha by by_evaluation.
  assert (js "b" ∉ specialTokens tk) as Hb by by_evaluation.
  assert (ranked_before (corpus_tokens ascii_toLowerCase tk texts)
            (js "b") (js "a")) as Hrank.
  { left. vm_compute. lia. }
  split_and!; [done|done|reflexivity|reflexivity|done|].
  exact (corpus_limit_keeps_most_frequent ascii_toLowerCase tk texts
           (js "a") (js "b") 5 Ha Hb eq_refl eq_refl Hrank).
Defined.

Lemma build_from_nothing_witness :
  let tk := constructor (limited_options 2) in
  Forall (λ c, is_whitespace c = true)
    (processedText ascii_toLowerCase tk [32; 10]%N) ∧
  buildVocabFromInputText ascii_toLowerCase tk [32; 10]%N =
    (initializeSpecialTokens tk, []).
Proof.
  intros tk.
  assert (Forall (λ c, is_whitespace c = true)
            (processedText ascii_toLowerCase tk [32; 10]%N)) as Hws
    by by_evaluation.
  split; [done|].
  exact (proj1 (build_from_nothing ascii_toLowerCase tk) _ Hws).
Defined.

Lemma corpus_text_boundaries_witness :
  let tk := constructor default_options in
  corpus_tokens ascii_toLowerCase tk [js "a b"; js "c"] =
    corpus_tokens ascii_toLowerCase tk [js "a"; js "b c"] ∧
  buildVocabFromCorpus ascii_toLowerCase tk [js "a b"; js "c"] =
    buildVocabFromCorpus ascii_toLowerCase tk [js "a"; js "b c"].
Proof.
  intros tk. split; [reflexivity|].
  exact (corpus_text_boundaries ascii_toLowerCase tk
           [js "a b"; js "c"] [js "a"; js "b c"] eq_refl).
Defined.

Lemma round_trip_after_build_witness :
  let tk := constructor (limited_options 1000) in
  let text := js "Hello, world! Is it (really) you?" in
  ∃ ids,
    encode ascii_toLowerCase (buildVocabFromInputText ascii_toLowerCase tk text).1
      text = Returns (Number <$> ids) ∧
    decode (buildVocabFromInputText ascii_toLowerCase tk text).1 ids =
      js "hello, world! is it( really) you?".
Proof.
  intros tk text.
  assert (limit_admits tk (Set_from (splitTextTokens ascii_toLowerCase tk text)))
    as Hadmits by (right; by vm_compute).
  exact (proj1 (round_trip_after_build ascii_toLowerCase tk text
                  ltac:(by_evaluation) ltac:(by_evaluation) ltac:(by_evaluation)
                  ltac:(by_evaluation) ltac:(by_evaluation) ltac:(by_evaluation))
           Hadmits).
Defined.

Lemma App_options_forget_vocabulary_witness :
  let events :=
    [InputChanged (js "Hello world"); BuildVocabularyClicked; TimerFired 0] in
  let e := CaseSensitiveChecked true in
  let text := js "hello world" in
  let app := run ascii_toLowerCase events initial_App in
  let app' :=
    run ascii_toLowerCase
      [e; InputChanged text; EncodeTextClicked; TimerFired 0] app in
  let tokens :=
    splitTextTokens ascii_toLowerCase
      (new_CustomTokenizer (tokenizerOptions app')) text in
  (state_vocab (state app') = state_vocab (state app) ∧
   error (state app') = None ∧
   encoded (state app') =
     Number 2 :: replicate (length tokens) (Number 1) ++ [Number 3]) ∧
  state_vocab (state app) =
    [(js "<PAD>", 0); (js "<UNK>", 1); (js "<CLS>", 2); (js "<SEP>", 3);
     (js "hello", 4); (js "world", 5)] ∧
  tokens = [js "hello"; js "world"].
Proof.
  intros events e text app app' tokens. split; [|by vm_compute].
  exact (App_options_forget_vocabulary ascii_toLowerCase events e text
           ltac:(by vm_compute) ltac:(by vm_compute) ltac:(by vm_compute)
           ltac:(by vm_compute) ltac:(by_evaluation)).
Defined.

Lemma App_build_encode_decode_text_witness :
  let events := [MaxVocabSizeEntered (Some 15); ClearAllClicked] in
  let text := js "Hello, world! Is it (really) you?" in
  let app := run ascii_toLowerCase events initial_App in
  let tk := new_CustomTokenizer (tokenizerOptions app) in
  let tokens := splitTextTokens ascii_toLowerCase tk text in
  let app' :=
    run ascii_toLowerCase
      [InputChanged text; BuildVocabularyClicked; TimerFired 0;
       EncodeTextClicked; TimerFired 0; DecodeTokensClicked; TimerFired 0]
      app in
  (error (state app') = None ∧ decoded (state app') = format_tokens tokens) ∧
  format_tokens tokens = js "hello, world! is it( really) you?".
Proof.
  intros events text app tk tokens app'. split; [|by vm_compute].
  assert (limit_admits tk (Set_from tokens)) as Hadmits
    by (right; by vm_compute).
  exact (App_build_encode_decode_text ascii_toLowerCase events text
           ltac:(by vm_compute) ltac:(by vm_compute) ltac:(by_evaluation)
           Hadmits).
Defined.

Lemma App_build_encode_decode_corpus_witness :
  let text := js "A lazy fox" in
  let app := run ascii_toLowerCase [] initial_App in
  let tk := new_CustomTokenizer (tokenizerOptions app) in
  let tokens := splitTextTokens ascii_toLowerCase tk text in
  let app' :=
    run ascii_toLowerCase
      [InputChanged text; BuildFromCorpusClicked; TimerFired 0;
       EncodeTextClicked; TimerFired 0; DecodeTokensClicked; TimerFired 0]
      app in
  (error (state app') = None ∧ decoded (state app') = format_tokens tokens) ∧
  format_tokens tokens = js "a lazy fox".
Proof.
  intros text app tk tokens app'. split; [|by vm_compute].
  assert (limit_admits tk
            (Set_from (corpus_tokens ascii_toLowerCase tk (SAMPLE_TEXTS ++ [text]))))
    as Hadmits by (right; by vm_compute).
  exact (App_build_encode_decode_corpus ascii_toLowerCase [] text
           ltac:(by vm_compute) ltac:(by vm_compute) ltac:(by_evaluation)
           Hadmits).
Defined.
